(** * RapidCheck's rose tree: generation and shrinking

    A shallow embedding of [rapidcheck/detail/Rose.hpp] (class [RoseNode]) and
    [rapidcheck/detail/Shrink.hpp] (the shrink iterators), followed by the
    properties of the engine.

    Conventions of the embedding.
    - Values of the generated types [T] are type erased in the source
      ([UntypedGenerator], [UntypedShrinkIterator]); here they are elements
      of one type [Value], and every generator and iterator carries the name
      of its static type [T], which the [dynamic_cast]s of the source compare.
    - A node is named by its [Path]: the list of child indices that leads
      to it from the node on which the driver called [generate] or [shrink].
      The children of a node live in a [std::vector<RoseNode>], to which
      [pick] appends with [push_back]; nothing is ever erased or inserted in
      the middle, so the path of a node never changes.  Its place in memory
      does: a vector that grows moves its elements to new storage (the move
      constructor carries every field over and [adoptChildren] points the
      parent pointers of the moved node's children at its new place).
      Whether a given [push_back] does so depends on the capacity that the
      standard library gave the vector; the source reserves none, so a
      vector of children has the capacity it got while it grew one element
      at a time from empty, which its size determines.  The model reads off
      [reallocates] at which sizes [push_back] finds a vector full, and
      everything proved for all implicit parameters holds whatever the
      standard library does there.
    - A [RoseNode *] of the source is the path of the node it was taken
      from.  The parent pointers are kept right by the move constructor and
      are paths with nothing more.  The [ShrunkNode] binding is a raw pointer
      that nothing keeps right: next to its path, [dangling] records whether
      the node has been moved since the pointer was taken, and following the
      pointer then has no defined behaviour.
    - The implicit parameters ([ImplicitParam<...>]) are the fields of
      [Ambient]; [CurrentNode] is the pair of arguments [this] and [n] of the
      functions that run inside a regeneration.
    - Generator code is arbitrary C++ in the source.  Here the code of a
      generator is a tree [Prog] of the calls it makes on the current node
      ([pick], [atom]) and of the value it returns.  Calls nest without a
      bound known beforehand, so [generate] takes the nesting depth it may
      use and answers [Diverge] when that is not enough. *)

From Stdlib Require Import ZArith Lia.
From stdpp Require Import base list strings pretty.

Set Warnings "-register-all".
Open Scope Z_scope.

(** ** Values, type names, outcomes *)

(** The static type [T] of a generator, as [typeid] would name it. *)
Definition Ty := string.

Inductive Value : Type :=
| VBool (b : bool)
| VInt (z : Z)
| VPair (a b : Value)
| VList (l : list Value).

(** [RandomEngine::Atom]. *)
Definition Atom := N.

(** Modelled from the spec: [RandomEngine] (RandomEngine.hpp is not part of
    the sources at hand), a deterministic stream of atoms with one operation,
    [nextAtom]. *)
Record RandomEngine : Type := mkRandomEngine {
  re_stream : nat → Atom;
  re_position : nat }.

Definition nextAtom (re : RandomEngine) : Atom * RandomEngine :=
  (re_stream re (re_position re),
   mkRandomEngine (re_stream re) (S (re_position re))).

(** What a call can do: return, hit behaviour that the source does not
    define (a null downcast, a failed [assert], an index out of range, a
    pointer followed to a node that a growing vector may have moved away),
    or need more depth or passes than it was given. *)
Inductive Outcome (A : Type) : Type :=
| Done (x : A)
| Fault
| Diverge.
Arguments Done {A} x.
Arguments Fault {A}.
Arguments Diverge {A}.

(** ** Shrink iterators (Shrink.hpp) *)

Inductive ShrinkIterator : Type :=
| NullIterator
| DivideByTwoIterator (m_currentValue : Z)
| RemoveElementIterator (m_skipElement : nat) (m_collection : list Value)
| UnfoldIterator (m_it : Value) (m_predicate : Value → bool)
                 (m_iterate : Value → Value * Value).

Definition hasNext (it : ShrinkIterator) : bool :=
  match it with
  | NullIterator => false
  | DivideByTwoIterator c => negb (c =? 0)
  | RemoveElementIterator skip coll => negb (skip =? length coll)%nat
  | UnfoldIterator s p _ => p s
  end.

(** [next()].  [None] stands for the calls that do not return a value:
    [NullIterator::next] loops for ever.  The integer type [T] of
    [DivideByTwoIterator<T>] divides by truncation; halving never leaves the
    range of [T], so [Z] needs no wrap-around here. *)
Definition next (it : ShrinkIterator) : option (Value * ShrinkIterator) :=
  match it with
  | NullIterator => None
  | DivideByTwoIterator c =>
      let c' := Z.quot c 2 in Some (VInt c', DivideByTwoIterator c')
  | RemoveElementIterator skip coll =>
      Some (VList (take skip coll ++ drop (S skip) coll),
            RemoveElementIterator (S skip) coll)
  | UnfoldIterator s p f =>
      let r := f s in Some (r.1, UnfoldIterator r.2 p f)
  end.

(** The candidates an iterator yields when it is consumed as the engine does:
    [next] only after [hasNext] answered true.  [None] when [fuel] calls do
    not exhaust it. *)
Fixpoint drain (fuel : nat) (it : ShrinkIterator) : option (list Value) :=
  if hasNext it then
    match fuel with
    | O => None
    | S fuel' =>
        match next it with
        | None => None
        | Some (v, it') => cons v <$> drain fuel' it'
        end
    end
  else Some [].

(** ** Generators *)

(** A generator [Gen] has the name of its class (what [typeid] gives for the
    object), a static type [GeneratedType], the code of its call operator and
    its [shrink] member.  The code is the tree of what it
    asks of the current node: [Pick g k] is [RoseNode::current().pick(g)]
    followed by [k] on the value picked, [GetAtom k] is
    [RoseNode::current().atom()] followed by [k] on the atom. *)
Inductive Gen : Type :=
| mkGen (className : string) (GeneratedType : Ty) (produce : Prog)
        (shrink : Value → ShrinkIterator)
with Prog : Type :=
| Ret (v : Value)
| GetAtom (k : Atom → Prog)
| Pick (g : Gen) (k : Value → Prog).

Definition className (g : Gen) : string :=
  match g with mkGen c _ _ _ => c end.
Definition GeneratedType (g : Gen) : Ty :=
  match g with mkGen _ T _ _ => T end.
Definition produce (g : Gen) : Prog :=
  match g with mkGen _ _ p _ => p end.
Definition shrink_of (g : Gen) : Value → ShrinkIterator :=
  match g with mkGen _ _ _ s => s end.

(** Modelled from the spec: [Constant<T>] (its header is not part of the
    sources at hand), the generator that always yields the captured value and
    shrinks to the empty sequence. *)
Definition Constant (T : Ty) (v : Value) : Gen :=
  mkGen ("rc::Constant<" +:+ T +:+ ">") T (Ret v) (λ _, NullIterator).

(** Modelled from the spec: the rendering of a value that
    [UntypedGenerator::generateString] returns (Show.hpp is not part of the
    sources at hand). *)
Fixpoint show (v : Value) : string :=
  match v with
  | VBool b => if b then "true" else "false"
  | VInt z => pretty z
  | VPair a b => "(" +:+ show a +:+ ", " +:+ show b +:+ ")"
  | VList l => "[" +:+ String.concat ", " (map show l) +:+ "]"
  end.

(** ** Rose nodes *)

Definition Path := list nat.

Inductive RoseNode : Type := mkRoseNode {
  m_parent : option Path;
  m_children : list RoseNode;
  m_hasAtom : bool;
  m_atom : Atom;
  m_lastGenerator : option Gen;
  m_acceptedGenerator : option Gen;
  m_shrunkGenerator : option Gen;
  m_shrinkIterator : option (Ty * ShrinkIterator) }.

(** [RoseNode(RoseNode *parent)]; [RoseNode()] is [RoseNode_new None].  The
    atom of a node that has none yet is not initialised in the source and
    reads as 0 here. *)
Definition RoseNode_new (parent : option Path) : RoseNode :=
  mkRoseNode parent [] false 0%N None None None None.

Definition set_children (n : RoseNode) (ch : list RoseNode) : RoseNode :=
  mkRoseNode (m_parent n) ch (m_hasAtom n) (m_atom n) (m_lastGenerator n)
    (m_acceptedGenerator n) (m_shrunkGenerator n) (m_shrinkIterator n).
Definition set_atom (n : RoseNode) (x : Atom) : RoseNode :=
  mkRoseNode (m_parent n) (m_children n) true x (m_lastGenerator n)
    (m_acceptedGenerator n) (m_shrunkGenerator n) (m_shrinkIterator n).
Definition set_lastGenerator (n : RoseNode) (g : option Gen) : RoseNode :=
  mkRoseNode (m_parent n) (m_children n) (m_hasAtom n) (m_atom n) g
    (m_acceptedGenerator n) (m_shrunkGenerator n) (m_shrinkIterator n).
Definition set_acceptedGenerator (n : RoseNode) (g : option Gen) : RoseNode :=
  mkRoseNode (m_parent n) (m_children n) (m_hasAtom n) (m_atom n)
    (m_lastGenerator n) g (m_shrunkGenerator n) (m_shrinkIterator n).
Definition set_shrunkGenerator (n : RoseNode) (g : option Gen) : RoseNode :=
  mkRoseNode (m_parent n) (m_children n) (m_hasAtom n) (m_atom n)
    (m_lastGenerator n) (m_acceptedGenerator n) g (m_shrinkIterator n).
Definition set_shrinkIterator (n : RoseNode)
    (it : option (Ty * ShrinkIterator)) : RoseNode :=
  mkRoseNode (m_parent n) (m_children n) (m_hasAtom n) (m_atom n)
    (m_lastGenerator n) (m_acceptedGenerator n) (m_shrunkGenerator n) it.

(** ** The implicit parameters *)

(** [shrunkNode] is the [ShrunkNode] binding: [None] when there is no
    binding ([hasBinding()] is false), [Some None] when it is bound to
    [nullptr], [Some (Some p)] when it is bound to the node at [p].
    [dangling] tells whether that node has been moved to other storage since
    the binding was made: the pointer is then a pointer to freed memory.
    Modelled from the spec: ImplicitParam.hpp is not part of the sources at
    hand; a binding made by [let] lasts until the [ImplicitParam] object that
    made it goes out of scope, and the binding it shadowed is back then.
    [reallocates] is no implicit parameter of the source but what its
    standard library does: [reallocates s] tells whether [push_back] on a
    vector that has grown to [s] elements finds it full and moves the
    elements to new storage.  No call changes it. *)
Record Ambient : Type := mkAmbient {
  nextChildIndex : nat;
  shrunkNode : option (option Path);
  dangling : bool;
  reallocates : nat → bool;
  randomEngine : RandomEngine }.

Definition set_nextChildIndex (a : Ambient) (i : nat) : Ambient :=
  mkAmbient i (shrunkNode a) (dangling a) (reallocates a) (randomEngine a).
(** Binding [ShrunkNode] anew, to null or to a pointer just taken. *)
Definition set_shrunkNode (a : Ambient) (s : option (option Path)) : Ambient :=
  mkAmbient (nextChildIndex a) s false (reallocates a) (randomEngine a).
Definition set_randomEngine (a : Ambient) (re : RandomEngine) : Ambient :=
  mkAmbient (nextChildIndex a) (shrunkNode a) (dangling a) (reallocates a) re.
(** The binding of [ShrunkNode] that [saved] had is back. *)
Definition restore_shrunkNode (a saved : Ambient) : Ambient :=
  mkAmbient (nextChildIndex a) (shrunkNode saved) (dangling saved)
    (reallocates a) (randomEngine a).

(** The test of [generate]: [ShrunkNode] has a binding and is bound to
    [nullptr]. *)
Definition shrinking (a : Ambient) : bool :=
  match shrunkNode a with
  | Some None => true
  | _ => false
  end.

(** ** RoseNode's member functions *)

(** [atom()] *)
Definition atom (n : RoseNode) (re : RandomEngine)
    : Atom * RoseNode * RandomEngine :=
  if m_hasAtom n then (m_atom n, n, re)
  else let '(x, re') := nextAtom re in (x, set_atom n x, re').

(** [activeGenerator()] *)
Definition activeGenerator (n : RoseNode) : option Gen :=
  match m_shrunkGenerator n with
  | Some g => Some g
  | None =>
      match m_acceptedGenerator n with
      | Some g => Some g
      | None =>
          match m_lastGenerator n with
          | Some g => Some g
          | None => None
          end
      end
  end.

(** [generatorName()] and [description()], the line [print] writes for a
    node. *)
Definition generatorName (n : RoseNode) : string :=
  match activeGenerator n with
  | None => ""
  | Some gen => className gen
  end.

Definition description (n : RoseNode) : string := generatorName n.

(** [acceptShrink()] *)
Definition acceptShrink (n : RoseNode) : RoseNode :=
  match m_shrunkGenerator n with
  | None => n
  | Some g =>
      set_shrinkIterator
        (set_shrunkGenerator (set_acceptedGenerator n (Some g)) None) None
  end.

(** The result of a call that returns a value and leaves the node and the
    implicit parameters in a new state. *)
Definition Result : Type := Outcome (Value * RoseNode * Ambient).

(** The type of [generate] as [pick] calls it on a child: the path of the
    child, the generator, the child, the implicit parameters. *)
Definition Generate : Type := Path → Gen → RoseNode → Ambient → Result.

(** The path of the node that owns the node at [q]: what the parent pointer
    of the node at [q] has to hold. *)
Definition parent_of (q : Path) : option Path :=
  match q with
  | [] => None
  | _ => Some (removelast q)
  end.

(** What [m_children.push_back(...)] on the node at [this], which has
    [size] children, does to the pointers held outside the tree: when the
    vector is full, the children that were there are moved, and a
    [ShrunkNode] that is bound to one of them dangles from then on.  A node
    further down stays where it is, in the storage of a vector that is
    handed over whole to the moved node. *)
Definition push_back_moves (this : Path) (size : nat) (a : Ambient)
    : Ambient :=
  if reallocates a size then
    match shrunkNode a with
    | Some (Some q) =>
        if decide (parent_of q = Some this)
        then mkAmbient (nextChildIndex a) (shrunkNode a) true
               (reallocates a) (randomEngine a)
        else a
    | _ => a
    end
  else a.

Section Calls.
(** [generate] on the children, at the depth that is left. *)
Variable generate_child : Generate.

(** [pick(generator)] on the node [n] at [this]. *)
Definition pick (this : Path) (generator : Gen) (n : RoseNode) (a : Ambient)
    : Result :=
  let i := nextChildIndex a in
  let children :=
    if (length (m_children n) <=? i)%nat
    then m_children n ++ [RoseNode_new (Some this)]
    else m_children n in
  let a :=
    if (length (m_children n) <=? i)%nat
    then push_back_moves this (length (m_children n)) a
    else a in
  let a := set_nextChildIndex a (S i) in
  match children !! i with
  | None => Fault
  | Some child =>
      match generate_child (this ++ [i]) generator child a with
      | Done (v, child', a') =>
          Done (v, set_children n (<[i := child']> children), a')
      | Fault => Fault
      | Diverge => Diverge
      end
  end.

(** The code of a generator, run on the current node [n] at [this]. *)
Fixpoint run (this : Path) (p : Prog) (n : RoseNode) (a : Ambient)
    : Result :=
  match p with
  | Ret v => Done (v, n, a)
  | GetAtom k =>
      let '(x, n', re') := atom n (randomEngine a) in
      run this (k x) n' (set_randomEngine a re')
  | Pick g k =>
      match pick this g n a with
      | Done (v, n', a') => run this (k v) n' a'
      | Fault => Fault
      | Diverge => Diverge
      end
  end.

(** [regenerate<T>()]: binds [CurrentNode] to this node and
    [NextChildIndex] to 0 for the time of the call, and calls the active
    generator downcast to [Generator<T>]. *)
Definition regenerate (T : Ty) (this : Path) (n : RoseNode) (a : Ambient)
    : Result :=
  match activeGenerator n with
  | None => Fault
  | Some g =>
      if decide (GeneratedType g = T) then
        match run this (produce g) n (set_nextChildIndex a 0) with
        | Done (v, n', a') =>
            Done (v, n', set_nextChildIndex a' (nextChildIndex a))
        | Fault => Fault
        | Diverge => Diverge
        end
      else Fault
  end.

(** [stringValue()]; [generateString] calls the generator and renders
    the value. *)
Definition stringValue (this : Path) (n : RoseNode) (a : Ambient)
    : Outcome (string * RoseNode * Ambient) :=
  match activeGenerator n with
  | None => Done ("", n, a)
  | Some g =>
      match run this (produce g) n (set_nextChildIndex a 0) with
      | Done (v, n', a') =>
          Done (show v, n', set_nextChildIndex a' (nextChildIndex a))
      | Fault => Fault
      | Diverge => Diverge
      end
  end.

(** The end of [generate]: the [if (m_shrinkIterator->hasNext())] statement
    and [return regenerate<T>()]. *)
Definition propose (T : Ty) (this : Path) (n : RoseNode) (a : Ambient)
    : Result :=
  match m_shrinkIterator n with
  | None => Fault
  | Some (T', it) =>
      if hasNext it then
        if decide (T' = T) then
          match next it with
          | None => Diverge
          | Some (v, it') =>
              let n := set_shrinkIterator n (Some (T', it')) in
              let n := set_shrunkGenerator n (Some (Constant T v)) in
              regenerate T this n (set_shrunkNode a (Some (Some this)))
          end
        else Fault
      else regenerate T this (set_shrunkGenerator n None) a
  end.

(** The body of [generate(generator)]. *)
Definition generate_body (this : Path) (generator : Gen) (n : RoseNode)
    (a : Ambient) : Result :=
  let T := GeneratedType generator in
  let n := set_lastGenerator n (Some generator) in
  if shrinking a then
    match m_shrinkIterator n with
    | None =>
        match regenerate T this n a with
        | Done (value, n, a) =>
            if shrinking a then
              let n :=
                set_shrinkIterator n (Some (T, shrink_of generator value)) in
              let n :=
                match m_acceptedGenerator n with
                | None => set_acceptedGenerator n (Some generator)
                | Some _ => n
                end in
              propose T this n a
            else Done (value, n, a)
        | Fault => Fault
        | Diverge => Diverge
        end
    | Some _ => propose T this n a
    end
  else regenerate T this n a.
End Calls.

(** [generate(generator)] on the node [n] at [this], with calls nested at
    most [depth] deep. *)
Fixpoint generate (depth : nat) : Generate :=
  match depth with
  | O => λ _ _ _ _, Diverge
  | S depth' => generate_body (generate depth')
  end.

(** The node at [p] below [n], and [n] with [f] applied to the node at [p]:
    what following a [RoseNode *] reads and writes. *)
Fixpoint node_at (p : Path) (n : RoseNode) : option RoseNode :=
  match p with
  | [] => Some n
  | i :: p' =>
      match m_children n !! i with
      | None => None
      | Some c => node_at p' c
      end
  end.

Fixpoint update_at (f : RoseNode → RoseNode) (p : Path) (n : RoseNode)
    : option RoseNode :=
  match p with
  | [] => Some (f n)
  | i :: p' =>
      match m_children n !! i with
      | None => None
      | Some c =>
          match update_at f p' c with
          | None => None
          | Some c' => Some (set_children n (<[i := c']> (m_children n)))
          end
      end
  end.

(** [bool result = generate(generator)]: the conversion of the generated
    value to [bool]. *)
Definition to_bool (v : Value) : option bool :=
  match v with
  | VBool b => Some b
  | VInt z => Some (negb (z =? 0))
  | _ => None
  end.

(** The loop of [shrink(generator)] on the node [n], at most [passes] times
    round, [numTries] being the tries counted so far.  [numTries] is an
    [int] in the source; it counts the passes and is taken to stay in range.
    The call of [acceptShrink] through [ShrunkNode] follows the pointer;
    when the pointer dangles, the call is on freed memory. *)
Fixpoint shrink_loop (passes depth : nat) (generator : Gen) (numTries : Z)
    (n : RoseNode) (a : Ambient) : Outcome (bool * Z * RoseNode * Ambient) :=
  match passes with
  | O => Diverge
  | S passes' =>
      let numTries := numTries + 1 in
      let a := set_shrunkNode a (Some None) in
      match generate depth [] generator n a with
      | Done (v, n, a) =>
          match to_bool v with
          | None => Fault
          | Some result =>
              match shrunkNode a with
              | Some (Some p) =>
                  if result
                  then shrink_loop passes' depth generator numTries n a
                  else if dangling a then Fault
                  else
                    match update_at acceptShrink p n with
                    | None => Fault
                    | Some n => Done (true, numTries, n, a)
                    end
              | _ => Done (false, numTries, n, a)
              end
          end
      | Fault => Fault
      | Diverge => Diverge
      end
  end.

(** [shrink(generator)]: the [ShrunkNode] binding of the caller, if any, is
    back when the call returns, as good or bad as it was: a pointer that the
    caller holds is taken to be to a node outside the tree that the call
    works on. *)
Definition shrink (passes depth : nat) (generator : Gen) (n : RoseNode)
    (a : Ambient) : Outcome (bool * Z * RoseNode * Ambient) :=
  match shrink_loop passes depth generator 0 n a with
  | Done (success, numTries, n', a') =>
      Done (success, numTries, n', restore_shrunkNode a' a)
  | Fault => Fault
  | Diverge => Diverge
  end.

(** [depth()], [path()] and [print(os)] of a node [n] that lives in the tree
    [root]: the parent pointer is followed in [root].  A pointer to no node
    of [root] is a fault; [fuel] bounds the number of pointers followed. *)
Fixpoint depth (fuel : nat) (root n : RoseNode) : Outcome nat :=
  match m_parent n with
  | None => Done 0%nat
  | Some q =>
      match fuel with
      | O => Diverge
      | S fuel' =>
          match node_at q root with
          | None => Fault
          | Some parent =>
              match depth fuel' root parent with
              | Done d => Done (S d)
              | Fault => Fault
              | Diverge => Diverge
              end
          end
      end
  end.

Fixpoint path (fuel : nat) (root n : RoseNode) : Outcome string :=
  match m_parent n with
  | None => Done ("/ " +:+ description n)
  | Some q =>
      match fuel with
      | O => Diverge
      | S fuel' =>
          match node_at q root with
          | None => Fault
          | Some parent =>
              match path fuel' root parent with
              | Done s => Done (s +:+ " / " +:+ description n)
              | Fault => Fault
              | Diverge => Diverge
              end
          end
      end
  end.

(** [std::endl], and what the loop [os << "  "] writes in [d] rounds. *)
Definition endl : string := String (Ascii.ascii_of_nat 10) EmptyString.

Fixpoint indent (d : nat) : string :=
  match d with
  | O => ""
  | S d' => "  " +:+ indent d'
  end.

(** What is written when the parts are written one after the other. *)
Fixpoint written (parts : list (Outcome string)) : Outcome string :=
  match parts with
  | [] => Done ""
  | Done s :: parts' =>
      match written parts' with
      | Done s' => Done (s +:+ s')
      | Fault => Fault
      | Diverge => Diverge
      end
  | Fault :: _ => Fault
  | Diverge :: _ => Diverge
  end.

(** [print(os)]: what it writes to [os]. *)
Fixpoint print (fuel : nat) (root n : RoseNode) : Outcome string :=
  match depth fuel root n with
  | Done d =>
      match written (map (print fuel root) (m_children n)) with
      | Done s => Done (indent d +:+ "- " +:+ description n +:+ endl +:+ s)
      | Fault => Fault
      | Diverge => Diverge
      end
  | Fault => Fault
  | Diverge => Diverge
  end.

(** The loop of [example()] over the children from the [i]-th on, and
    [example()]: [stringValue()] of each child in turn. *)
Fixpoint example_from (gen : Generate) (this : Path) (i : nat)
    (children : list RoseNode) (a : Ambient)
    : Outcome (list string * list RoseNode * Ambient) :=
  match children with
  | [] => Done ([], [], a)
  | child :: children' =>
      match stringValue gen (this ++ [i]) child a with
      | Done (s, child', a') =>
          match example_from gen this (S i) children' a' with
          | Done (values, children'', a'') =>
              Done (s :: values, child' :: children'', a'')
          | Fault => Fault
          | Diverge => Diverge
          end
      | Fault => Fault
      | Diverge => Diverge
      end
  end.

Definition example (gen : Generate) (this : Path) (n : RoseNode) (a : Ambient)
    : Outcome (list string * RoseNode * Ambient) :=
  match example_from gen this 0 (m_children n) a with
  | Done (values, children, a') => Done (values, set_children n children, a')
  | Fault => Fault
  | Diverge => Diverge
  end.

(** ** The scenarios of the specification *)

Module Scenario.
(** An integer generator that yields [v] and shrinks by halving. *)
Definition halving (v : Z) : Gen :=
  mkGen "Halving" "int" (Ret (VInt v)) (λ x,
    match x with
    | VInt z => DivideByTwoIterator z
    | _ => NullIterator
    end).

(** The property as a generator: it picks its argument with [arg] and
    returns the value of the predicate [holds] on it. *)
Definition property (arg : Gen) (holds : Value → bool) : Gen :=
  mkGen "Property" "bool" (Pick arg (λ x, Ret (VBool (holds x))))
    (λ _, NullIterator).

Definition at_least (bound : Z) (x : Value) : bool :=
  match x with
  | VInt z => bound <=? z
  | _ => false
  end.

Definition engine0 : RandomEngine := mkRandomEngine (λ i, N.of_nat i) 0.
(** A standard library whose vectors double their capacity, as those of
    GCC and LLVM do: a vector that grows one element at a time from empty
    has the capacities 1, 2, 4, 8, ..., and [push_back] finds it full at
    the sizes 0, 1, 2, 4, 8, ... *)
Definition doubling (size : nat) : bool :=
  ((size =? 0) || (size =? 2 ^ Nat.log2 size))%nat.

Definition ambient0 : Ambient := mkAmbient 0 None false doubling engine0.

(** S1: the argument starts at 100, the predicate is "value >= 10". *)
Definition s1 : Gen := property (halving 100) (at_least 10).
(** S4: the argument is 0, the predicate always holds. *)
Definition s4 : Gen := property (halving 0) (λ _, true).

(** The tree the driver hands to [shrink]: a root on which the property
    has been generated once, its argument picked in the first child. *)
Definition first_run (g : Gen) : Result :=
  generate 2 [] g (RoseNode_new None) ambient0.

Definition tree (g arg : Gen) (accepted : option Gen)
    (iterator : option (Ty * ShrinkIterator))
    (arg_accepted : option Gen)
    (arg_iterator : option (Ty * ShrinkIterator)) : RoseNode :=
  mkRoseNode None
    [mkRoseNode (Some []) [] false 0%N (Some arg) arg_accepted None
       arg_iterator]
    false 0%N (Some g) accepted None iterator.

Definition s1_tree : RoseNode := tree s1 (halving 100) None None None None.
Definition s4_tree : RoseNode := tree s4 (halving 0) None None None None.

(** S4 after [shrink]. *)
Definition s4_exhausted : RoseNode :=
  tree s4 (halving 0) (Some s4) (Some ("bool"%string, NullIterator))
    (Some (halving 0)) (Some ("int"%string, DivideByTwoIterator 0)).

(** S1 after [shrink], with [v] accepted for the argument. *)
Definition s1_accepted (v : Z) : RoseNode :=
  tree s1 (halving 100) None None (Some (Constant "int" (VInt v))) None.

(** The value of the argument as the tree [n] has it: what [pick] gets
    from the first child outside a shrink pass. *)
Definition argument_value (arg : Gen) (n : RoseNode) : Outcome Value :=
  match m_children n !! 0%nat with
  | None => Fault
  | Some child =>
      match generate 1 [0%nat] arg child ambient0 with
      | Done (v, _, _) => Done v
      | Fault => Fault
      | Diverge => Diverge
      end
  end.

(** An integer generator that reads its value off the atom of its node. *)
Definition from_atom : Gen :=
  mkGen "FromAtom" "int" (GetAtom (λ x, Ret (VInt (Z.of_N x)))) (λ x,
    match x with
    | VInt z => DivideByTwoIterator z
    | _ => NullIterator
    end).

(** A random engine about to yield 40, 41, ... *)
Definition engine40 : RandomEngine :=
  mkRandomEngine (λ i, N.of_nat (40 + i)) 0.

(** A property on an argument read off an atom, and the tree and the
    implicit parameters after its first run. *)
Definition atomic : Gen := property from_atom (at_least 10).

Definition atomic_tree : RoseNode :=
  match generate 2 [] atomic (RoseNode_new None)
          (mkAmbient 0 None false doubling engine40)
  with
  | Done (_, n, _) => n
  | _ => RoseNode_new None
  end.

Definition atomic_ambient : Ambient :=
  mkAmbient 0 None false doubling
    (mkRandomEngine (re_stream engine40) 1).

(** A pair of two integers, picked one after the other, and a root on
    which it is the last generator. *)
Definition pair : Gen :=
  mkGen "Pair" "pair"
    (Pick (halving 8) (λ x, Pick (halving 4) (λ y, Ret (VPair x y))))
    (λ _, NullIterator).

Definition pair_root : RoseNode :=
  set_lastGenerator (RoseNode_new None) (Some pair).

(** The tree that generating a pair on a new root leaves. *)
Definition pair_tree : RoseNode :=
  match generate 2 [] pair (RoseNode_new None) ambient0 with
  | Done (_, n, _) => n
  | _ => RoseNode_new None
  end.

(** A property on two arguments, picked one after the other, and the
    property on 8 and 4 that never holds. *)
Definition property2 (arg1 arg2 : Gen) (holds : Value → Value → bool) : Gen :=
  mkGen "Property2" "bool"
    (Pick arg1 (λ x, Pick arg2 (λ y, Ret (VBool (holds x y)))))
    (λ _, NullIterator).

Definition never : Gen := property2 (halving 8) (halving 4) (λ _ _, false).

(** A property that picks its arguments one after the other and never
    holds. *)
Fixpoint picks (args : list Gen) (result : Value) : Prog :=
  match args with
  | [] => Ret result
  | g :: args' => Pick g (λ _, picks args' result)
  end.

Definition fails_on (args : list Gen) : Gen :=
  mkGen "Fails" "bool" (picks args (VBool false)) (λ _, NullIterator).

(** The tree that the first run of [never] on a new root leaves. *)
Definition never_tree : RoseNode :=
  match generate 2 [] never (RoseNode_new None) ambient0 with
  | Done (_, n, _) => n
  | _ => RoseNode_new None
  end.
End Scenario.

(** * Notions used to state the properties *)

(** The children [pick] works on: one more than before when the index is
    at or past their number. *)
Definition picked_children (this : Path) (n : RoseNode) (i : nat)
    : list RoseNode :=
  if (length (m_children n) <=? i)%nat
  then m_children n ++ [RoseNode_new (Some this)]
  else m_children n.

(** The implicit parameters as [pick] leaves them to the child's
    [generate], but for the index. *)
Definition picked_ambient (this : Path) (n : RoseNode) (a : Ambient)
    : Ambient :=
  if (length (m_children n) <=? nextChildIndex a)%nat
  then push_back_moves this (length (m_children n)) a
  else a.

(** The fields of a node that only [generate] and [acceptShrink] on the node
    itself write. *)
Definition same_slots (n n' : RoseNode) : Prop :=
  m_parent n' = m_parent n ∧
  m_lastGenerator n' = m_lastGenerator n ∧
  m_acceptedGenerator n' = m_acceptedGenerator n ∧
  m_shrunkGenerator n' = m_shrunkGenerator n ∧
  m_shrinkIterator n' = m_shrinkIterator n.

(** [generate] on a child gives the index back as it found it. *)
Definition restores_index (gen : Generate) : Prop :=
  ∀ this G n a v n' a',
    gen this G n a = Done (v, n', a') → nextChildIndex a' = nextChildIndex a.

(** What a call at [this] can do to the [ShrunkNode] binding: nothing,
    unless it is bound to null, and then it stays so or is bound to a node at
    or below [this]. *)
Definition proposal_from (this : Path) (b b' : option (option Path)) : Prop :=
  match b with
  | Some None => b' = Some None ∨ ∃ s, b' = Some (Some (this ++ s))
  | _ => b' = b
  end.

Definition proposal_below (this : Path) (b b' : option (option Path))
    : Prop :=
  match b with
  | Some None => b' = Some None ∨ ∃ i s, b' = Some (Some (this ++ i :: s))
  | _ => b' = b
  end.

Definition proposes_within (gen : Generate) : Prop :=
  ∀ this G n a v n' a',
    gen this G n a = Done (v, n', a') →
    proposal_from this (shrunkNode a) (shrunkNode a').

(** A call of [generate] that ran under a null [ShrunkNode] binding and left
    it null can be repeated on the node it left, under any null binding:
    the same value comes back and nothing is written. *)
Definition settles (gen : Generate) : Prop :=
  ∀ this G n a v n' a',
    shrunkNode a = Some None →
    gen this G n a = Done (v, n', a') →
    shrunkNode a' = Some None →
    ∀ a2, shrunkNode a2 = Some None → gen this G n' a2 = Done (v, n', a2).

(** The number of candidates of the halving sequence of [v], and the
    sequence as the specification words it: [v/2], [v/4], ... down to 0. *)
Definition halvings_count (v : Z) : nat :=
  if v =? 0 then 0%nat else S (Z.to_nat (Z.log2 v)).

Definition halvings (v : Z) : list Z :=
  (λ k : nat, v / 2 ^ Z.of_nat k) <$> seq 1 (halvings_count v).

(** The specification's wording: the first non-empty slot of a list of slots
    given in priority order. *)
Definition first_nonempty {A : Type} (slots : list (option A)) : option A :=
  head (omap id slots).

(** The search of [shrink(g)] in the words of its documentation, "tries to
    find an immediate shrink that yields false": passes are run one after
    the other, each under a fresh null binding; the search ends at the first
    pass in which no node proposes, without success, or at the first pass
    whose proposal makes [g] return false, and then that one proposal is
    accepted, at the node that made it and through a pointer that is still
    good; a pass whose proposal makes [g] return true is followed by
    another pass.  [k] counts the passes run before.  Nothing is said of a
    pass that ends on a proposal making [g] return false with the pointer to
    the proposing node dangling. *)
Inductive shrink_search (depth : nat) (G : Gen)
    : Z → RoseNode → Ambient → bool * Z * RoseNode * Ambient → Prop :=
| search_exhausted k n a v result n' a' :
    generate depth [] G n (set_shrunkNode a (Some None)) = Done (v, n', a') →
    to_bool v = Some result →
    shrunkNode a' = Some None →
    shrink_search depth G k n a (false, k + 1, n', a')
| search_accepted k n a v n' a' p n'' :
    generate depth [] G n (set_shrunkNode a (Some None)) = Done (v, n', a') →
    to_bool v = Some false →
    shrunkNode a' = Some (Some p) →
    dangling a' = false →
    update_at acceptShrink p n' = Some n'' →
    shrink_search depth G k n a (true, k + 1, n'', a')
| search_rejected k n a v n' a' p res :
    generate depth [] G n (set_shrunkNode a (Some None)) = Done (v, n', a') →
    to_bool v = Some true →
    shrunkNode a' = Some (Some p) →
    shrink_search depth G (k + 1) n' a' res →
    shrink_search depth G k n a res.

(** The atom cached in a node, and in the node at [p] below [n]. *)
Definition cached_atom (n : RoseNode) : option Atom :=
  if m_hasAtom n then Some (m_atom n) else None.

Definition atom_at (p : Path) (n : RoseNode) : option Atom :=
  match node_at p n with
  | None => None
  | Some m => cached_atom m
  end.

Definition keeps_atoms (gen : Generate) : Prop :=
  ∀ this G n a v n' a',
    gen this G n a = Done (v, n', a') →
    ∀ p x, atom_at p n = Some x → atom_at p n' = Some x.

(** The indices of the children to which the [pick] calls of a run are
    routed, in the order of the calls. *)
Fixpoint picked_indices (gen : Generate) (this : Path) (p : Prog)
    (n : RoseNode) (a : Ambient) : list nat :=
  match p with
  | Ret _ => []
  | GetAtom k =>
      let '(x, n', re') := atom n (randomEngine a) in
      picked_indices gen this (k x) n' (set_randomEngine a re')
  | Pick g k =>
      nextChildIndex a ::
      match pick gen this g n a with
      | Done (v, n', a') => picked_indices gen this (k v) n' a'
      | _ => []
      end
  end.

(** [gen'] returns whatever [gen] returns: what more depth gives. *)
Definition extends (gen gen' : Generate) : Prop :=
  ∀ this G n a r, gen this G n a = Done r → gen' this G n a = Done r.

(** The candidates of the halving iterator on any integer [v], negative
    ones included: the truncated quotients of [v] by 2, 4, ... *)
Definition signed_halvings (v : Z) : list Z :=
  (λ k : nat, Z.quot v (2 ^ Z.of_nat k))
    <$> seq 1 (halvings_count (Z.abs v)).

(** The collection [coll] without its element at [i], for each [i] from
    [skip] on. *)
Definition removals (skip : nat) (coll : list Value) : list Value :=
  (λ i, VList (delete i coll)) <$> seq skip (length coll - skip).

(** Halving written with [unfold]: the state is the current value, the
    predicate "not zero", the step halves and yields the half. *)
Definition halve_predicate (s : Value) : bool :=
  match s with
  | VInt z => negb (z =? 0)
  | _ => false
  end.

Definition halve_step (s : Value) : Value * Value :=
  match s with
  | VInt z => (VInt (Z.quot z 2), VInt (Z.quot z 2))
  | _ => (s, s)
  end.

(** A call of [generate] can be repeated outside a shrink pass on the
    node it left: the same value comes back and nothing is written. *)
Definition replays (gen : Generate) : Prop :=
  ∀ this G n a v n' a',
    gen this G n a = Done (v, n', a') →
    ∀ a2, shrinking a2 = false → gen this G n' a2 = Done (v, n', a2).

(** A change of a node that leaves its children and its atom alone. *)
Definition slots_only (f : RoseNode → RoseNode) : Prop :=
  (∀ n ch, f (set_children n ch) = set_children (f n) ch) ∧
  (∀ n x, f (set_atom n x) = set_atom (f n) x) ∧
  (∀ n, m_children (f n) = m_children n ∧ m_hasAtom (f n) = m_hasAtom n ∧
        m_atom (f n) = m_atom n).

(** A call of [generate] outside a shrink pass that writes nothing on [n]
    writes nothing either, and returns the same, once a shrink has been
    accepted somewhere in [n]. *)
Definition unmoved_by_accept (gen : Generate) : Prop :=
  ∀ this G n a v a' s m,
    shrinking a = false →
    gen this G n a = Done (v, n, a') →
    update_at acceptShrink s n = Some m →
    gen this G m a = Done (v, m, a').

(** [R] relates every node of [n] to the node at the same place in [n']:
    no node of [n] is missing in [n']. *)
Definition everywhere (R : RoseNode → RoseNode → Prop) (n n' : RoseNode)
    : Prop :=
  ∀ p m, node_at p n = Some m → ∃ m', node_at p n' = Some m' ∧ R m m'.

(** The state of shrinking that a node holds. *)
Definition shrink_state (n : RoseNode)
    : option Gen * option Gen * option (Ty * ShrinkIterator) :=
  (m_acceptedGenerator n, m_shrunkGenerator n, m_shrinkIterator n).

(** [I] holds of every node at or below [n], [n] being at [this]. *)
Definition throughout (I : Path → RoseNode → Prop) (this : Path)
    (n : RoseNode) : Prop :=
  ∀ p m, node_at p n = Some m → I (this ++ p) m.

Definition parent_ok (q : Path) (n : RoseNode) : Prop :=
  m_parent n = parent_of q.

(** A node holds a proposal only while it holds an iterator. *)
Definition proposal_ok (q : Path) (n : RoseNode) : Prop :=
  m_shrunkGenerator n ≠ None → m_shrinkIterator n ≠ None.

(** [gen] relates by [R] every node of the tree it is given to the node at
    the same place in the tree it leaves; when [quiet] is set, this is asked
    only of the calls made outside a shrink pass. *)
Definition keeps_everywhere (R : RoseNode → RoseNode → Prop) (quiet : bool)
    (gen : Generate) : Prop :=
  ∀ this G n a v n' a',
    (quiet = true → shrinking a = false) →
    gen this G n a = Done (v, n', a') →
    everywhere R n n'.

(** What [generate] and [shrink] keep of every node: the atom it has, if it
    has one; and what [generate] keeps of every node outside a shrink pass:
    its state of shrinking. *)
Definition same_atom (m m' : RoseNode) : Prop :=
  ∀ x, cached_atom m = Some x → cached_atom m' = Some x.

Definition same_shrink_state (m m' : RoseNode) : Prop :=
  m_parent m' = m_parent m ∧ shrink_state m' = shrink_state m.

(** [gen] keeps [I] holding of every node at or below the node it is
    called on. *)
Definition keeps_throughout (I : Path → RoseNode → Prop) (gen : Generate)
    : Prop :=
  ∀ this G n a v n' a',
    gen this G n a = Done (v, n', a') →
    throughout I this n → throughout I this n'.

(** The tree below [n] written line by line, a node before its children,
    each node indented by its level, [n] being at level [d]. *)
Fixpoint render (d : nat) (n : RoseNode) : string :=
  indent d +:+ "- " +:+ description n +:+ endl +:+
  fold_right String.append "" (map (render (S d)) (m_children n)).

(** The descriptions of the nodes met from [n] down along [p]. *)
Fixpoint descriptions_along (p : Path) (n : RoseNode) : list string :=
  description n ::
  match p with
  | [] => []
  | i :: p' =>
      match m_children n !! i with
      | None => []
      | Some c => descriptions_along p' c
      end
  end.

(** The values that the [pick] calls of a run return, in the order of the
    calls. *)
Fixpoint picked_values (gen : Generate) (this : Path) (p : Prog)
    (n : RoseNode) (a : Ambient) : list Value :=
  match p with
  | Ret _ => []
  | GetAtom k =>
      let '(x, n', re') := atom n (randomEngine a) in
      picked_values gen this (k x) n' (set_randomEngine a re')
  | Pick g k =>
      match pick gen this g n a with
      | Done (v, n', a') => v :: picked_values gen this (k v) n' a'
      | _ => []
      end
  end.

(** The descriptions [descs] of the nodes from the root down, joined as
    [path()] joins them. *)
Definition joined_path (descs : list string) : string :=
  match descs with
  | [] => ""
  | d :: ds => fold_left (λ s d', s +:+ " / " +:+ d') ds ("/ " +:+ d)
  end.

(** The number of levels below [n]. *)
Fixpoint height (n : RoseNode) : nat :=
  fold_right Nat.max 0%nat (map (λ c, S (height c)) (m_children n)).

(** The node holds a proposal: a constant in its shrunk slot, and an
    iterator. *)
Definition holds_proposal (m : RoseNode) : Prop :=
  (∃ T c, m_shrunkGenerator m = Some (Constant T c)) ∧
  m_shrinkIterator m ≠ None.

(** When a call of [gen] on the node at [this] binds [ShrunkNode], it binds
    it to a node at or below [this] that is there and holds a proposal. *)
Definition proposes_here (gen : Generate) : Prop :=
  ∀ this G n a v n' a' q,
    shrunkNode a = Some None →
    gen this G n a = Done (v, n', a') →
    shrunkNode a' = Some (Some q) →
    ∃ s m, q = this ++ s ∧ node_at s n' = Some m ∧ holds_proposal m.

(** The number of nodes of the tree below [n], [n] included. *)
Fixpoint nodes (n : RoseNode) : nat :=
  S (sum_list_with nodes (m_children n)).

(** A call of [gen] removes no node, and it leaves [ShrunkNode] dangling
    only if it found it so or appended a node. *)
Definition dangles_by_append (gen : Generate) : Prop :=
  ∀ this G n a v n' a',
    gen this G n a = Done (v, n', a') →
    (nodes n ≤ nodes n')%nat ∧
    (dangling a' = true → dangling a = true ∨ (nodes n < nodes n')%nat).

(** Outside a shrink pass, a call of [gen] does not make a dangling
    [ShrunkNode] good again. *)
Definition keeps_dangling (gen : Generate) : Prop :=
  ∀ this G n a v n' a',
    gen this G n a = Done (v, n', a') →
    shrinking a = false → dangling a = true → dangling a' = true.

(** * Properties *)

(** ** How the calls decompose *)

(** A vector that grows moves nodes; it changes neither the binding, nor
    the index, nor the random engine. *)
Lemma push_back_moves_shrunkNode this size a :
  shrunkNode (push_back_moves this size a) = shrunkNode a.
Proof.
  unfold push_back_moves. destruct (reallocates a size); [|done].
  destruct (shrunkNode a) as [[q|]|] eqn:E; [|done..].
  by destruct (decide _).
Qed.

Lemma push_back_moves_nextChildIndex this size a :
  nextChildIndex (push_back_moves this size a) = nextChildIndex a.
Proof.
  unfold push_back_moves. destruct (reallocates a size); [|done].
  destruct (shrunkNode a) as [[q|]|]; [|done..].
  by destruct (decide _).
Qed.

Lemma push_back_moves_randomEngine this size a :
  randomEngine (push_back_moves this size a) = randomEngine a.
Proof.
  unfold push_back_moves. destruct (reallocates a size); [|done].
  destruct (shrunkNode a) as [[q|]|]; [|done..].
  by destruct (decide _).
Qed.

Lemma push_back_moves_reallocates this size a :
  reallocates (push_back_moves this size a) = reallocates a.
Proof.
  unfold push_back_moves. destruct (reallocates a size); [|done].
  destruct (shrunkNode a) as [[q|]|]; [|done..].
  by destruct (decide _).
Qed.

(** Under a null binding, or none, there is no pointer to leave dangling. *)
Lemma push_back_moves_null this size a :
  (∀ q, shrunkNode a ≠ Some (Some q)) → push_back_moves this size a = a.
Proof.
  unfold push_back_moves. intros H. destruct (reallocates a size); [|done].
  destruct (shrunkNode a) as [[q|]|]; [|done..]. by destruct (H q).
Qed.

Lemma picked_ambient_shrunkNode this n a :
  shrunkNode (picked_ambient this n a) = shrunkNode a.
Proof.
  unfold picked_ambient. destruct (_ <=? _)%nat; [|done].
  apply push_back_moves_shrunkNode.
Qed.

Lemma picked_ambient_nextChildIndex this n a :
  nextChildIndex (picked_ambient this n a) = nextChildIndex a.
Proof.
  unfold picked_ambient. destruct (_ <=? _)%nat; [|done].
  apply push_back_moves_nextChildIndex.
Qed.

Lemma picked_ambient_randomEngine this n a :
  randomEngine (picked_ambient this n a) = randomEngine a.
Proof.
  unfold picked_ambient. destruct (_ <=? _)%nat; [|done].
  apply push_back_moves_randomEngine.
Qed.

Lemma picked_ambient_shrinking this n a :
  shrinking (picked_ambient this n a) = shrinking a.
Proof. unfold shrinking. by rewrite picked_ambient_shrunkNode. Qed.

Lemma picked_ambient_null this n a :
  (∀ q, shrunkNode a ≠ Some (Some q)) → picked_ambient this n a = a.
Proof.
  unfold picked_ambient. intros H. destruct (_ <=? _)%nat; [|done].
  by apply push_back_moves_null.
Qed.

(** No child is appended when the index is below the number of children. *)
Lemma picked_ambient_old this n a :
  (nextChildIndex a < length (m_children n))%nat →
  picked_ambient this n a = a.
Proof.
  unfold picked_ambient. intros H.
  by destruct (Nat.leb_spec (length (m_children n)) (nextChildIndex a));
    [lia|].
Qed.

Section Inversion.
Variable gen : Generate.

Lemma generate_unfold (depth : nat) :
  generate (S depth) = generate_body (generate depth).
Proof. reflexivity. Qed.

Lemma pick_Done this G n a v n' a' :
  pick gen this G n a = Done (v, n', a') →
  ∃ child child',
    picked_children this n (nextChildIndex a) !! nextChildIndex a
      = Some child ∧
    gen (this ++ [nextChildIndex a]) G child
        (set_nextChildIndex (picked_ambient this n a) (S (nextChildIndex a)))
      = Done (v, child', a') ∧
    n' = set_children n
           (<[nextChildIndex a := child']>
              (picked_children this n (nextChildIndex a))).
Proof.
  unfold pick, picked_children, picked_ambient. intros H.
  destruct (_ !! _) as [child|] eqn:Hc; [|discriminate].
  destruct (gen _ _ _ _) as [[[v0 c0] a0]| |] eqn:Hg; [|discriminate..].
  injection H as <- <- <-. eauto.
Qed.

Lemma regenerate_Done T this n a v n' a' :
  regenerate gen T this n a = Done (v, n', a') →
  ∃ g a1,
    activeGenerator n = Some g ∧ GeneratedType g = T ∧
    run gen this (produce g) n (set_nextChildIndex a 0)
      = Done (v, n', a1) ∧
    a' = set_nextChildIndex a1 (nextChildIndex a).
Proof.
  unfold regenerate. intros H.
  destruct (activeGenerator n) as [g|]; [|discriminate].
  destruct (decide _) as [HT|]; [|discriminate].
  destruct (run _ _ _ _ _) as [[[v0 n0] a0]| |] eqn:Hr; [|discriminate..].
  injection H as <- <- <-. eauto 10.
Qed.

Lemma propose_Done T this n a r :
  propose gen T this n a = Done r →
  ∃ T' it,
    m_shrinkIterator n = Some (T', it) ∧
    ((hasNext it = true ∧ T' = T ∧
      ∃ v it',
        next it = Some (v, it') ∧
        regenerate gen T this
          (set_shrunkGenerator (set_shrinkIterator n (Some (T', it')))
             (Some (Constant T v)))
          (set_shrunkNode a (Some (Some this))) = Done r) ∨
     (hasNext it = false ∧
      regenerate gen T this (set_shrunkGenerator n None) a = Done r)).
Proof.
  unfold propose. intros H.
  destruct (m_shrinkIterator n) as [[T' it]|]; [|discriminate].
  exists T', it. split; [reflexivity|].
  destruct (hasNext it); [|by right].
  destruct (decide _) as [HT|]; [|discriminate].
  destruct (next it) as [[v it']|]; [|discriminate].
  left. eauto 10.
Qed.

(** The three ways through [generate]: outside a shrink pass or after a
    node has proposed; on a node without an iterator whose regeneration
    makes a node below propose; on a node that goes on to its own
    iterator, initialised by this call or by an earlier one. *)
Lemma generate_body_Done this G n a r :
  generate_body gen this G n a = Done r →
  let T := GeneratedType G in
  let n0 := set_lastGenerator n (Some G) in
  (shrinking a = false ∧ regenerate gen T this n0 a = Done r) ∨
  (shrinking a = true ∧ m_shrinkIterator n = None ∧
   ∃ value n1 a1,
     regenerate gen T this n0 a = Done (value, n1, a1) ∧
     ((shrinking a1 = false ∧ r = (value, n1, a1)) ∨
      (shrinking a1 = true ∧
       let n2 := set_shrinkIterator n1 (Some (T, shrink_of G value)) in
       let n3 :=
         match m_acceptedGenerator n2 with
         | None => set_acceptedGenerator n2 (Some G)
         | Some _ => n2
         end in
       propose gen T this n3 a1 = Done r))) ∨
  (shrinking a = true ∧ m_shrinkIterator n ≠ None ∧
   propose gen T this n0 a = Done r).
Proof.
  intros H T n0. unfold generate_body in H.
  destruct (shrinking a); [|by left].
  change (m_shrinkIterator (set_lastGenerator n (Some G)))
    with (m_shrinkIterator n) in H.
  destruct (m_shrinkIterator n) as [it|] eqn:Hit.
  - right; right. done.
  - right; left. do 2 (split; [done|]).
    fold T n0 in H.
    destruct (regenerate gen T this n0 a) as [[[value n1] a1]| |];
      [|discriminate..].
    exists value, n1, a1. split; [done|].
    destruct (shrinking a1).
    + right. done.
    + left. split; [done|]. by injection H.
Qed.
End Inversion.


(** ** What a call leaves alone *)

Lemma same_slots_refl n : same_slots n n.
Proof. by repeat split. Qed.

Lemma same_slots_trans n1 n2 n3 :
  same_slots n1 n2 → same_slots n2 n3 → same_slots n1 n3.
Proof. unfold same_slots. intuition congruence. Qed.

Lemma same_slots_active n n' :
  same_slots n n' → activeGenerator n' = activeGenerator n.
Proof.
  intros (_ & Hl & Ha & Hs & _). unfold activeGenerator.
  by rewrite Hl, Ha, Hs.
Qed.

Lemma shrinking_true a : shrinking a = true ↔ shrunkNode a = Some None.
Proof.
  unfold shrinking. destruct (shrunkNode a) as [[?|]|]; intuition congruence.
Qed.

Lemma shrinking_false a : shrinking a = false ↔ shrunkNode a ≠ Some None.
Proof.
  unfold shrinking. destruct (shrunkNode a) as [[?|]|]; intuition congruence.
Qed.

Lemma atom_cached n re :
  m_hasAtom n = true → atom n re = (m_atom n, n, re).
Proof. intros H. unfold atom. by rewrite H. Qed.

Lemma atom_frame n re x n' re' :
  atom n re = (x, n', re') →
  same_slots n n' ∧ m_children n' = m_children n ∧
  m_hasAtom n' = true ∧ m_atom n' = x ∧
  (m_hasAtom n = true → n' = n ∧ re' = re ∧ x = m_atom n).
Proof.
  unfold atom. destruct (m_hasAtom n) eqn:Hh.
  - intros [= <- <- <-]. by repeat split.
  - destruct (nextAtom re) as [y re1]. intros [= <- <- <-].
    by repeat split.
Qed.

Section Frames.
Variable gen : Generate.

Lemma regenerate_index T this n a v n' a' :
  regenerate gen T this n a = Done (v, n', a') →
  nextChildIndex a' = nextChildIndex a.
Proof.
  intros (g & a1 & _ & _ & _ & ->)%regenerate_Done. reflexivity.
Qed.

Lemma propose_index T this n a v n' a' :
  propose gen T this n a = Done (v, n', a') →
  nextChildIndex a' = nextChildIndex a.
Proof.
  intros (T' & it & _ & [(_ & _ & w & it' & _ & H)|[_ H]])%propose_Done;
    by apply regenerate_index in H.
Qed.

Lemma generate_body_index : restores_index (generate_body gen).
Proof.
  intros this G n a v n' a' H. apply generate_body_Done in H. cbn zeta in H.
  destruct H as [[_ H]|[(_ & _ & value & n1 & a1 & H1 & H)|(_ & _ & H)]].
  - by apply regenerate_index in H.
  - apply regenerate_index in H1.
    destruct H as [[_ [= -> -> ->]]|[_ H]]; [done|].
    apply propose_index in H. congruence.
  - by apply propose_index in H.
Qed.

Lemma picked_children_lookup this n i j child :
  picked_children this n i !! i = Some child →
  (j < i)%nat →
  picked_children this n i !! j = m_children n !! j.
Proof.
  unfold picked_children. intros Hc Hj.
  destruct (Nat.leb_spec (length (m_children n)) i) as [Hle|]; [|done].
  apply lookup_lt_Some in Hc. rewrite length_app in Hc. cbn in Hc.
  apply lookup_app_l. lia.
Qed.

Hypothesis gen_index : restores_index gen.

(** Running the code of a generator on a node writes the children from
    the index on and the atom if there was none. *)
Lemma run_frame this p :
  ∀ n a v n' a',
    run gen this p n a = Done (v, n', a') →
    same_slots n n' ∧
    (m_hasAtom n = true → m_hasAtom n' = true ∧ m_atom n' = m_atom n) ∧
    (nextChildIndex a ≤ nextChildIndex a')%nat ∧
    (∀ j, (j < nextChildIndex a)%nat →
       m_children n' !! j = m_children n !! j).
Proof.
  induction p as [w|k IH|g k IH]; intros n a v n' a' H; cbn [run] in H.
  - injection H as <- <- <-. split; [apply same_slots_refl|]. done.
  - destruct (atom n (randomEngine a)) as [[x n1] re1] eqn:Ha.
    apply atom_frame in Ha as (Hs & Hch & Hh & Hx & Hc).
    apply IH in H as (Hs' & Hat & Hi & Hj). cbn in Hi, Hj.
    split; [by eapply same_slots_trans|].
    split; [|split; [done|]].
    + intros Hn. destruct (Hc Hn) as (-> & _ & _). by apply Hat.
    + intros j Hlt. rewrite Hj by done. by rewrite Hch.
  - destruct (pick gen this g n a) as [[[v1 n1] a1]| |] eqn:Hp;
      [|discriminate..].
    apply pick_Done in Hp as (child & child' & Hc & Hg & ->).
    apply gen_index in Hg. cbn in Hg.
    apply IH in H as (Hs' & Hat & Hi & Hj).
    split; [by eapply same_slots_trans|].
    split; [exact Hat|]. split; [lia|].
    intros j Hlt. rewrite Hj by lia. cbn.
    rewrite list_lookup_insert_ne by lia.
    by eapply picked_children_lookup.
Qed.

Lemma regenerate_frame T this n a v n' a' :
  regenerate gen T this n a = Done (v, n', a') →
  same_slots n n' ∧
  (m_hasAtom n = true → m_hasAtom n' = true ∧ m_atom n' = m_atom n).
Proof.
  intros (g & a1 & _ & _ & H & _)%regenerate_Done.
  apply run_frame in H. tauto.
Qed.

Hypothesis gen_proposes : proposes_within gen.

Lemma run_proposes this p :
  ∀ n a v n' a',
    run gen this p n a = Done (v, n', a') →
    proposal_below this (shrunkNode a) (shrunkNode a').
Proof.
  induction p as [w|k IH|g k IH]; intros n a v n' a' H; cbn [run] in H.
  - injection H as <- <- <-. unfold proposal_below.
    destruct (shrunkNode a) as [[?|]|]; auto.
  - destruct (atom n (randomEngine a)) as [[x n1] re1].
    by apply IH in H.
  - destruct (pick gen this g n a) as [[[v1 n1] a1]| |] eqn:Hp;
      [|discriminate..].
    apply pick_Done in Hp as (child & child' & Hc & Hg & ->).
    apply gen_proposes in Hg. cbn in Hg.
    rewrite picked_ambient_shrunkNode in Hg.
    apply IH in H. unfold proposal_from, proposal_below in *.
    destruct (shrunkNode a) as [[q|]|].
    + rewrite Hg in H. done.
    + destruct Hg as [Hg|[s Hg]]; rewrite Hg in H; [done|].
      right. exists (nextChildIndex a), s. rewrite H.
      by rewrite <- app_assoc.
    + rewrite Hg in H. done.
Qed.

Lemma regenerate_proposes T this n a v n' a' :
  regenerate gen T this n a = Done (v, n', a') →
  proposal_below this (shrunkNode a) (shrunkNode a').
Proof.
  intros (g & a1 & _ & _ & H & ->)%regenerate_Done.
  by apply run_proposes in H.
Qed.

Lemma proposal_below_from this b b' :
  proposal_below this b b' → proposal_from this b b'.
Proof.
  unfold proposal_below, proposal_from.
  destruct b as [[?|]|]; [done| |done].
  intros [?|(i & s & ->)]; eauto.
Qed.

Lemma propose_proposes T this n a v n' a' :
  shrunkNode a = Some None →
  propose gen T this n a = Done (v, n', a') →
  shrunkNode a' = Some None ∨ ∃ s, shrunkNode a' = Some (Some (this ++ s)).
Proof.
  intros Hnull
    (T' & it & _ & [(_ & _ & w & it' & _ & H)|[_ H]])%propose_Done;
    apply regenerate_proposes in H.
  - cbn in H. right. exists []. by rewrite app_nil_r.
  - apply proposal_below_from in H. unfold proposal_from in H.
    by rewrite Hnull in H.
Qed.

Lemma generate_body_proposes : proposes_within (generate_body gen).
Proof.
  intros this G n a v n' a' H. apply generate_body_Done in H. cbn zeta in H.
  destruct H as [[Hs H]|[(Hs & _ & value & n1 & a1 & H1 & H)|(Hs & _ & H)]].
  - apply regenerate_proposes in H. apply shrinking_false in Hs.
    unfold proposal_below in H. unfold proposal_from.
    by destruct (shrunkNode a) as [[?|]|].
  - apply shrinking_true in Hs. apply regenerate_proposes in H1.
    apply proposal_below_from in H1. unfold proposal_from in *.
    rewrite Hs in *.
    destruct H as [[_ [= -> -> ->]]|[Hs1 H]]; [done|].
    apply shrinking_true in Hs1. by apply propose_proposes in H.
  - apply shrinking_true in Hs. unfold proposal_from. rewrite Hs.
    by apply propose_proposes in H.
Qed.
End Frames.

(** ** Passes that propose nothing *)

Lemma set_lastGenerator_id n g :
  m_lastGenerator n = g → set_lastGenerator n g = n.
Proof. destruct n. cbn. by intros ->. Qed.

Lemma set_shrunkGenerator_id n g :
  m_shrunkGenerator n = g → set_shrunkGenerator n g = n.
Proof. destruct n. cbn. by intros ->. Qed.

Lemma set_children_id n ch : m_children n = ch → set_children n ch = n.
Proof. destruct n. cbn. by intros ->. Qed.

Lemma set_nextChildIndex_id a i :
  nextChildIndex a = i → set_nextChildIndex a i = a.
Proof. destruct a. cbn. by intros ->. Qed.

Lemma set_randomEngine_id a : set_randomEngine a (randomEngine a) = a.
Proof. by destruct a. Qed.

Lemma set_shrunkNode_id a b :
  shrunkNode a = b → dangling a = false → set_shrunkNode a b = a.
Proof. destruct a. cbn. by intros -> ->. Qed.

Section Settled.
Variable gen : Generate.
Hypothesis gen_index : restores_index gen.
Hypothesis gen_proposes : proposes_within gen.
Hypothesis gen_settles : settles gen.

Lemma run_settles this p :
  ∀ n a v n' a',
    shrunkNode a = Some None →
    run gen this p n a = Done (v, n', a') →
    shrunkNode a' = Some None →
    ∀ a2, shrunkNode a2 = Some None →
      nextChildIndex a2 = nextChildIndex a →
      run gen this p n' a2
        = Done (v, n', set_nextChildIndex a2 (nextChildIndex a')).
Proof.
  induction p as [w|k IH|g k IH];
    intros n a v n' a' Hnull H Hnull' a2 Hnull2 Hidx; cbn [run] in *.
  - injection H as <- <- <-. by rewrite set_nextChildIndex_id.
  - destruct (atom n (randomEngine a)) as [[x n1] re1] eqn:Ha.
    apply atom_frame in Ha as (_ & _ & Hh & Hx & _).
    pose proof (run_frame gen gen_index _ _ _ _ _ _ _ H) as (_ & Hat & _).
    destruct (Hat Hh) as [Hh' Hx'].
    rewrite (atom_cached n' _ Hh'), set_randomEngine_id.
    rewrite Hx', Hx.
    exact (IH x n1 (set_randomEngine a re1) v n' a' Hnull H Hnull' a2
             Hnull2 Hidx).
  - destruct (pick gen this g n a) as [[[v1 n1] a1]| |] eqn:Hp;
      [|discriminate..].
    apply pick_Done in Hp as (child & child' & Hc & Hg & ->).
    rewrite picked_ambient_null in Hg by (rewrite Hnull; done).
    set (i := nextChildIndex a) in *.
    pose proof (gen_index _ _ _ _ _ _ _ Hg) as Hi1. cbn in Hi1.
    (* no node proposed during the pick *)
    assert (shrunkNode a1 = Some None) as Hnull1.
    { pose proof (gen_proposes _ _ _ _ _ _ _ Hg) as Hb.
      pose proof (run_proposes gen gen_proposes _ _ _ _ _ _ _ H) as Hb'.
      cbn in Hb. unfold proposal_from, proposal_below in *.
      rewrite Hnull in Hb. destruct Hb as [Hb|[s Hb]]; [done|].
      rewrite Hb in Hb'. congruence. }
    (* the child is where the pick left it *)
    assert (m_children n' !! i = Some child') as Hi.
    { pose proof (run_frame gen gen_index _ _ _ _ _ _ _ H) as (_&_&_& Hj).
      rewrite Hj by lia. cbn.
      apply list_lookup_insert_eq. by eapply lookup_lt_Some. }
    unfold pick, picked_children. rewrite Hidx. fold i.
    pose proof (lookup_lt_Some _ _ _ Hi) as Hlt.
    destruct (Nat.leb_spec (length (m_children n')) i) as [?|_]; [lia|].
    rewrite Hi.
    rewrite (gen_settles (this ++ [i]) g child (set_nextChildIndex a (S i))
               v1 child' a1 Hnull Hg Hnull1
               (set_nextChildIndex a2 (S i)) Hnull2).
    rewrite list_insert_id by done.
    rewrite set_children_id by done.
    rewrite (IH v1 _ _ _ _ _ Hnull1 H Hnull' (set_nextChildIndex a2 (S i))
               Hnull2 (eq_sym Hi1)).
    reflexivity.
Qed.

Lemma regenerate_settles T this n a v n' a' :
  shrunkNode a = Some None →
  regenerate gen T this n a = Done (v, n', a') →
  shrunkNode a' = Some None →
  ∀ a2, shrunkNode a2 = Some None →
    regenerate gen T this n' a2 = Done (v, n', a2).
Proof.
  intros Hnull (g & a1 & Hg & HT & H & ->)%regenerate_Done Hnull' a2 Hnull2.
  pose proof (run_frame gen gen_index _ _ _ _ _ _ _ H) as (Hs & _).
  unfold regenerate. rewrite (same_slots_active _ _ Hs), Hg.
  rewrite decide_True by done.
  rewrite (run_settles this (produce g) n (set_nextChildIndex a 0) v n' a1
             Hnull H Hnull' (set_nextChildIndex a2 0) Hnull2 eq_refl).
  by destruct a2.
Qed.

(** A proposal step that leaves the binding null found the iterator
    exhausted. *)
Lemma propose_settles T this n a v n' a' :
  shrunkNode a = Some None →
  propose gen T this n a = Done (v, n', a') →
  shrunkNode a' = Some None →
  ∃ T' it,
    m_shrinkIterator n' = Some (T', it) ∧ hasNext it = false ∧
    m_shrunkGenerator n' = None ∧
    m_lastGenerator n' = m_lastGenerator n ∧
    ∀ a2, shrunkNode a2 = Some None →
      regenerate gen T this n' a2 = Done (v, n', a2).
Proof.
  intros Hnull
    (T' & it & Hit & [(_ & _ & w & it' & _ & H)|[Hn H]])%propose_Done
    Hnull'.
  - apply (regenerate_proposes gen gen_proposes) in H. cbn in H.
    congruence.
  - pose proof (regenerate_frame gen gen_index _ _ _ _ _ _ _ H)
      as ((_ & Hl & _ & Hs & Hi) & _).
    cbn in Hl, Hs, Hi.
    exists T', it. repeat split; [congruence|done|done|done|].
    intros a2 Hnull2.
    exact (regenerate_settles T this _ a v n' a' Hnull H Hnull' a2 Hnull2).
Qed.

Lemma generate_body_settled this G n a T' it :
  shrunkNode a = Some None →
  m_lastGenerator n = Some G →
  m_shrinkIterator n = Some (T', it) →
  hasNext it = false →
  m_shrunkGenerator n = None →
  generate_body gen this G n a = regenerate gen (GeneratedType G) this n a.
Proof.
  intros Hnull Hl Hit Hn Hs. unfold generate_body.
  rewrite (proj2 (shrinking_true a) Hnull).
  rewrite (set_lastGenerator_id n _ Hl), Hit.
  unfold propose. rewrite Hit, Hn.
  by rewrite (set_shrunkGenerator_id n _ Hs).
Qed.

Lemma generate_body_settles : settles (generate_body gen).
Proof.
  intros this G n a v n' a' Hnull H Hnull' a2 Hnull2.
  apply generate_body_Done in H. cbn zeta in H.
  destruct H as [[Hs H]|[(_ & _ & value & n1 & a1 & H1 & H)|(_ & _ & H)]].
  - apply shrinking_false in Hs. contradiction.
  - destruct H as [[Hs [= -> -> ->]]|[Hs H]].
    { apply shrinking_false in Hs. contradiction. }
    apply shrinking_true in Hs.
    apply (propose_settles _ _ _ _ _ _ _ Hs) in H
      as (T' & it & Hit & Hn & Hsh & Hl & Hre); [|done].
    rewrite (generate_body_settled this G n' a2 T' it); auto.
    rewrite Hl. destruct (m_acceptedGenerator _); cbn;
      apply regenerate_frame in H1 as ((_ & -> & _) & _); done.
  - apply (propose_settles _ _ _ _ _ _ _ Hnull) in H
      as (T' & it & Hit & Hn & Hsh & Hl & Hre); [|done].
    rewrite (generate_body_settled this G n' a2 T' it); auto.
Qed.
End Settled.

Lemma generate_index depth : restores_index (generate depth).
Proof.
  destruct depth as [|depth]; [by intros ? ? ? ? ? ? ? [=]|].
  apply generate_body_index.
Qed.

Lemma generate_proposes depth : proposes_within (generate depth).
Proof.
  induction depth as [|depth IH]; [by intros ? ? ? ? ? ? ? [=]|].
  by apply generate_body_proposes.
Qed.

Lemma generate_settles depth : settles (generate depth).
Proof.
  induction depth as [|depth IH]; [by intros ? ? ? ? ? ? ? ? [=]|].
  apply generate_body_settles;
    auto using generate_index, generate_proposes.
Qed.

(** ** More depth, more passes *)

Section Monotone.
Variables gen gen' : Generate.
Hypothesis gen_extends : extends gen gen'.

Lemma pick_extends this G n a r :
  pick gen this G n a = Done r → pick gen' this G n a = Done r.
Proof.
  destruct r as [[v n'] a'].
  intros (child & child' & Hc & Hg & ->)%pick_Done.
  unfold pick. unfold picked_children in Hc. rewrite Hc.
  unfold picked_ambient in Hg. by rewrite (gen_extends _ _ _ _ _ Hg).
Qed.

Lemma run_extends this p :
  ∀ n a r, run gen this p n a = Done r → run gen' this p n a = Done r.
Proof.
  induction p as [w|k IH|g k IH]; intros n a r H; cbn [run] in *.
  - done.
  - destruct (atom n (randomEngine a)) as [[x n1] re1]. by apply IH.
  - destruct (pick gen this g n a) as [[[v1 n1] a1]| |] eqn:Hp;
      [|discriminate..].
    rewrite (pick_extends _ _ _ _ _ Hp). by apply IH.
Qed.

Lemma regenerate_extends T this n a r :
  regenerate gen T this n a = Done r → regenerate gen' T this n a = Done r.
Proof.
  destruct r as [[v n'] a'].
  intros (g & a1 & Hg & HT & H & ->)%regenerate_Done.
  unfold regenerate. rewrite Hg, decide_True by done.
  by rewrite (run_extends _ _ _ _ _ H).
Qed.

Lemma propose_extends T this n a r :
  propose gen T this n a = Done r → propose gen' T this n a = Done r.
Proof.
  intros (T' & it & Hit & [(Hn & HT & w & it' & Hw & H)|[Hn H]])%propose_Done;
    unfold propose; rewrite Hit, Hn.
  - rewrite decide_True, Hw by done. by apply regenerate_extends.
  - by apply regenerate_extends.
Qed.

Lemma generate_body_extends :
  extends (generate_body gen) (generate_body gen').
Proof.
  intros this G n a r H. apply generate_body_Done in H. cbn zeta in H.
  unfold generate_body.
  change (m_shrinkIterator (set_lastGenerator n (Some G)))
    with (m_shrinkIterator n).
  destruct H as [[Hs H]|[(Hs & Hit & value & n1 & a1 & H1 & H)|(Hs & Hit & H)]];
    rewrite Hs.
  - by apply regenerate_extends.
  - rewrite Hit, (regenerate_extends _ _ _ _ _ H1).
    destruct H as [[Hs1 ->]|[Hs1 H]]; rewrite Hs1; [done|].
    by apply propose_extends.
  - destruct (m_shrinkIterator n); [|done]. by apply propose_extends.
Qed.
End Monotone.

Lemma generate_deeper depth depth' :
  (depth ≤ depth')%nat → extends (generate depth) (generate depth').
Proof.
  assert (∀ d, extends (generate d) (generate (S d))) as Hstep.
  { induction d as [|d IH]; [by intros ? ? ? ? ? [=]|].
    by apply generate_body_extends. }
  induction 1 as [|d' _ IH]; [by intros ? ? ? ? ?|].
  intros this G n a r H. by apply Hstep, IH.
Qed.

Lemma shrink_loop_more passes depth G :
  ∀ passes' depth' k n a r,
    (passes ≤ passes')%nat → (depth ≤ depth')%nat →
    shrink_loop passes depth G k n a = Done r →
    shrink_loop passes' depth' G k n a = Done r.
Proof.
  induction passes as [|passes IH]; intros passes' depth' k n a r Hp Hd H;
    [discriminate|].
  destruct passes' as [|passes']; [lia|]. cbn [shrink_loop] in *.
  destruct (generate depth [] G n (set_shrunkNode a (Some None)))
    as [[[v n1] a1]| |] eqn:Hg; [|discriminate..].
  rewrite (generate_deeper depth depth' Hd _ _ _ _ _ Hg).
  destruct (to_bool v) as [[|]|]; [|done..].
  destruct (shrunkNode a1) as [[q|]|]; [|done..].
  apply IH; [lia|done..].
Qed.

Lemma shrink_more passes depth passes' depth' G n a r :
  (passes ≤ passes')%nat → (depth ≤ depth')%nat →
  shrink passes depth G n a = Done r →
  shrink passes' depth' G n a = Done r.
Proof.
  intros Hp Hd. unfold shrink.
  destruct (shrink_loop passes depth G 0 n a) as [r1| |] eqn:H;
    [|discriminate..].
  by rewrite (shrink_loop_more _ _ _ _ _ _ _ _ _ Hp Hd H).
Qed.

(** ** The halving iterator *)

Lemma halvings_count_pos (v : Z) :
  0 < v → halvings_count v = S (halvings_count (v / 2)).
Proof.
  intros Hv. unfold halvings_count.
  destruct (Z.eqb_spec v 0) as [?|_]; [lia|].
  destruct (Z.eqb_spec (v / 2) 0) as [H0|Hn].
  - assert (v = 1) as -> by (apply Z.div_small_iff in H0; lia). reflexivity.
  - assert (2 ≤ v).
    { destruct (Z.lt_ge_cases v 2) as [Hlt|]; [|lia].
      exfalso. apply Hn, Z.div_small. lia. }
    assert (Z.log2 (v / 2) = Z.log2 v - 1) as ->.
    { change 2 with (2 ^ 1) at 1. rewrite <- Z.shiftr_div_pow2 by lia.
      rewrite Z.log2_shiftr by lia.
      assert (1 ≤ Z.log2 v) by (apply (Z.log2_le_mono 2 v); lia). lia. }
    assert (1 ≤ Z.log2 v) by (apply (Z.log2_le_mono 2 v); lia).
    f_equal. lia.
Qed.

Lemma halvings_pos (v : Z) :
  0 < v → halvings v = v / 2 :: halvings (v / 2).
Proof.
  intros Hv. unfold halvings. rewrite (halvings_count_pos v Hv).
  rewrite <- cons_seq, fmap_cons. apply (f_equal2 cons).
  - reflexivity.
  - rewrite <- fmap_S_seq, <- list_fmap_compose.
    apply list_fmap_ext. intros _ k _. cbn [compose].
    rewrite Z.div_div by lia. f_equal.
    rewrite Nat2Z.inj_succ, Z.pow_succ_r by lia. reflexivity.
Qed.

Lemma halvings_zero : halvings 0 = [].
Proof. reflexivity. Qed.

Lemma drain_DivideByTwoIterator (fuel : nat) :
  ∀ v, 0 ≤ v → (halvings_count v ≤ fuel)%nat →
    drain fuel (DivideByTwoIterator v) = Some (VInt <$> halvings v).
Proof.
  induction fuel as [|fuel IH]; intros v Hv Hf.
  - assert (v = 0) as ->.
    { unfold halvings_count in Hf. destruct (Z.eqb_spec v 0); [done|lia]. }
    reflexivity.
  - destruct (Z.eq_dec v 0) as [->|Hn]; [reflexivity|].
    assert (0 < v) as Hpos by lia.
    rewrite (halvings_count_pos v Hpos) in Hf.
    rewrite (halvings_pos v Hpos).
    cbn [drain hasNext next].
    destruct (Z.eqb_spec v 0) as [?|_]; [lia|]. cbn [negb].
    rewrite Z.quot_div_nonneg by lia.
    rewrite IH; [reflexivity| |lia].
    apply Z.div_pos; lia.
Qed.

Lemma halvings_last (v : Z) : 0 < v → last (halvings v) = Some 0.
Proof.
  intros Hv. unfold halvings, halvings_count.
  destruct (Z.eqb_spec v 0) as [?|_]; [lia|].
  rewrite seq_S, fmap_app, fmap_cons. cbn [fmap list_fmap].
  rewrite last_snoc. f_equal.
  apply Z.div_small. split; [lia|].
  replace (Z.of_nat (1 + Z.to_nat (Z.log2 v))) with (Z.succ (Z.log2 v)).
  - apply Z.log2_spec; lia.
  - pose proof (Z.log2_nonneg v). lia.
Qed.

(** C9.  For every non-negative [v], the halving iterator constructed on [v]
    yields exactly [v/2], [v/4], ..., ending with 0 (nothing when [v] is 0),
    whatever the number of calls allowed beyond the length of that sequence;
    and [hasNext] is false exactly when the current value is zero. *)
Theorem DivideByTwoIterator_sequence (v : Z) :
  0 ≤ v →
  (∀ fuel, (halvings_count v ≤ fuel)%nat →
     drain fuel (DivideByTwoIterator v) = Some (VInt <$> halvings v)) ∧
  (v = 0 → halvings v = []) ∧
  (0 < v → last (halvings v) = Some 0) ∧
  (∀ c, hasNext (DivideByTwoIterator c) = false ↔ c = 0).
Proof.
  intros Hv. repeat split.
  - intros fuel Hf. by apply drain_DivideByTwoIterator.
  - by intros ->.
  - apply halvings_last.
  - cbn. destruct (Z.eqb_spec c 0); [done|]. by intros.
  - intros ->. reflexivity.
Qed.

Lemma DivideByTwoIterator_sequence_witness :
  0 ≤ 100 ∧
  drain 7 (DivideByTwoIterator 100) =
    Some (VInt <$> [50; 25; 12; 6; 3; 1; 0]).
Proof.
  split; [lia|].
  exact (proj1 (DivideByTwoIterator_sequence 100 ltac:(lia)) 7%nat
           ltac:(vm_compute; lia)).
Defined.

(** ** The active generator *)

(** C5.  The active generator of a node is the shrunk generator if there is
    one, else the accepted generator if there is one, else the last
    generator, and it is null only when the three slots are empty; this is
    the generator that [regenerate], [stringValue] and [print] (through
    [description]) use. *)
Theorem activeGenerator_priority (n : RoseNode) :
  activeGenerator n =
    first_nonempty
      [m_shrunkGenerator n; m_acceptedGenerator n; m_lastGenerator n] ∧
  (activeGenerator n = None ↔
     m_shrunkGenerator n = None ∧ m_acceptedGenerator n = None ∧
     m_lastGenerator n = None) ∧
  (∀ gen this a,
     match activeGenerator n with
     | None =>
         (∀ T, regenerate gen T this n a = Fault) ∧
         stringValue gen this n a = Done (EmptyString, n, a) ∧
         description n = EmptyString
     | Some g =>
         regenerate gen (GeneratedType g) this n a =
           match run gen this (produce g) n (set_nextChildIndex a 0) with
           | Done (v, n', a') =>
               Done (v, n', set_nextChildIndex a' (nextChildIndex a))
           | Fault => Fault
           | Diverge => Diverge
           end ∧
         stringValue gen this n a =
           match run gen this (produce g) n (set_nextChildIndex a 0) with
           | Done (v, n', a') =>
               Done (show v, n', set_nextChildIndex a' (nextChildIndex a))
           | Fault => Fault
           | Diverge => Diverge
           end ∧
         description n = className g
     end).
Proof.
  unfold first_nonempty, description, generatorName, regenerate, stringValue,
    activeGenerator.
  destruct (m_shrunkGenerator n) as [gs|], (m_acceptedGenerator n) as [ga|],
    (m_lastGenerator n) as [gl|]; cbn;
    (split; [reflexivity|]); (split; [intuition congruence|]);
    intros gen this a;
    rewrite ?decide_True by reflexivity; auto.
Qed.

Lemma activeGenerator_priority_witness :
  let n := mkRoseNode None [] false 0%N (Some (Constant "int" (VInt 1)))
             (Some (Constant "int" (VInt 2))) None None in
  activeGenerator n = Some (Constant "int" (VInt 2)) ∧
  description n = "rc::Constant<int>"%string.
Proof.
  intros n. split.
  - exact (proj1 (activeGenerator_priority n)).
  - exact (proj2 (proj2 (proj2 (proj2 (activeGenerator_priority n))
             (λ _ _ _ _, Diverge) [] Scenario.ambient0))).
Defined.

(** ** Accepting without a proposal *)

(** C10.  [acceptShrink] on a node whose shrunk slot is empty changes
    nothing: the node is the same after the call, accepted slot and shrink
    iterator included. *)
Theorem acceptShrink_without_proposal (n : RoseNode) :
  m_shrunkGenerator n = None → acceptShrink n = n.
Proof. intros H. unfold acceptShrink. by rewrite H. Qed.

Lemma acceptShrink_without_proposal_witness :
  let n := mkRoseNode None [] true 7%N (Some (Scenario.halving 5))
             (Some (Constant "int" (VInt 2))) None
             (Some ("int"%string, DivideByTwoIterator 2)) in
  m_shrunkGenerator n = None ∧ acceptShrink n = n.
Proof.
  intros n. split; [reflexivity|].
  apply (acceptShrink_without_proposal n). reflexivity.
Defined.

(** ** Shrinking again after exhaustion *)

(** The pass on which [shrink] gave up: it ran under a null binding and left
    it null. *)
Lemma shrink_loop_exhausted passes depth G :
  ∀ numTries n a tries n' a',
    shrink_loop passes depth G numTries n a = Done (false, tries, n', a') →
    ∃ n0 a0 v,
      shrunkNode a0 = Some None ∧
      generate depth [] G n0 a0 = Done (v, n', a') ∧
      is_Some (to_bool v) ∧
      shrunkNode a' = Some None.
Proof.
  induction passes as [|passes IH]; intros numTries n a tries n' a' H;
    [discriminate|].
  cbn [shrink_loop] in H.
  destruct (generate depth [] G n (set_shrunkNode a (Some None)))
    as [[[v n1] a1]| |] eqn:Hg; [|discriminate..].
  destruct (to_bool v) as [result|] eqn:Hb; [|discriminate].
  pose proof (generate_proposes depth _ _ _ _ _ _ _ Hg) as Hp. cbn in Hp.
  destruct Hp as [Hp|[s Hp]]; rewrite Hp in H.
  - injection H as _ <- <-.
    exists n, (set_shrunkNode a (Some None)), v. by rewrite Hb.
  - destruct result; [by eapply IH|].
    destruct (dangling a1); [discriminate|].
    destruct (update_at _ _ _); discriminate.
Qed.

(** C8.  When [shrink(g)] has returned (false, n), [shrink(g)] called again
    on the tree it left returns (false, 1) and leaves the tree and the
    random engine exactly as they were: no accepted value, shrink iterator,
    atom or child changes. *)
Theorem shrink_idempotent_on_exhaustion passes depth G n a tries n' a' :
  shrink passes depth G n a = Done (false, tries, n', a') →
  shrink passes depth G n' a' = Done (false, 1, n', a').
Proof.
  unfold shrink. intros H.
  destruct (shrink_loop passes depth G 0 n a)
    as [[[[success t] n1] a1]| |] eqn:Hl; [|discriminate..].
  injection H as -> -> -> <-.
  destruct passes as [|passes]; [discriminate|].
  apply shrink_loop_exhausted in Hl as (n0 & a0 & v & Hnull & Hg & [r Hb] & Hn).
  cbn [shrink_loop].
  rewrite (generate_settles depth _ _ _ _ _ _ _ Hnull Hg Hn
             (set_shrunkNode (restore_shrunkNode a1 a) (Some None))
             eq_refl).
  rewrite Hb. cbn. reflexivity.
Qed.

Lemma shrink_idempotent_on_exhaustion_witness :
  shrink 5 2 Scenario.s4 Scenario.s4_tree Scenario.ambient0
    = Done (false, 1, Scenario.s4_exhausted, Scenario.ambient0) ∧
  shrink 5 2 Scenario.s4 Scenario.s4_exhausted Scenario.ambient0
    = Done (false, 1, Scenario.s4_exhausted, Scenario.ambient0).
Proof.
  assert (shrink 5 2 Scenario.s4 Scenario.s4_tree Scenario.ambient0
            = Done (false, 1, Scenario.s4_exhausted, Scenario.ambient0))
    as H by (vm_compute; reflexivity).
  split; [exact H|].
  exact (shrink_idempotent_on_exhaustion _ _ _ _ _ _ _ _ H).
Defined.

(** ** What [shrink] searches for *)

Lemma shrink_loop_sound passes depth G :
  ∀ k n a res,
    shrink_loop passes depth G k n a = Done res →
    shrink_search depth G k n a res.
Proof.
  induction passes as [|passes IH]; intros k n a res H; [discriminate|].
  cbn [shrink_loop] in H.
  destruct (generate depth [] G n (set_shrunkNode a (Some None)))
    as [[[v n1] a1]| |] eqn:Hg; [|discriminate..].
  destruct (to_bool v) as [result|] eqn:Hb; [|discriminate].
  pose proof (generate_proposes depth _ _ _ _ _ _ _ Hg) as Hp. cbn in Hp.
  destruct Hp as [Hp|[s Hp]]; rewrite Hp in H.
  - injection H as <-. by eapply search_exhausted.
  - destruct result.
    + eapply search_rejected; eauto.
    + destruct (dangling a1) eqn:Hd; [discriminate|].
      destruct (update_at _ _ _) as [n2|] eqn:Hu; [|discriminate].
      injection H as <-. by eapply search_accepted.
Qed.

Lemma shrink_loop_complete depth G k n a res :
  shrink_search depth G k n a res →
  ∃ passes, shrink_loop passes depth G k n a = Done res.
Proof.
  induction 1 as [k n a v result n' a' Hg Hb Hn
                 |k n a v n' a' p n'' Hg Hb Hp Hd Hu
                 |k n a v n' a' p res Hg Hb Hp _ [passes IH]].
  - exists 1%nat. cbn [shrink_loop]. by rewrite Hg, Hb, Hn.
  - exists 1%nat. cbn [shrink_loop]. by rewrite Hg, Hb, Hp, Hd, Hu.
  - exists (S passes). cbn [shrink_loop]. by rewrite Hg, Hb, Hp.
Qed.

Lemma shrink_search_tries depth G k n a success tries n' a' :
  shrink_search depth G k n a (success, tries, n', a') → k < tries.
Proof.
  intros H. remember (success, tries, n', a') as res eqn:E.
  induction H as [| |? ? ? ? ? ? ? ? _ _ _ _ IH];
    [injection E as _ <- _ _; lia..|].
  specialize (IH E). lia.
Qed.

(** ** The scenarios *)

(** The trees [s1_tree] and [s4_tree] are those the first run of the
    property leaves. *)
Example first_runs :
  Scenario.first_run Scenario.s1
    = Done (VBool true, Scenario.s1_tree, Scenario.ambient0) ∧
  Scenario.first_run Scenario.s4
    = Done (VBool true, Scenario.s4_tree, Scenario.ambient0).
Proof. split; vm_compute; reflexivity. Qed.

(** C2, as the code has it.  On S1 (argument 100 shrunk by halving,
    predicate "value >= 10") [shrink] returns success with 4 tries; the
    candidates 50, 25 and 12 make the property return true and are passed
    over, 6 is the first that makes it return false and is the value
    accepted: afterwards the argument regenerates as 6 and the property at
    the root as false.  The same holds on a root that was never generated
    on. *)
Theorem s1_shrinks_to_six passes depth :
  (4 ≤ passes)%nat → (2 ≤ depth)%nat →
  shrink passes depth Scenario.s1 Scenario.s1_tree Scenario.ambient0
    = Done (true, 4, Scenario.s1_accepted 6, Scenario.ambient0) ∧
  shrink passes depth Scenario.s1 (RoseNode_new None) Scenario.ambient0
    = Done (true, 4, Scenario.s1_accepted 6, Scenario.ambient0) ∧
  Scenario.argument_value (Scenario.halving 100) (Scenario.s1_accepted 6)
    = Done (VInt 6) ∧
  generate depth [] Scenario.s1 (Scenario.s1_accepted 6) Scenario.ambient0
    = Done (VBool false, Scenario.s1_accepted 6, Scenario.ambient0).
Proof.
  intros Hp Hd. split; [|split; [|split]].
  - apply (shrink_more 4 2 passes depth _ _ _ _ Hp Hd).
    vm_compute. reflexivity.
  - apply (shrink_more 4 2 passes depth _ _ _ _ Hp Hd).
    vm_compute. reflexivity.
  - vm_compute. reflexivity.
  - apply (generate_deeper 2 depth Hd). vm_compute. reflexivity.
Qed.

Lemma s1_shrinks_to_six_witness :
  shrink 4 2 Scenario.s1 Scenario.s1_tree Scenario.ambient0
    = Done (true, 4, Scenario.s1_accepted 6, Scenario.ambient0).
Proof.
  exact (proj1 (s1_shrinks_to_six 4 2 ltac:(lia) ltac:(lia))).
Defined.

(** C2, as stated, fails: the value accepted on S1 is 6, not 12. *)
Lemma s1_does_not_accept_twelve :
  ¬ ∃ n' a',
      shrink 10 2 Scenario.s1 Scenario.s1_tree Scenario.ambient0
        = Done (true, 4, n', a') ∧
      (Scenario.argument_value (Scenario.halving 100) n' = Done (VInt 12) ∨
       ∃ n'' a'', generate 2 [] Scenario.s1 n' a' = Done (VInt 12, n'', a'')).
Proof.
  intros (n' & a' & H & Hv).
  assert (shrink 10 2 Scenario.s1 Scenario.s1_tree Scenario.ambient0
            = Done (true, 4, Scenario.s1_accepted 6, Scenario.ambient0))
    as E by (vm_compute; reflexivity).
  rewrite E in H. injection H as <- <-.
  destruct Hv as [Hv|(n'' & a'' & Hv)]; vm_compute in Hv; discriminate.
Qed.

(** With the predicate-as-generator returning the negation, "value < 10",
    the first candidate, 50, makes it return false: [shrink] accepts 50 and
    returns after one try. *)
Lemma s1_negated_accepts_fifty :
  shrink 10 2
    (Scenario.property (Scenario.halving 100)
       (λ x, negb (Scenario.at_least 10 x)))
    (RoseNode_new None) Scenario.ambient0
  = Done (true, 1,
          Scenario.tree
            (Scenario.property (Scenario.halving 100)
               (λ x, negb (Scenario.at_least 10 x)))
            (Scenario.halving 100) None None
            (Some (Constant "int" (VInt 50))) None,
          Scenario.ambient0).
Proof. vm_compute. reflexivity. Qed.

(** C3, as the code has it.  On S4 (argument 0, property always true)
    [shrink] returns (false, 1).  The pass initialises the shrink iterator of
    the root and of the argument's node, both exhausted at once, and
    snapshots their generators into the accepted slots; nothing else
    changes: same children, no atom drawn, shrunk slots empty, last
    generators and random engine as before. *)
Theorem s4_exhausted_at_once passes depth :
  (1 ≤ passes)%nat → (2 ≤ depth)%nat →
  shrink passes depth Scenario.s4 Scenario.s4_tree Scenario.ambient0
    = Done (false, 1, Scenario.s4_exhausted, Scenario.ambient0) ∧
  Scenario.s4_exhausted =
    Scenario.tree Scenario.s4 (Scenario.halving 0)
      (Some Scenario.s4) (Some ("bool"%string, NullIterator))
      (Some (Scenario.halving 0))
      (Some ("int"%string, DivideByTwoIterator 0)) ∧
  Scenario.s4_tree =
    Scenario.tree Scenario.s4 (Scenario.halving 0) None None None None ∧
  Scenario.argument_value (Scenario.halving 0) Scenario.s4_tree
    = Done (VInt 0) ∧
  Scenario.argument_value (Scenario.halving 0) Scenario.s4_exhausted
    = Done (VInt 0).
Proof.
  intros Hp Hd. split; [|split; [|split; [|split]]].
  - apply (shrink_more 1 2 passes depth _ _ _ _ Hp Hd).
    vm_compute. reflexivity.
  - reflexivity.
  - reflexivity.
  - vm_compute. reflexivity.
  - vm_compute. reflexivity.
Qed.

Lemma s4_exhausted_at_once_witness :
  shrink 1 2 Scenario.s4 Scenario.s4_tree Scenario.ambient0
    = Done (false, 1, Scenario.s4_exhausted, Scenario.ambient0).
Proof.
  exact (proj1 (s4_exhausted_at_once 1 2 ltac:(lia) ltac:(lia))).
Defined.

(** C3, as stated, fails: the call writes accepted slots and shrink
    iterators. *)
Lemma s4_shrink_writes_slots :
  ∃ n' a',
    shrink 5 2 Scenario.s4 Scenario.s4_tree Scenario.ambient0
      = Done (false, 1, n', a') ∧
    m_acceptedGenerator Scenario.s4_tree = None ∧
    m_acceptedGenerator n' = Some Scenario.s4 ∧
    m_shrinkIterator Scenario.s4_tree = None ∧
    m_shrinkIterator n' = Some ("bool"%string, NullIterator) ∧
    (m_shrinkIterator <$> m_children Scenario.s4_tree !! 0%nat)
      = Some None ∧
    (m_shrinkIterator <$> m_children n' !! 0%nat)
      = Some (Some ("int"%string, DivideByTwoIterator 0)) ∧
    n' ≠ Scenario.s4_tree.
Proof.
  eexists _, _. split; [vm_compute; reflexivity|].
  repeat split; try reflexivity. discriminate.
Qed.

(** ** Atoms *)

Lemma atom_at_ext p n n' :
  m_children n' = m_children n → m_hasAtom n' = m_hasAtom n →
  m_atom n' = m_atom n → atom_at p n' = atom_at p n.
Proof.
  intros Hc Hh Ha. unfold atom_at, cached_atom.
  destruct p as [|i p]; cbn; by rewrite ?Hc, ?Hh, ?Ha.
Qed.

Lemma atom_at_children p n ch x :
  atom_at p n = Some x →
  (∀ i q c, p = i :: q → m_children n !! i = Some c →
     atom_at q c = Some x →
     ∃ c', ch !! i = Some c' ∧ atom_at q c' = Some x) →
  atom_at p (set_children n ch) = Some x.
Proof.
  destruct p as [|i q]; [done|]. intros Hx Hch.
  assert (∃ c, m_children n !! i = Some c ∧ atom_at q c = Some x)
    as (c & Hc & Hq).
  { unfold atom_at in Hx |- *. cbn in Hx.
    destruct (m_children n !! i) as [c|]; [eauto|done]. }
  destruct (Hch i q c eq_refl Hc Hq) as (c' & Hc' & Hx').
  unfold atom_at in Hx' |- *. cbn. by rewrite Hc'.
Qed.

Lemma picked_children_old this n i j c :
  m_children n !! j = Some c → picked_children this n i !! j = Some c.
Proof.
  intros Hc. unfold picked_children.
  destruct (_ <=? _)%nat; [|done]. by apply lookup_app_l_Some.
Qed.

Section Atoms.
Variable gen : Generate.
Hypothesis gen_atoms : keeps_atoms gen.

Lemma run_keeps_atoms this prog :
  ∀ n a v n' a',
    run gen this prog n a = Done (v, n', a') →
    ∀ p x, atom_at p n = Some x → atom_at p n' = Some x.
Proof.
  induction prog as [w|k IH|g k IH]; intros n a v n' a' H p x Hx;
    cbn [run] in H.
  - by injection H as <- <- <-.
  - destruct (atom n (randomEngine a)) as [[y n1] re1] eqn:Ha.
    eapply IH; [exact H|].
    unfold atom in Ha. destruct (m_hasAtom n) eqn:Hh.
    + by injection Ha as <- <- <-.
    + destruct (nextAtom _) as [z re2]. injection Ha as <- <- <-.
      destruct p as [|i q]; [|exact Hx].
      unfold atom_at, cached_atom in Hx. cbn in Hx. by rewrite Hh in Hx.
  - destruct (pick gen this g n a) as [[[v1 n1] a1]| |] eqn:Hp;
      [|discriminate..].
    apply pick_Done in Hp as (child & child' & Hc & Hg & ->).
    eapply IH; [exact H|].
    apply atom_at_children; [exact Hx|].
    intros i q c -> Hi Hq.
    pose proof (picked_children_old this n (nextChildIndex a) i c Hi) as Hi'.
    destruct (decide (i = nextChildIndex a)) as [->|Hne].
    + exists child'. split.
      * apply list_lookup_insert_eq. by eapply lookup_lt_Some.
      * eapply gen_atoms; [exact Hg|]. congruence.
    + exists c. by rewrite list_lookup_insert_ne.
Qed.

Lemma regenerate_keeps_atoms T this n a v n' a' :
  regenerate gen T this n a = Done (v, n', a') →
  ∀ p x, atom_at p n = Some x → atom_at p n' = Some x.
Proof.
  intros (g & a1 & _ & _ & H & _)%regenerate_Done.
  by eapply run_keeps_atoms.
Qed.

Lemma propose_keeps_atoms T this n a v n' a' :
  propose gen T this n a = Done (v, n', a') →
  ∀ p x, atom_at p n = Some x → atom_at p n' = Some x.
Proof.
  intros (T' & it & _ & [(_ & _ & w & it' & _ & H)|[_ H]])%propose_Done
    p x Hx;
    (eapply regenerate_keeps_atoms; [exact H|]);
    by rewrite <- Hx; apply atom_at_ext.
Qed.

Lemma generate_body_keeps_atoms : keeps_atoms (generate_body gen).
Proof.
  intros this G n a v n' a' H p x Hx.
  apply generate_body_Done in H. cbn zeta in H.
  assert (atom_at p (set_lastGenerator n (Some G)) = Some x) as Hx0
    by (by rewrite <- Hx; apply atom_at_ext).
  destruct H as [[_ H]|[(_ & _ & value & n1 & a1 & H1 & H)|(_ & _ & H)]].
  - by eapply regenerate_keeps_atoms.
  - pose proof (regenerate_keeps_atoms _ _ _ _ _ _ _ H1 p x Hx0) as Hx1.
    destruct H as [[_ [= -> -> ->]]|[_ H]]; [done|].
    eapply propose_keeps_atoms; [exact H|].
    rewrite <- Hx1. destruct (m_acceptedGenerator _); by apply atom_at_ext.
  - by eapply propose_keeps_atoms.
Qed.
End Atoms.

Lemma generate_keeps_atoms depth : keeps_atoms (generate depth).
Proof.
  induction depth as [|depth IH]; [by intros ? ? ? ? ? ? ? [=]|].
  by apply generate_body_keeps_atoms.
Qed.

Lemma acceptShrink_keeps_atoms q :
  ∀ n n' p x,
    update_at acceptShrink q n = Some n' →
    atom_at p n = Some x → atom_at p n' = Some x.
Proof.
  induction q as [|i q IH]; intros n n' p x H Hx; cbn in H.
  - injection H as <-. rewrite <- Hx. apply atom_at_ext; unfold acceptShrink;
      by destruct (m_shrunkGenerator n).
  - destruct (m_children n !! i) as [c|] eqn:Hc; [|discriminate].
    destruct (update_at acceptShrink q c) as [c'|] eqn:Hu; [|discriminate].
    injection H as <-. apply atom_at_children; [exact Hx|].
    intros j r d -> Hj Hr. destruct (decide (j = i)) as [->|Hne].
    + exists c'. split.
      * apply list_lookup_insert_eq. by eapply lookup_lt_Some.
      * eapply IH; [exact Hu|]. congruence.
    + exists d. by rewrite list_lookup_insert_ne.
Qed.

Lemma shrink_loop_keeps_atoms passes depth G :
  ∀ k n a r n' a' p x,
    shrink_loop passes depth G k n a = Done (r, n', a') →
    atom_at p n = Some x → atom_at p n' = Some x.
Proof.
  induction passes as [|passes IH]; intros k n a r n' a' p x H Hx;
    [discriminate|].
  cbn [shrink_loop] in H.
  destruct (generate depth [] G n (set_shrunkNode a (Some None)))
    as [[[v n1] a1]| |] eqn:Hg; [|discriminate..].
  apply (generate_keeps_atoms depth _ _ _ _ _ _ _ Hg p x) in Hx.
  destruct (to_bool v) as [result|]; [|discriminate].
  destruct (shrunkNode a1) as [[q|]|]; [|by injection H as <- <- <-..].
  destruct result; [by eapply IH|].
  destruct (dangling a1) eqn:Hd; [discriminate|].
  destruct (update_at acceptShrink q n1) as [n2|] eqn:Hu; [|discriminate].
  injection H as <- <- <-. by eapply acceptShrink_keeps_atoms.
Qed.

(** C6.  Once [atom()] has been called on a node, the node has an atom, and
    every later call of [atom()] on it returns that atom and leaves the
    random engine untouched; and an atom that a node of the tree has is
    still the atom of that node after any call of [generate] or [shrink] on
    the tree, hence after any number of them. *)
Theorem atom_is_stable :
  (∀ n re x n' re',
     atom n re = (x, n', re') →
     cached_atom n' = Some x ∧ ∀ re2, atom n' re2 = (x, n', re2)) ∧
  (∀ m x, cached_atom m = Some x → ∀ re, atom m re = (x, m, re)) ∧
  (∀ depth this G n a v n' a' p x,
     generate depth this G n a = Done (v, n', a') →
     atom_at p n = Some x → atom_at p n' = Some x) ∧
  (∀ passes depth G n a r n' a' p x,
     shrink passes depth G n a = Done (r, n', a') →
     atom_at p n = Some x → atom_at p n' = Some x).
Proof.
  assert (∀ m x, cached_atom m = Some x → ∀ re, atom m re = (x, m, re))
    as Hc.
  { intros m x Hm re. unfold cached_atom in Hm. unfold atom.
    destruct (m_hasAtom m); [|done]. by injection Hm as <-. }
  repeat split.
  - apply atom_frame in H as (_ & _ & Hh & Hx & _).
    unfold cached_atom. by rewrite Hh, Hx.
  - apply Hc. apply atom_frame in H as (_ & _ & Hh & Hx & _).
    unfold cached_atom. by rewrite Hh, Hx.
  - exact Hc.
  - intros depth this G n a v n' a' p x H. by eapply generate_keeps_atoms.
  - intros passes depth G n a r n' a' p x H. unfold shrink in H.
    destruct (shrink_loop passes depth G 0 n a)
      as [[[r1 n1] a1]| |] eqn:Hl; [|discriminate..].
    destruct r1 as [s t]. injection H as _ <- _.
    by eapply shrink_loop_keeps_atoms.
Qed.

Lemma atom_is_stable_witness :
  atom_at [0%nat] Scenario.atomic_tree = Some 40%N ∧
  ∃ r n' a',
    shrink 10 2 Scenario.atomic Scenario.atomic_tree Scenario.atomic_ambient
      = Done (r, n', a') ∧
    atom_at [0%nat] n' = Some 40%N.
Proof.
  split; [vm_compute; reflexivity|].
  destruct (shrink 10 2 Scenario.atomic Scenario.atomic_tree
              Scenario.atomic_ambient) as [[[r n'] a']| |] eqn:H;
    [|vm_compute in H; discriminate..].
  exists r, n', a'. split; [reflexivity|].
  apply (proj2 (proj2 (proj2 atom_is_stable)) _ _ _ _ _ _ _ _ [0%nat] 40%N H).
  vm_compute. reflexivity.
Defined.

(** ** Children *)

Section Children.
Variable gen : Generate.
Hypothesis gen_index : restores_index gen.

Lemma pick_children this G n a v n' a' :
  pick gen this G n a = Done (v, n', a') →
  let k := nextChildIndex a in
  nextChildIndex a' = S k ∧
  (k ≤ length (m_children n))%nat ∧
  length (m_children n') = (length (m_children n) `max` S k)%nat ∧
  (∀ j, j ≠ k → m_children n' !! j = m_children n !! j) ∧
  same_slots n n'.
Proof.
  intros (child & child' & Hc & Hg & ->)%pick_Done k. subst k.
  apply gen_index in Hg. cbn in Hg. cbn [m_children set_children].
  rewrite length_insert. apply lookup_lt_Some in Hc.
  unfold picked_children in *.
  destruct (Nat.leb_spec (length (m_children n)) (nextChildIndex a))
    as [Hle|Hlt].
  - rewrite length_app in Hc |- *. cbn [length] in Hc |- *.
    split; [done|]. split; [lia|]. split; [lia|].
    split; [|by repeat split].
    intros j Hj. rewrite list_lookup_insert_ne by done.
    destruct (decide (j < length (m_children n))%nat).
    + by apply lookup_app_l.
    + rewrite !lookup_ge_None_2; [done|lia|].
      rewrite length_app. cbn [length]. lia.
  - split; [done|]. split; [lia|]. split; [lia|].
    split; [|by repeat split].
    intros j Hj. by rewrite list_lookup_insert_ne.
Qed.

Lemma run_children this p :
  ∀ n a v n' a',
    run gen this p n a = Done (v, n', a') →
    (nextChildIndex a ≤ length (m_children n))%nat →
    length (m_children n')
      = (length (m_children n) `max` nextChildIndex a')%nat ∧
    (∀ j, (j < nextChildIndex a ∨ nextChildIndex a' ≤ j)%nat →
       m_children n' !! j = m_children n !! j) ∧
    picked_indices gen this p n a
      = seq (nextChildIndex a) (nextChildIndex a' - nextChildIndex a).
Proof.
  induction p as [w|k IH|g k IH]; intros n a v n' a' H Hle;
    cbn [run picked_indices] in *.
  - injection H as <- <- <-. rewrite Nat.sub_diag.
    split; [lia|]. by split.
  - destruct (atom n (randomEngine a)) as [[x n1] re1] eqn:Ha.
    apply atom_frame in Ha as (_ & Hch & _).
    apply IH in H; cbn; rewrite ?Hch; [|done].
    cbn in H. by rewrite Hch in H.
  - destruct (pick gen this g n a) as [[[v1 n1] a1]| |] eqn:Hp;
      [|discriminate..].
    apply pick_children in Hp as (Hi & Hk & Hlen & Hj & _).
    pose proof (run_frame gen gen_index _ _ _ _ _ _ _ H) as (_&_& Hmono &_).
    apply IH in H as (Hlen' & Hj' & Htr); [|lia].
    repeat split.
    + lia.
    + intros j Hjj. rewrite Hj' by lia. apply Hj. lia.
    + rewrite Htr, Hi.
      replace (nextChildIndex a' - nextChildIndex a)%nat
        with (S (nextChildIndex a' - S (nextChildIndex a))) by lia.
      reflexivity.
Qed.
End Children.

(** ** Descendants first *)

(** C4.  In a shrink pass (the [ShrunkNode] binding is null when [generate]
    is entered), when the regeneration of the node's value makes a node
    below propose, [generate] returns the regenerated value at once and in
    the state the regeneration left: the node's shrink iterator is neither
    initialised nor advanced, its accepted and shrunk slots are not written,
    and the proposal is that of a proper descendant.  This holds where
    [generate] regenerates before it looks at its own iterator (no iterator
    yet) and where it regenerates after it found its iterator exhausted.
    And a node without iterator proposes itself only after a regeneration in
    which no node below proposed; a node whose iterator has a candidate left
    proposes before it regenerates, and no node below proposes then. *)
Theorem descendant_proposal_has_priority depth this G n a :
  shrunkNode a = Some None →
  let T := GeneratedType G in
  let n0 := set_lastGenerator n (Some G) in
  (∀ v n1 a1,
     m_shrinkIterator n = None →
     regenerate (generate depth) T this n0 a = Done (v, n1, a1) →
     shrunkNode a1 ≠ Some None →
     generate (S depth) this G n a = Done (v, n1, a1) ∧
     m_shrinkIterator n1 = None ∧
     m_acceptedGenerator n1 = m_acceptedGenerator n ∧
     m_shrunkGenerator n1 = m_shrunkGenerator n ∧
     ∃ i s, shrunkNode a1 = Some (Some (this ++ i :: s))) ∧
  (∀ T' it v n1 a1,
     m_shrinkIterator n = Some (T', it) →
     hasNext it = false →
     regenerate (generate depth) T this (set_shrunkGenerator n0 None) a
       = Done (v, n1, a1) →
     shrunkNode a1 ≠ Some None →
     generate (S depth) this G n a = Done (v, n1, a1) ∧
     m_shrinkIterator n1 = Some (T', it) ∧
     m_acceptedGenerator n1 = m_acceptedGenerator n ∧
     m_shrunkGenerator n1 = None ∧
     ∃ i s, shrunkNode a1 = Some (Some (this ++ i :: s))) ∧
  (∀ v n' a',
     m_shrinkIterator n = None →
     generate (S depth) this G n a = Done (v, n', a') →
     shrunkNode a' = Some (Some this) →
     ∃ value n1 a1,
       regenerate (generate depth) T this n0 a = Done (value, n1, a1) ∧
       shrunkNode a1 = Some None) ∧
  (∀ T' it v n' a',
     m_shrinkIterator n = Some (T', it) →
     hasNext it = true →
     generate (S depth) this G n a = Done (v, n', a') →
     shrunkNode a' = Some (Some this)).
Proof.
  intros Hnull T n0.
  assert (∀ m v n1 a1,
            regenerate (generate depth) T this m a = Done (v, n1, a1) →
            shrunkNode a1 ≠ Some None →
            same_slots m n1 ∧
            ∃ i s, shrunkNode a1 = Some (Some (this ++ i :: s))) as Hre.
  { intros m v n1 a1 H Hn.
    pose proof (regenerate_frame _ (generate_index depth) _ _ _ _ _ _ _ H)
      as [Hs _].
    apply (regenerate_proposes _ (generate_proposes depth)) in H.
    unfold proposal_below in H. rewrite Hnull in H.
    by destruct H as [?|?]. }
  repeat apply conj.
  - intros v n1 a1 Hit H Hn.
    destruct (Hre _ _ _ _ H Hn) as ((_ & _ & Ha & Hs & Hi) & Hp).
    cbn in Ha, Hs, Hi. repeat split; [|congruence|done|done|done].
    rewrite generate_unfold. unfold generate_body.
    rewrite (proj2 (shrinking_true a) Hnull).
    change (m_shrinkIterator (set_lastGenerator n (Some G)))
      with (m_shrinkIterator n).
    rewrite Hit. fold T n0. rewrite H.
    by rewrite (proj2 (shrinking_false a1) Hn).
  - intros T' it v n1 a1 Hit Hex H Hn.
    destruct (Hre _ _ _ _ H Hn) as ((_ & _ & Ha & Hs & Hi) & Hp).
    cbn in Ha, Hs, Hi. repeat split; [|congruence|done|done|done].
    rewrite generate_unfold. unfold generate_body.
    rewrite (proj2 (shrinking_true a) Hnull).
    change (m_shrinkIterator (set_lastGenerator n (Some G)))
      with (m_shrinkIterator n).
    rewrite Hit. fold T n0. unfold propose.
    change (m_shrinkIterator n0) with (m_shrinkIterator n).
    by rewrite Hit, Hex.
  - intros v n' a' Hit H Hown. rewrite generate_unfold in H.
    apply generate_body_Done in H. cbn zeta in H. fold T n0 in H.
    destruct H as [[Hs _]|[(_ & _ & value & n1 & a1 & H1 & H)|(_ & Hne & _)]].
    + apply shrinking_false in Hs. contradiction.
    + exists value, n1, a1. split; [done|].
      destruct H as [[Hs [= -> -> ->]]|[Hs _]]; [|by apply shrinking_true].
      apply shrinking_false in Hs.
      destruct (Hre _ _ _ _ H1 Hs) as (_ & i & s & Hp).
      rewrite Hp in Hown. injection Hown as Hown.
      rewrite <- (app_nil_r this) in Hown at 2.
      by apply app_inv_head in Hown.
    + contradiction.
  - intros T' it v n' a' Hit Hnext H. rewrite generate_unfold in H.
    apply generate_body_Done in H. cbn zeta in H. fold T n0 in H.
    destruct H as [[Hs _]|[(_ & Hno & _)|(_ & _ & H)]].
    + apply shrinking_false in Hs. contradiction.
    + congruence.
    + apply propose_Done in H
        as (T'' & it' & Hit' & [(_ & _ & w & it'' & _ & H)|[Hex _]]).
      * apply (regenerate_proposes _ (generate_proposes depth)) in H.
        exact H.
      * change (m_shrinkIterator n0) with (m_shrinkIterator n) in Hit'.
        congruence.
Qed.

Lemma descendant_proposal_has_priority_witness :
  ∃ v n1 a1,
    generate 2 [] Scenario.s1 Scenario.s1_tree
        (set_shrunkNode Scenario.ambient0 (Some None)) = Done (v, n1, a1) ∧
    m_shrinkIterator n1 = None ∧
    shrunkNode a1 = Some (Some [0%nat]).
Proof.
  pose (a := set_shrunkNode Scenario.ambient0 (Some None)).
  destruct (regenerate (generate 1) (GeneratedType Scenario.s1) []
              (set_lastGenerator Scenario.s1_tree (Some Scenario.s1)) a)
    as [[[v n1] a1]| |] eqn:H; [|vm_compute in H; discriminate..].
  assert (shrunkNode a1 = Some (Some [0%nat])) as Hp.
  { vm_compute in H. by injection H as _ _ <-. }
  destruct (proj1 (descendant_proposal_has_priority 1 [] Scenario.s1
                     Scenario.s1_tree a eq_refl) v n1 a1 eq_refl H)
    as (Hg & Hit & _); [by rewrite Hp|].
  exists v, n1, a1. by repeat split.
Defined.

(** * Further properties *)

(** ** The shrink iterators *)

Lemma signed_halvings_step (v : Z) :
  v ≠ 0 → signed_halvings v = Z.quot v 2 :: signed_halvings (Z.quot v 2).
Proof.
  intros Hv. unfold signed_halvings.
  rewrite (halvings_count_pos (Z.abs v)) by lia.
  replace (Z.abs v / 2) with (Z.abs (Z.quot v 2)).
  2:{ rewrite <- Z.quot_abs by lia. apply Z.quot_div_nonneg; lia. }
  rewrite <- cons_seq, fmap_cons. apply (f_equal2 cons).
  - by rewrite Z.pow_1_r.
  - rewrite <- fmap_S_seq, <- list_fmap_compose.
    apply list_fmap_ext. intros _ k _. cbn [compose].
    rewrite Z.quot_quot by lia. f_equal.
    rewrite Nat2Z.inj_succ, Z.pow_succ_r by lia. reflexivity.
Qed.

(** X1.  The halving iterator on any integer, negative or not, ends: it yields
    the quotients of [v] by 2, 4, ... rounded towards zero, the last of which
    is 0, and nothing when [v] is 0. *)
Theorem DivideByTwoIterator_signed (fuel : nat) :
  ∀ v, (halvings_count (Z.abs v) ≤ fuel)%nat →
    drain fuel (DivideByTwoIterator v) = Some (VInt <$> signed_halvings v) ∧
    (v ≠ 0 → last (signed_halvings v) = Some 0).
Proof.
  induction fuel as [|fuel IH]; intros v Hf.
  - assert (v = 0) as ->.
    { unfold halvings_count in Hf.
      destruct (Z.eqb_spec (Z.abs v) 0); lia. }
    by split.
  - destruct (Z.eq_dec v 0) as [->|Hn]; [by split|].
    rewrite (signed_halvings_step v Hn).
    rewrite (halvings_count_pos (Z.abs v)) in Hf by lia.
    assert (Z.abs v / 2 = Z.abs (Z.quot v 2)) as E.
    { rewrite <- Z.quot_abs by lia. symmetry. apply Z.quot_div_nonneg; lia. }
    rewrite E in Hf. destruct (IH (Z.quot v 2)) as [Hd Hl]; [lia|].
    split.
    + cbn [drain hasNext next].
      destruct (Z.eqb_spec v 0) as [?|_]; [lia|]. cbn [negb].
      by rewrite Hd.
    + intros _. destruct (Z.eq_dec (Z.quot v 2) 0) as [E0|Hq].
      * rewrite E0. reflexivity.
      * rewrite last_cons, (Hl Hq). reflexivity.
Qed.

Lemma DivideByTwoIterator_signed_witness :
  drain 3 (DivideByTwoIterator (-7)) = Some (VInt <$> [-3; -1; 0]).
Proof.
  exact (proj1 (DivideByTwoIterator_signed 3 (-7) ltac:(vm_compute; lia))).
Defined.

Lemma drain_RemoveElementIterator (fuel : nat) :
  ∀ skip coll,
    (skip ≤ length coll)%nat → (length coll - skip ≤ fuel)%nat →
    drain fuel (RemoveElementIterator skip coll)
      = Some (removals skip coll).
Proof.
  induction fuel as [|fuel IH]; intros skip coll Hs Hf.
  - assert (skip = length coll) as -> by lia.
    unfold removals. rewrite Nat.sub_diag. cbn [drain hasNext].
    by rewrite Nat.eqb_refl.
  - cbn [drain hasNext]. unfold removals.
    destruct (Nat.eqb_spec skip (length coll)) as [->|Hne]; cbn [negb].
    + by rewrite Nat.sub_diag.
    + cbn [next]. rewrite IH by lia.
      replace (length coll - skip)%nat with (S (length coll - S skip)) by lia.
      cbn [seq fmap list_fmap option_fmap option_map].
      by rewrite delete_take_drop.
Qed.

(** X2.  The remove-one iterator on a collection of [n] elements yields [n]
    candidates, the [i]-th being the collection without its element at
    [i], each one element shorter; on an empty collection it yields none. *)
Theorem RemoveElementIterator_sequence (coll : list Value) :
  (∀ fuel, (length coll ≤ fuel)%nat →
     drain fuel (RemoveElementIterator 0 coll)
       = Some ((λ i, VList (delete i coll)) <$> seq 0 (length coll))) ∧
  (∀ i, (i < length coll)%nat →
     length (delete i coll) = (length coll - 1)%nat) ∧
  hasNext (RemoveElementIterator 0 []) = false.
Proof.
  repeat apply conj; [|intros i Hi|reflexivity].
  - intros fuel Hf. rewrite drain_RemoveElementIterator by lia.
    unfold removals. by rewrite Nat.sub_0_r.
  - apply length_delete. by apply lookup_lt_is_Some.
Qed.

Lemma RemoveElementIterator_sequence_witness :
  drain 3 (RemoveElementIterator 0 [VInt 1; VInt 2; VInt 3])
    = Some [VList [VInt 2; VInt 3]; VList [VInt 1; VInt 3];
            VList [VInt 1; VInt 2]].
Proof.
  exact (proj1 (RemoveElementIterator_sequence [VInt 1; VInt 2; VInt 3])
           3%nat ltac:(vm_compute; lia)).
Defined.

(** X3.  [unfold] with the predicate "not zero" and the halving step yields the
    candidates of the halving iterator, call for call. *)
Theorem unfold_halving (fuel : nat) (v : Z) :
  drain fuel (UnfoldIterator (VInt v) halve_predicate halve_step)
    = drain fuel (DivideByTwoIterator v).
Proof.
  revert v. induction fuel as [|fuel IH]; intros v; cbn [drain hasNext]; cbn.
  - reflexivity.
  - destruct (v =? 0); cbn; [reflexivity|]. by rewrite IH.
Qed.

(** ** Accepting a shrink *)

(** What [acceptShrink] does to each field of a node. *)
Lemma acceptShrink_effect (n : RoseNode) :
  activeGenerator (acceptShrink n) = activeGenerator n ∧
  m_shrunkGenerator (acceptShrink n) = None ∧
  (∀ g, m_shrunkGenerator n = Some g →
     m_acceptedGenerator (acceptShrink n) = Some g ∧
     m_shrinkIterator (acceptShrink n) = None) ∧
  acceptShrink (acceptShrink n) = acceptShrink n ∧
  m_children (acceptShrink n) = m_children n ∧
  cached_atom (acceptShrink n) = cached_atom n ∧
  m_lastGenerator (acceptShrink n) = m_lastGenerator n ∧
  m_parent (acceptShrink n) = m_parent n.
Proof.
  unfold acceptShrink, activeGenerator, cached_atom.
  destruct (m_shrunkGenerator n) as [g|] eqn:Hs; cbn; rewrite ?Hs;
    repeat split; done.
Qed.

(** X4.  [acceptShrink] never changes the generator a node is regenerated with:
    the shrunk generator, when there is one, becomes the accepted one and
    stays the active one.  It empties the shrunk slot, clears the iterator
    when it accepts, touches no other field, and a second call changes
    nothing. *)
Theorem acceptShrink_keeps_active (n : RoseNode) :
  activeGenerator (acceptShrink n) = activeGenerator n ∧
  m_shrunkGenerator (acceptShrink n) = None ∧
  (∀ g, m_shrunkGenerator n = Some g →
     m_acceptedGenerator (acceptShrink n) = Some g ∧
     m_shrinkIterator (acceptShrink n) = None) ∧
  acceptShrink (acceptShrink n) = acceptShrink n ∧
  m_children (acceptShrink n) = m_children n ∧
  cached_atom (acceptShrink n) = cached_atom n ∧
  m_lastGenerator (acceptShrink n) = m_lastGenerator n ∧
  m_parent (acceptShrink n) = m_parent n.
Proof. apply acceptShrink_effect. Qed.

Lemma acceptShrink_keeps_active_witness :
  let n := mkRoseNode None [] false 0%N (Some (Scenario.halving 8))
             (Some (Scenario.halving 8)) (Some (Constant "int" (VInt 4)))
             (Some ("int"%string, DivideByTwoIterator 4)) in
  m_acceptedGenerator (acceptShrink n) = Some (Constant "int" (VInt 4)) ∧
  m_shrinkIterator (acceptShrink n) = None.
Proof.
  intros n.
  exact (proj1 (proj2 (proj2 (acceptShrink_keeps_active n))) _ eq_refl).
Defined.

Lemma acceptShrink_slots_only : slots_only acceptShrink.
Proof.
  unfold slots_only, acceptShrink. repeat split;
    intros; cbn; by destruct (m_shrunkGenerator n).
Qed.

(** ** Proposing the next candidate *)

(** X5.  In a shrink pass, a node whose iterator has a candidate left proposes
    it: [generate] advances the iterator by one candidate, installs the
    candidate as a constant in the shrunk slot, binds [ShrunkNode] to the
    node and returns the candidate, without running the generator it was
    given.  When the iterator was made for another type, the call faults. *)
Theorem generate_proposes_next_candidate depth this G n a T' it c it' :
  shrunkNode a = Some None →
  m_shrinkIterator n = Some (T', it) →
  hasNext it = true →
  next it = Some (c, it') →
  (T' = GeneratedType G →
   generate (S depth) this G n a
     = Done (c,
             set_shrunkGenerator
               (set_shrinkIterator (set_lastGenerator n (Some G))
                  (Some (T', it')))
               (Some (Constant (GeneratedType G) c)),
             set_shrunkNode a (Some (Some this)))) ∧
  (T' ≠ GeneratedType G → generate (S depth) this G n a = Fault).
Proof.
  intros Hnull Hit Hn Hc.
  rewrite generate_unfold. unfold generate_body.
  rewrite (proj2 (shrinking_true a) Hnull).
  change (m_shrinkIterator (set_lastGenerator n (Some G)))
    with (m_shrinkIterator n).
  rewrite Hit. unfold propose.
  change (m_shrinkIterator (set_lastGenerator n (Some G)))
    with (m_shrinkIterator n).
  rewrite Hit, Hn. split; intros HT.
  - rewrite decide_True, Hc by done. unfold regenerate, activeGenerator.
    cbn. rewrite decide_True by done. by destruct a.
  - by rewrite decide_False.
Qed.

Lemma generate_proposes_next_candidate_witness :
  let n := mkRoseNode None [] false 0%N (Some (Scenario.halving 8))
             (Some (Scenario.halving 8)) None
             (Some ("int"%string, DivideByTwoIterator 8)) in
  ∃ n' a',
    generate 1 [] (Scenario.halving 8) n
      (set_shrunkNode Scenario.ambient0 (Some None)) = Done (VInt 4, n', a').
Proof.
  intros n. eexists _, _.
  exact (proj1 (generate_proposes_next_candidate 0 [] (Scenario.halving 8) n
                  (set_shrunkNode Scenario.ambient0 (Some None))
                  "int" (DivideByTwoIterator 8) (VInt 4)
                  (DivideByTwoIterator 4) eq_refl eq_refl eq_refl eq_refl)
           eq_refl).
Defined.

(** ** Generators of another type *)

(** X6.  A node on which a generator of one type was accepted cannot be given a
    generator of another type: [generate] faults, in a shrink pass or not,
    whenever the accepted generator, the shrunk generator if any and the
    iterator if any are of a type other than that of the generator given.
    When nothing is accepted or proposed, a generator of any type is
    run, whatever generator was given before. *)
Theorem generate_type_mismatch depth this G n a :
  (∀ g,
     m_acceptedGenerator n = Some g →
     GeneratedType g ≠ GeneratedType G →
     (∀ g', m_shrunkGenerator n = Some g' →
        GeneratedType g' ≠ GeneratedType G) →
     (∀ T' it, m_shrinkIterator n = Some (T', it) → T' ≠ GeneratedType G) →
     generate (S depth) this G n a = Fault) ∧
  (m_acceptedGenerator n = None → m_shrunkGenerator n = None →
   shrinking a = false →
   generate (S depth) this G n a
     = match run (generate depth) this (produce G)
               (set_lastGenerator n (Some G)) (set_nextChildIndex a 0) with
       | Done (v, n', a') =>
           Done (v, n', set_nextChildIndex a' (nextChildIndex a))
       | Fault => Fault
       | Diverge => Diverge
       end).
Proof.
  split.
  - intros g Ha HT Hs Hi.
    assert (∀ b, regenerate (generate depth) (GeneratedType G) this
                   (set_lastGenerator n (Some G)) b = Fault) as Hre.
    { intros b. unfold regenerate, activeGenerator. cbn. rewrite Ha.
      destruct (m_shrunkGenerator n) as [g'|] eqn:Hs'.
      - by rewrite decide_False by by apply Hs.
      - by rewrite decide_False. }
    rewrite generate_unfold. unfold generate_body.
    change (m_shrinkIterator (set_lastGenerator n (Some G)))
      with (m_shrinkIterator n).
    destruct (shrinking a); [|apply Hre].
    destruct (m_shrinkIterator n) as [[T' it]|] eqn:Hit; [|by rewrite Hre].
    unfold propose.
    change (m_shrinkIterator (set_lastGenerator n (Some G)))
      with (m_shrinkIterator n).
    rewrite Hit. destruct (hasNext it).
    + rewrite decide_False; [done|]. by eapply Hi.
    + unfold regenerate, activeGenerator. cbn. rewrite Ha.
      by rewrite decide_False.
  - intros Ha Hs Hq. rewrite generate_unfold. unfold generate_body.
    rewrite Hq. unfold regenerate, activeGenerator. cbn.
    rewrite Ha, Hs. by rewrite decide_True.
Qed.

Lemma generate_type_mismatch_witness :
  let n := mkRoseNode None [] false 0%N (Some (Scenario.halving 8))
             (Some (Scenario.halving 8)) None None in
  generate 1 [] Scenario.s4 n Scenario.ambient0 = Fault.
Proof.
  intros n.
  apply (proj1 (generate_type_mismatch 0 [] Scenario.s4 n Scenario.ambient0)
           (Scenario.halving 8) eq_refl).
  - discriminate.
  - intros g' H. discriminate H.
  - intros T' it H. discriminate H.
Defined.

(** ** Regenerating what was generated *)

Lemma shrinking_false_stays this b a a' :
  shrinking a = false → shrunkNode a = b →
  proposal_from this b (shrunkNode a') → shrinking a' = false.
Proof.
  intros Hs <- Hp. apply shrinking_false in Hs. apply shrinking_false.
  unfold proposal_from in Hp. destruct (shrunkNode a) as [[?|]|]; congruence.
Qed.

(** Whatever way [generate] takes, the value it returns is that of a
    regeneration of the node, on which the generator given is the last
    one. *)
Lemma generate_body_last_regenerate gen this G n a v n' a' :
  generate_body gen this G n a = Done (v, n', a') →
  restores_index gen →
  ∃ m am,
    regenerate gen (GeneratedType G) this m am = Done (v, n', a') ∧
    m_lastGenerator m = Some G.
Proof.
  intros H Hidx. apply generate_body_Done in H. cbn zeta in H.
  destruct H as [[_ H]|[(_ & _ & value & n1 & a1 & H1 & H)|(_ & _ & H)]].
  - eauto.
  - destruct H as [[_ [= -> -> ->]]|[_ H]]; [eauto|].
    apply (regenerate_frame gen Hidx) in H1 as ((_ & Hl & _) & _).
    cbn in Hl.
    apply propose_Done in H
      as (T' & it & _ & [(_ & _ & w & it' & _ & H)|[_ H]]);
      eexists _, _; (split; [exact H|]); cbn;
      by destruct (m_acceptedGenerator n1).
  - apply propose_Done in H
      as (T' & it & _ & [(_ & _ & w & it' & _ & H)|[_ H]]);
      eexists _, _; (split; [exact H|]); done.
Qed.

Section Replay.
Variable gen : Generate.
Hypothesis gen_index : restores_index gen.
Hypothesis gen_replays : replays gen.

Lemma run_replays this p :
  ∀ n a v n' a',
    run gen this p n a = Done (v, n', a') →
    ∀ a2, shrinking a2 = false →
      nextChildIndex a2 = nextChildIndex a →
      run gen this p n' a2
        = Done (v, n', set_nextChildIndex a2 (nextChildIndex a')).
Proof.
  induction p as [w|k IH|g k IH]; intros n a v n' a' H a2 Hq Hidx;
    cbn [run] in *.
  - injection H as <- <- <-. by rewrite set_nextChildIndex_id.
  - destruct (atom n (randomEngine a)) as [[x n1] re1] eqn:Ha.
    apply atom_frame in Ha as (_ & _ & Hh & Hx & _).
    pose proof (run_frame gen gen_index _ _ _ _ _ _ _ H) as (_ & Hat & _).
    destruct (Hat Hh) as [Hh' Hx'].
    rewrite (atom_cached n' _ Hh'), set_randomEngine_id.
    rewrite Hx', Hx.
    exact (IH x n1 (set_randomEngine a re1) v n' a' H a2 Hq Hidx).
  - destruct (pick gen this g n a) as [[[v1 n1] a1]| |] eqn:Hp;
      [|discriminate..].
    apply pick_Done in Hp as (child & child' & Hc & Hg & ->).
    set (i := nextChildIndex a) in *.
    pose proof (gen_index _ _ _ _ _ _ _ Hg) as Hi1. cbn in Hi1.
    assert (m_children n' !! i = Some child') as Hi.
    { pose proof (run_frame gen gen_index _ _ _ _ _ _ _ H) as (_&_&_& Hj).
      rewrite Hj by lia. cbn.
      apply list_lookup_insert_eq. by eapply lookup_lt_Some. }
    unfold pick. rewrite Hidx. fold i.
    pose proof (lookup_lt_Some _ _ _ Hi) as Hlt.
    destruct (Nat.leb_spec (length (m_children n')) i) as [?|_]; [lia|].
    rewrite Hi.
    rewrite (gen_replays (this ++ [i]) g child _
               v1 child' a1 Hg (set_nextChildIndex a2 (S i)) Hq).
    rewrite list_insert_id by done.
    rewrite set_children_id by done.
    rewrite (IH v1 _ _ _ _ _ H (set_nextChildIndex a2 (S i)) Hq
               (eq_sym Hi1)).
    reflexivity.
Qed.

Lemma regenerate_replays T this n a v n' a' :
  regenerate gen T this n a = Done (v, n', a') →
  ∀ a2, shrinking a2 = false →
    regenerate gen T this n' a2 = Done (v, n', a2).
Proof.
  intros (g & a1 & Hg & HT & H & ->)%regenerate_Done a2 Hq.
  pose proof (run_frame gen gen_index _ _ _ _ _ _ _ H) as (Hs & _).
  unfold regenerate. rewrite (same_slots_active _ _ Hs), Hg.
  rewrite decide_True by done.
  rewrite (run_replays this (produce g) n (set_nextChildIndex a 0) v n' a1
             H (set_nextChildIndex a2 0) Hq eq_refl).
  by destruct a2.
Qed.

Lemma generate_body_replays : replays (generate_body gen).
Proof.
  intros this G n a v n' a' H a2 Hq.
  apply generate_body_last_regenerate in H as (m & am & H & Hl); [|done].
  pose proof (regenerate_frame gen gen_index _ _ _ _ _ _ _ H)
    as ((_ & Hl' & _) & _).
  unfold generate_body. rewrite Hq.
  rewrite set_lastGenerator_id by congruence.
  by eapply regenerate_replays.
Qed.

(** What [stringValue] returns on a node is the rendering of the value
    that the last [generate] on the node returned. *)
Lemma stringValue_replays this G n a v n' a' :
  generate_body gen this G n a = Done (v, n', a') →
  ∀ a2, shrinking a2 = false →
    stringValue gen this n' a2 = Done (show v, n', a2).
Proof.
  intros H a2 Hq.
  apply generate_body_last_regenerate in H as (m & am & H & Hl); [|done].
  apply regenerate_Done in H as (g & a1 & Hg & HT & H & ->).
  pose proof (run_frame gen gen_index _ _ _ _ _ _ _ H) as (Hs & _).
  unfold stringValue. rewrite (same_slots_active _ _ Hs), Hg.
  rewrite (run_replays this (produce g) m (set_nextChildIndex am 0) v n' a1
             H (set_nextChildIndex a2 0) Hq eq_refl).
  by destruct a2.
Qed.
End Replay.

Lemma generate_replays depth : replays (generate depth).
Proof.
  induction depth as [|depth IH]; [by intros ? ? ? ? ? ? ? [=]|].
  apply generate_body_replays; auto using generate_index.
Qed.


(** ** Picks are routed by index *)



(** The two picks of a pair go to the children 0 and 1, which the first
    regeneration appends and the second finds. *)
Example pair_picks :
  picked_indices (generate 1) [] (produce Scenario.pair) Scenario.pair_root
    (set_nextChildIndex Scenario.ambient0 0) = [0; 1]%nat ∧
  ∃ v n' a',
    regenerate (generate 1) "pair" [] Scenario.pair_root Scenario.ambient0
      = Done (v, n', a') ∧
    v = VPair (VInt 8) (VInt 4) ∧
    length (m_children n') = 2%nat ∧
    picked_indices (generate 1) [] (produce Scenario.pair) n'
      (set_nextChildIndex Scenario.ambient0 0) = [0; 1]%nat ∧
    regenerate (generate 1) "pair" [] n' Scenario.ambient0
      = Done (v, n', a').
Proof.
  split; [vm_compute; reflexivity|].
  eexists _, _, _. split; [vm_compute; reflexivity|].
  split; [reflexivity|]. split; [reflexivity|].
  split; vm_compute; reflexivity.
Qed.

(** ** Generating again *)

(** X7.  After any call of [generate] on a node, in a shrink pass or not, the
    same call outside a shrink pass returns the same value and leaves the
    node, its whole subtree and the random engine as they are. *)
Theorem generate_again_same_value depth this G n a v n' a' :
  generate depth this G n a = Done (v, n', a') →
  ∀ a2, shrinking a2 = false →
    generate depth this G n' a2 = Done (v, n', a2).
Proof. apply generate_replays. Qed.

Lemma generate_again_same_value_witness :
  ∃ v n' a',
    generate 2 [] Scenario.atomic (RoseNode_new None)
      (mkAmbient 0 None false Scenario.doubling Scenario.engine40)
      = Done (v, n', a') ∧
    generate 2 [] Scenario.atomic n' Scenario.ambient0
      = Done (v, n', Scenario.ambient0).
Proof.
  destruct (generate 2 [] Scenario.atomic (RoseNode_new None)
              (mkAmbient 0 None false Scenario.doubling Scenario.engine40))
    as [[[v n'] a']| |] eqn:H; [|vm_compute in H; discriminate..].
  exists v, n', a'. split; [reflexivity|].
  exact (generate_again_same_value 2 [] Scenario.atomic _ _ v n' a' H
           Scenario.ambient0 eq_refl).
Defined.

(** X8.  After a call of [generate] on a node, [stringValue] on it, outside a
    shrink pass, is the rendering of the value that call returned, and
    writes nothing. *)
Theorem stringValue_after_generate depth this G n a v n' a' :
  generate (S depth) this G n a = Done (v, n', a') →
  ∀ a2, shrinking a2 = false →
    stringValue (generate depth) this n' a2 = Done (show v, n', a2).
Proof.
  intros H. eapply stringValue_replays;
    eauto using generate_index, generate_replays.
Qed.

Lemma stringValue_after_generate_witness :
  ∃ n' a',
    generate 2 [] Scenario.pair (RoseNode_new None) Scenario.ambient0
      = Done (VPair (VInt 8) (VInt 4), n', a') ∧
    stringValue (generate 1) [] n' Scenario.ambient0
      = Done ("(8, 4)"%string, n', Scenario.ambient0).
Proof.
  destruct (generate 2 [] Scenario.pair (RoseNode_new None)
              Scenario.ambient0) as [[[v n'] a']| |] eqn:H;
    [|vm_compute in H; discriminate..].
  assert (v = VPair (VInt 8) (VInt 4)) as ->
    by (vm_compute in H; by injection H as <- _ _).
  exists n', a'. split; [reflexivity|].
  exact (stringValue_after_generate 1 [] Scenario.pair _ _ _ n' a' H
           Scenario.ambient0 eq_refl).
Defined.

(** ** The accepted shrink reproduces the failure *)

(** The code of a generator reads nothing of the node but its children
    and its atom. *)
Lemma run_slots_only gen this f p :
  slots_only f →
  ∀ n a,
    run gen this p (f n) a
      = match run gen this p n a with
        | Done (v, n', a') => Done (v, f n', a')
        | Fault => Fault
        | Diverge => Diverge
        end.
Proof.
  intros (Hch & Hat & Hf).
  induction p as [w|k IH|g k IH]; intros n a; cbn [run].
  - reflexivity.
  - destruct (Hf n) as (_ & Hh & Hx). unfold atom. rewrite Hh, Hx.
    destruct (m_hasAtom n); [apply IH|].
    destruct (nextAtom _) as [x re']. rewrite <- Hat. apply IH.
  - destruct (Hf n) as (Hc & _). unfold pick. rewrite Hc.
    destruct (_ !! _) as [child|]; [|done].
    destruct (gen _ _ _ _) as [[[v1 c1] a1]| |]; [|done..].
    rewrite <- Hch. apply IH.
Qed.

Section Accepted.
Variable gen : Generate.
Hypothesis gen_index : restores_index gen.
Hypothesis gen_proposes : proposes_within gen.
Hypothesis gen_unmoved : unmoved_by_accept gen.

(** A pick that is part of a run which leaves the node as it found it
    leaves it so itself: it appends nothing and finds the child as it
    leaves it. *)
Lemma pick_in_fixed_run this g k n a v1 n1 a1 v a' :
  pick gen this g n a = Done (v1, n1, a1) →
  run gen this (k v1) n1 a1 = Done (v, n, a') →
  n1 = n ∧
  ∃ child,
    m_children n !! nextChildIndex a = Some child ∧
    gen (this ++ [nextChildIndex a]) g child
        (set_nextChildIndex a (S (nextChildIndex a)))
      = Done (v1, child, a1).
Proof.
  intros Hp H.
  pose proof (pick_children gen gen_index _ _ _ _ _ _ _ Hp)
    as (Hi & Hk & Hlen & _).
  apply pick_Done in Hp as (child & child' & Hc & Hg & ->).
  pose proof (run_children gen gen_index _ _ _ _ _ _ _ H) as (Hl & Hj & _).
  { rewrite Hlen, Hi. lia. }
  pose proof (run_frame gen gen_index _ _ _ _ _ _ _ H) as (_&_& Hmono &_).
  assert (nextChildIndex a < length (m_children n))%nat as Hlt by lia.
  assert (picked_children this n (nextChildIndex a) = m_children n) as Epc.
  { unfold picked_children.
    destruct (Nat.leb_spec (length (m_children n)) (nextChildIndex a));
      [lia|done]. }
  rewrite Epc in *. rewrite picked_ambient_old in Hg by exact Hlt.
  assert (child' = child) as ->.
  { specialize (Hj (nextChildIndex a) ltac:(lia)). cbn in Hj.
    rewrite list_lookup_insert_eq in Hj by done. congruence. }
  split; [|eauto].
  rewrite list_insert_id by done. by apply set_children_id.
Qed.

Lemma run_unmoved_by_accept this p i s :
  ∀ n a v a' c c',
    shrinking a = false →
    run gen this p n a = Done (v, n, a') →
    m_children n !! i = Some c →
    update_at acceptShrink s c = Some c' →
    run gen this p (set_children n (<[i := c']> (m_children n))) a
      = Done (v, set_children n (<[i := c']> (m_children n)), a').
Proof.
  induction p as [w|k IH|g k IH]; intros n a v a' c c' Hq H Hc Hu;
    cbn [run] in *.
  - by injection H as <- <-.
  - destruct (atom n (randomEngine a)) as [[x n1] re1] eqn:Ha.
    apply atom_frame in Ha as (_ & _ & Hh & Hx & Hcached).
    pose proof (run_frame gen gen_index _ _ _ _ _ _ _ H) as (_ & Hat & _).
    destruct (Hat Hh) as [Hh' Hx'].
    destruct (Hcached Hh') as (-> & -> & ->).
    rewrite atom_cached by done. cbn [m_atom set_children].
    rewrite set_randomEngine_id in *. by eapply IH.
  - destruct (pick gen this g n a) as [[[v1 n1] a1]| |] eqn:Hp;
      [|discriminate..].
    destruct (pick_in_fixed_run _ _ _ _ _ _ _ _ _ _ Hp H)
      as (-> & child & Hj & Hg).
    set (j := nextChildIndex a) in *.
    assert (shrinking a1 = false) as Hq1.
    { eapply (shrinking_false_stays (this ++ [j]) _
                (set_nextChildIndex a (S j))); [exact Hq|reflexivity|].
      by eapply gen_proposes. }
    pose proof (lookup_lt_Some _ _ _ Hj) as Hlt.
    unfold pick. cbn [m_children set_children]. rewrite length_insert.
    fold j. destruct (Nat.leb_spec (length (m_children n)) j) as [?|_];
      [lia|].
    destruct (decide (j = i)) as [->|Hne].
    + rewrite list_lookup_insert_eq by done.
      assert (child = c) as -> by congruence.
      rewrite (gen_unmoved (this ++ [i]) g c (set_nextChildIndex a (S i))
                 v1 a1 s c' Hq Hg Hu).
      rewrite list_insert_insert_eq.
      change (set_children (set_children n (<[i:=c']> (m_children n)))
                (<[i:=c']> (m_children n)))
        with (set_children n (<[i:=c']> (m_children n))).
      by eapply IH.
    + rewrite list_lookup_insert_ne by done. rewrite Hj, Hg.
      rewrite (list_insert_id (<[i:=c']> (m_children n)) j child)
        by by rewrite list_lookup_insert_ne.
      change (set_children (set_children n (<[i:=c']> (m_children n)))
                (<[i:=c']> (m_children n)))
        with (set_children n (<[i:=c']> (m_children n))).
      by eapply IH.
Qed.

Lemma generate_body_unmoved_by_accept :
  unmoved_by_accept (generate_body gen).
Proof.
  intros this G n a v a' s m Hq H Hu.
  unfold generate_body in H |- *. rewrite Hq in H |- *.
  pose proof (regenerate_frame gen gen_index _ _ _ _ _ _ _ H)
    as ((_ & Hl & _) & _). cbn in Hl.
  rewrite set_lastGenerator_id in H by done.
  apply regenerate_Done in H as (g & a1 & Hg & HT & H & ->).
  destruct s as [|i s]; cbn in Hu.
  - injection Hu as <-.
    destruct (acceptShrink_effect n) as (Ha & _ & _ & _ & _ & _ & Hl' & _).
    rewrite set_lastGenerator_id by congruence.
    unfold regenerate. rewrite Ha, Hg, decide_True by done.
    by rewrite (run_slots_only gen this acceptShrink (produce g)
                  acceptShrink_slots_only), H.
  - destruct (m_children n !! i) as [c|] eqn:Hc; [|discriminate].
    destruct (update_at acceptShrink s c) as [c'|] eqn:Hu'; [|discriminate].
    injection Hu as <-.
    rewrite set_lastGenerator_id by done.
    unfold regenerate.
    change (activeGenerator (set_children n (<[i:=c']> (m_children n))))
      with (activeGenerator n).
    rewrite Hg, decide_True by done.
    by rewrite (run_unmoved_by_accept this (produce g) i s n
                  (set_nextChildIndex a 0) v a1 c c' Hq H Hc Hu').
Qed.
End Accepted.

Lemma generate_unmoved_by_accept depth : unmoved_by_accept (generate depth).
Proof.
  induction depth as [|depth IH]; [by intros ? ? ? ? ? ? ? ? ? [=]|].
  apply generate_body_unmoved_by_accept;
    auto using generate_index, generate_proposes.
Qed.

(** The pass that ends a call of [shrink]. *)
Lemma shrink_loop_last_pass passes depth G :
  ∀ k n a success tries n' a',
    shrink_loop passes depth G k n a = Done (success, tries, n', a') →
    ∃ n0 a0 v n1,
      shrunkNode a0 = Some None ∧
      generate depth [] G n0 a0 = Done (v, n1, a') ∧
      if success
      then to_bool v = Some false ∧
           ∃ p, shrunkNode a' = Some (Some p) ∧ dangling a' = false ∧
                update_at acceptShrink p n1 = Some n'
      else n1 = n' ∧ shrunkNode a' = Some None.
Proof.
  induction passes as [|passes IH]; intros k n a success tries n' a' H;
    [discriminate|].
  cbn [shrink_loop] in H.
  destruct (generate depth [] G n (set_shrunkNode a (Some None)))
    as [[[v n1] a1]| |] eqn:Hg; [|discriminate..].
  destruct (to_bool v) as [result|] eqn:Hb; [|discriminate].
  pose proof (generate_proposes depth _ _ _ _ _ _ _ Hg) as Hfrom.
  cbn in Hfrom.
  destruct (shrunkNode a1) as [[p|]|] eqn:Hp.
  - destruct result; [by eapply IH|].
    destruct (dangling a1) eqn:Hd; [discriminate|].
    destruct (update_at acceptShrink p n1) as [n2|] eqn:Hu; [|discriminate].
    injection H as <- <- <- <-.
    exists n, (set_shrunkNode a (Some None)), v, n1. eauto 10.
  - injection H as <- <- <- <-.
    by exists n, (set_shrunkNode a (Some None)), v, n1.
  - by destruct Hfrom as [?|[? ?]].
Qed.

(** The tries counted are the passes run. *)
Lemma shrink_loop_tries passes depth G :
  ∀ k n a success tries n' a',
    shrink_loop passes depth G k n a = Done (success, tries, n', a') →
    k < tries ≤ k + Z.of_nat passes.
Proof.
  induction passes as [|passes IH]; intros k n a success tries n' a' H;
    [discriminate|].
  cbn [shrink_loop] in H.
  destruct (generate depth [] G n (set_shrunkNode a (Some None)))
    as [[[v n1] a1]| |]; [|discriminate..].
  destruct (to_bool v) as [result|]; [|discriminate].
  destruct (shrunkNode a1) as [[p|]|]; [|injection H as _ <- _ _; lia..].
  destruct result.
  - apply IH in H. lia.
  - destruct (dangling a1); [discriminate|].
    destruct (update_at acceptShrink p n1); [|discriminate].
    injection H as _ <- _ _. lia.
Qed.

(** X9.  The tree that [shrink] leaves, whatever it returns, is one on which
    [generate] with the same generator, outside a shrink pass, writes
    nothing; and when [shrink] returns success, the value generated
    converts to false: the failure is reproduced with the shrink that was
    accepted. *)
Theorem shrink_success_reproduces passes depth G n a success tries n' a' :
  shrink passes depth G n a = Done (success, tries, n', a') →
  ∀ a2, shrinking a2 = false →
    ∃ v, generate depth [] G n' a2 = Done (v, n', a2) ∧
         (success = true → to_bool v = Some false).
Proof.
  unfold shrink. intros H a2 Hq.
  destruct (shrink_loop passes depth G 0 n a)
    as [[[[s t] n1] a1]| |] eqn:Hl; [|discriminate..].
  injection H as -> -> -> <-.
  apply shrink_loop_last_pass in Hl as (n0 & a0 & v & n2 & _ & Hg & Hs).
  pose proof (generate_replays depth _ _ _ _ _ _ _ Hg a2 Hq) as Hr.
  clear Hg. rename Hr into Hg. exists v. destruct success.
  - destruct Hs as (Hb & p & _ & _ & Hu). split; [|done].
    by eapply generate_unmoved_by_accept.
  - destruct Hs as [-> _]. by split.
Qed.

Lemma shrink_success_reproduces_witness :
  ∃ v,
    generate 2 [] Scenario.s1 (Scenario.s1_accepted 6) Scenario.ambient0
      = Done (v, Scenario.s1_accepted 6, Scenario.ambient0) ∧
    (true = true → to_bool v = Some false).
Proof.
  assert (shrink 4 2 Scenario.s1 Scenario.s1_tree Scenario.ambient0
            = Done (true, 4, Scenario.s1_accepted 6, Scenario.ambient0))
    as H by (vm_compute; reflexivity).
  exact (shrink_success_reproduces 4 2 Scenario.s1 _ _ true 4 _ _ H
           Scenario.ambient0 eq_refl).
Defined.

(** ** What holds of every node of the tree *)

Lemma everywhere_refl (R : RoseNode → RoseNode → Prop) n :
  (∀ m, R m m) → everywhere R n n.
Proof. intros HR p m Hm. eauto. Qed.

Lemma everywhere_trans (R : RoseNode → RoseNode → Prop) n1 n2 n3 :
  (∀ a b c, R a b → R b c → R a c) →
  everywhere R n1 n2 → everywhere R n2 n3 → everywhere R n1 n3.
Proof.
  intros HR H12 H23 p m Hm.
  destruct (H12 p m Hm) as (m2 & Hm2 & R12).
  destruct (H23 p m2 Hm2) as (m3 & Hm3 & R23). eauto.
Qed.

(** A change of the node itself that [R] allows and that keeps the
    children. *)
Lemma everywhere_local (R : RoseNode → RoseNode → Prop) n n' :
  (∀ m, R m m) → R n n' → m_children n' = m_children n → everywhere R n n'.
Proof.
  intros Hrefl HR Hch [|i p] m Hm; cbn in *.
  - injection Hm as <-. eauto.
  - rewrite Hch. eauto.
Qed.

(** A change of the children: each child that was there is still there,
    related as a tree. *)
Lemma everywhere_children (R : RoseNode → RoseNode → Prop) n ch :
  (∀ m, R m m) → R n (set_children n ch) →
  (∀ i c, m_children n !! i = Some c →
     ∃ c', ch !! i = Some c' ∧ everywhere R c c') →
  everywhere R n (set_children n ch).
Proof.
  intros Hrefl HR Hch [|i p] m Hm; cbn in *.
  - injection Hm as <-. eauto.
  - destruct (m_children n !! i) as [c|] eqn:Hc; [|done].
    destruct (Hch i c Hc) as (c' & -> & Hc'). by apply Hc'.
Qed.

Section Everywhere.
Variable R : RoseNode → RoseNode → Prop.
(** Whether only the calls outside a shrink pass are meant. *)
Variable quiet : bool.
Hypothesis R_refl : ∀ m, R m m.
Hypothesis R_trans : ∀ a b c, R a b → R b c → R a c.
Hypothesis R_children : ∀ n ch, R n (set_children n ch).
Hypothesis R_atom : ∀ n x, m_hasAtom n = false → R n (set_atom n x).
Hypothesis R_last : ∀ n g, R n (set_lastGenerator n g).
Hypothesis R_shrink :
  quiet = false →
  ∀ n, (∀ it, R n (set_shrinkIterator n it)) ∧
       (∀ g, R n (set_acceptedGenerator n g)) ∧
       (∀ g, R n (set_shrunkGenerator n g)).

Variable gen : Generate.
Hypothesis gen_proposes : proposes_within gen.
Hypothesis gen_keeps : keeps_everywhere R quiet gen.

Lemma run_keeps_everywhere this p :
  ∀ n a v n' a',
    (quiet = true → shrinking a = false) →
    run gen this p n a = Done (v, n', a') →
    everywhere R n n'.
Proof.
  induction p as [w|k IH|g k IH]; intros n a v n' a' Hq H; cbn [run] in H.
  - injection H as <- <- <-. by apply everywhere_refl.
  - destruct (atom n (randomEngine a)) as [[x n1] re1] eqn:Ha.
    apply (everywhere_trans R n n1 n');
      [done| |exact (IH x n1 (set_randomEngine a re1) v n' a' Hq H)].
    unfold atom in Ha. destruct (m_hasAtom n) eqn:Hh.
    + injection Ha as <- <- <-. by apply everywhere_refl.
    + destruct (nextAtom _) as [y re2]. injection Ha as <- <- <-.
      apply everywhere_local; auto.
  - destruct (pick gen this g n a) as [[[v1 n1] a1]| |] eqn:Hp;
      [|discriminate..].
    apply pick_Done in Hp as (child & child' & Hc & Hg & ->).
    assert (quiet = true → shrinking a1 = false) as Hq1.
    { intros E.
      eapply (shrinking_false_stays _ _
                (set_nextChildIndex (picked_ambient this n a) _));
        [|reflexivity|by eapply gen_proposes].
      unfold shrinking. cbn. rewrite picked_ambient_shrunkNode.
      exact (Hq E). }
    eapply (everywhere_trans R); [done| |exact (IH v1 _ a1 v n' a' Hq1 H)].
    apply everywhere_children; auto.
    intros i c Hi.
    pose proof (picked_children_old this n (nextChildIndex a) i c Hi) as Hi'.
    destruct (decide (i = nextChildIndex a)) as [->|Hne].
    + exists child'. split.
      * apply list_lookup_insert_eq. by eapply lookup_lt_Some.
      * assert (c = child) as -> by congruence.
        eapply gen_keeps; [|exact Hg]. intros E.
        unfold shrinking. cbn. rewrite picked_ambient_shrunkNode.
        exact (Hq E).
    + exists c. rewrite list_lookup_insert_ne by done.
      split; [done|]. by apply everywhere_refl.
Qed.

Lemma regenerate_keeps_everywhere T this n a v n' a' :
  (quiet = true → shrinking a = false) →
  regenerate gen T this n a = Done (v, n', a') →
  everywhere R n n'.
Proof.
  intros Hq (g & a1 & _ & _ & H & _)%regenerate_Done.
  by eapply run_keeps_everywhere; [|exact H].
Qed.

Lemma propose_keeps_everywhere T this n a v n' a' :
  quiet = false →
  propose gen T this n a = Done (v, n', a') →
  everywhere R n n'.
Proof.
  intros Hq (T' & it & _ & [(_ & _ & w & it' & _ & H)|[_ H]])%propose_Done;
    destruct (R_shrink Hq) with (n := n) as (Hi & _ & Hs).
  - eapply (everywhere_trans R);
      [done| |by eapply regenerate_keeps_everywhere; [|exact H];
              rewrite Hq].
    apply everywhere_local; [done| |done].
    eapply R_trans; [apply Hi|]. by apply R_shrink.
  - eapply (everywhere_trans R);
      [done| |by eapply regenerate_keeps_everywhere; [|exact H];
              rewrite Hq].
    by apply everywhere_local.
Qed.

Lemma generate_body_keeps_everywhere :
  keeps_everywhere R quiet (generate_body gen).
Proof.
  intros this G n a v n' a' Hq H.
  apply generate_body_Done in H. cbn zeta in H.
  assert (everywhere R n (set_lastGenerator n (Some G))) as H0
    by by apply everywhere_local.
  destruct H as [[Hs H]|[(Hs & _ & value & n1 & a1 & H1 & H)|(Hs & _ & H)]].
  - eapply (everywhere_trans R); [done|exact H0|].
    by eapply regenerate_keeps_everywhere; [|exact H].
  - assert (quiet = false) as Hq'.
    { destruct quiet; [|done]. rewrite Hq in Hs; done. }
    apply regenerate_keeps_everywhere in H1; [|by rewrite Hq'].
    pose proof (everywhere_trans R _ _ _ R_trans H0 H1) as H01.
    destruct H as [[_ [= -> -> ->]]|[_ H]]; [done|].
    apply propose_keeps_everywhere in H; [|done].
    eapply (everywhere_trans R); [done|exact H01|].
    eapply (everywhere_trans R); [done| |exact H].
    destruct (R_shrink Hq') with (n := n1) as (Hi & _).
    destruct (m_acceptedGenerator _) eqn:Ha.
    + by apply everywhere_local.
    + apply everywhere_local; [done| |done].
      eapply R_trans; [apply Hi|]. by apply R_shrink.
  - assert (quiet = false) as Hq'.
    { destruct quiet; [|done]. rewrite Hq in Hs; done. }
    apply propose_keeps_everywhere in H; [|done].
    by eapply (everywhere_trans R).
Qed.
End Everywhere.

Lemma generate_keeps_place depth :
  keeps_everywhere same_atom false (generate depth).
Proof.
  induction depth as [|depth IH]; [by intros ? ? ? ? ? ? ? ? [=]|].
  apply generate_body_keeps_everywhere;
    auto using generate_proposes; unfold same_atom, cached_atom; try done.
  - intros a b c Hab Hbc x Hx. by apply Hbc, Hab.
  - intros m x Hh y. cbn. by rewrite Hh.
Qed.

Lemma generate_keeps_shrink_state depth :
  keeps_everywhere same_shrink_state true (generate depth).
Proof.
  induction depth as [|depth IH]; [by intros ? ? ? ? ? ? ? ? [=]|].
  apply generate_body_keeps_everywhere;
    auto using generate_proposes; unfold same_shrink_state; try done.
  intros a b c [? ?] [? ?]. split; congruence.
Qed.

Lemma node_at_app p q n :
  node_at (p ++ q) n =
    match node_at p n with
    | None => None
    | Some m => node_at q m
    end.
Proof.
  revert n. induction p as [|i p IH]; intros n; cbn; [done|].
  destruct (m_children n !! i); [apply IH|done].
Qed.

(** Where every node keeps its place, no node loses a child. *)
Lemma everywhere_children_grow R n n' p m :
  everywhere R n n' → node_at p n = Some m →
  ∃ m', node_at p n' = Some m' ∧ R m m' ∧
        (length (m_children m) ≤ length (m_children m'))%nat.
Proof.
  intros He Hm. destruct (He p m Hm) as (m' & Hm' & HR).
  exists m'. repeat split; [done..|].
  destruct (m_children m) as [|c0 ch] eqn:Hch using rev_ind; [cbn; lia|].
  clear IHch.
  assert (node_at (p ++ [length ch]) n = Some c0) as Hc.
  { rewrite node_at_app, Hm. cbn. rewrite Hch.
    by rewrite lookup_app_r, Nat.sub_diag by done. }
  destruct (He _ _ Hc) as (c' & Hc' & _).
  rewrite node_at_app, Hm' in Hc'. cbn in Hc'.
  destruct (m_children m' !! length ch) as [d|] eqn:Hd; [|done].
  apply lookup_lt_Some in Hd. rewrite length_app. cbn. lia.
Qed.

Lemma acceptShrink_everywhere R q :
  (∀ m, R m m) → (∀ n ch, R n (set_children n ch)) →
  (∀ n, R n (acceptShrink n)) →
  ∀ n n', update_at acceptShrink q n = Some n' → everywhere R n n'.
Proof.
  intros Hrefl Hch Hacc.
  induction q as [|i q IH]; intros n n' H; cbn in H.
  - injection H as <-. apply everywhere_local; [done..|].
    apply acceptShrink_effect.
  - destruct (m_children n !! i) as [c|] eqn:Hc; [|discriminate].
    destruct (update_at acceptShrink q c) as [c'|] eqn:Hu; [|discriminate].
    injection H as <-. apply everywhere_children; [done..|].
    intros j d Hj. destruct (decide (j = i)) as [->|Hne].
    + exists c'. split.
      * apply list_lookup_insert_eq. by eapply lookup_lt_Some.
      * assert (d = c) as -> by congruence. by apply IH.
    + exists d. rewrite list_lookup_insert_ne by done.
      split; [done|]. by apply everywhere_refl.
Qed.

Lemma shrink_loop_keeps_place passes depth G :
  ∀ k n a r n' a',
    shrink_loop passes depth G k n a = Done (r, n', a') →
    everywhere same_atom n n'.
Proof.
  assert (∀ a b c, same_atom a b → same_atom b c → same_atom a c)
    as Htrans by (intros a b c Hab Hbc x Hx; by apply Hbc, Hab).
  induction passes as [|passes IH]; intros k n a r n' a' H; [discriminate|].
  cbn [shrink_loop] in H.
  destruct (generate depth [] G n (set_shrunkNode a (Some None)))
    as [[[v n1] a1]| |] eqn:Hg; [|discriminate..].
  apply (generate_keeps_place depth) in Hg; [|done].
  destruct (to_bool v) as [result|]; [|discriminate].
  destruct (shrunkNode a1) as [[q|]|]; [|by injection H as <- <- <-..].
  destruct result.
  - eapply everywhere_trans; [done|exact Hg|]. by eapply IH.
  - destruct (dangling a1) eqn:Hd; [discriminate|].
    destruct (update_at acceptShrink q n1) as [n2|] eqn:Hu; [|discriminate].
    injection H as <- <- <-.
    eapply everywhere_trans; [done|exact Hg|].
    eapply acceptShrink_everywhere; [| | |exact Hu].
    + by intros m x.
    + by intros m ch x.
    + intros m x. by destruct (acceptShrink_effect m) as (_&_&_&_&_& -> & _).
Qed.



(** X12.  Outside a shrink pass (no [ShrunkNode] binding, or a node has proposed
    already) [generate] takes no part in shrinking: it leaves the binding as
    it is and writes the accepted generator, the shrunk generator and the
    shrink iterator of no node of the tree. *)
Theorem generate_outside_shrink_pass depth this G n a v n' a' :
  shrinking a = false →
  generate depth this G n a = Done (v, n', a') →
  shrunkNode a' = shrunkNode a ∧
  ∀ p m, node_at p n = Some m →
    ∃ m', node_at p n' = Some m' ∧
          m_acceptedGenerator m' = m_acceptedGenerator m ∧
          m_shrunkGenerator m' = m_shrunkGenerator m ∧
          m_shrinkIterator m' = m_shrinkIterator m.
Proof.
  intros Hq H. split.
  - apply generate_proposes in H. apply shrinking_false in Hq.
    unfold proposal_from in H. by destruct (shrunkNode a) as [[?|]|].
  - intros p m Hm.
    apply (generate_keeps_shrink_state depth) in H; [|done].
    destruct (H p m Hm) as (m' & Hm' & _ & Hs).
    exists m'. unfold shrink_state in Hs. injection Hs as ? ? ?. done.
Qed.

Lemma generate_outside_shrink_pass_witness :
  ∃ v n' a',
    generate 2 [] Scenario.s4 Scenario.s4_exhausted Scenario.ambient0
      = Done (v, n', a') ∧
    shrunkNode a' = None.
Proof.
  destruct (generate 2 [] Scenario.s4 Scenario.s4_exhausted
              Scenario.ambient0) as [[[v n'] a']| |] eqn:H;
    [|vm_compute in H; discriminate..].
  exists v, n', a'. split; [reflexivity|].
  exact (proj1 (generate_outside_shrink_pass 2 [] Scenario.s4
                  Scenario.s4_exhausted Scenario.ambient0 v n' a'
                  eq_refl H)).
Defined.

(** ** Invariants of the tree *)

Lemma throughout_unfold I this n :
  throughout I this n ↔
  I this n ∧
  ∀ i c, m_children n !! i = Some c → throughout I (this ++ [i]) c.
Proof.
  unfold throughout. split.
  - intros H. split.
    + rewrite <- (app_nil_r this). by apply H.
    + intros i c Hc p m Hm. rewrite <- app_assoc. apply H. cbn.
      by rewrite Hc.
  - intros [H0 Hch] [|i p] m Hm; cbn in Hm.
    + injection Hm as <-. by rewrite app_nil_r.
    + destruct (m_children n !! i) as [c|] eqn:Hc; [|done].
      specialize (Hch i c Hc p m Hm). by rewrite <- app_assoc in Hch.
Qed.

Lemma throughout_local I this n n' :
  throughout I this n → I this n' → m_children n' = m_children n →
  throughout I this n'.
Proof.
  rewrite !throughout_unfold. intros [_ Hch] H0 E. rewrite E. by split.
Qed.

Lemma picked_children_cases this n i j c :
  picked_children this n i !! j = Some c →
  m_children n !! j = Some c ∨ c = RoseNode_new (Some this).
Proof.
  unfold picked_children. destruct (_ <=? _)%nat; [|by left].
  intros [?|[_ Hc]]%lookup_app_Some; [by left|right].
  destruct (j - _)%nat; cbn in Hc; [by injection Hc|done].
Qed.

Section Throughout.
Variable I : Path → RoseNode → Prop.
Hypothesis I_new : ∀ this i, I (this ++ [i]) (RoseNode_new (Some this)).
Hypothesis I_children : ∀ q n ch, I q n → I q (set_children n ch).
Hypothesis I_atom : ∀ q n x, I q n → I q (set_atom n x).
Hypothesis I_last : ∀ q n g, I q n → I q (set_lastGenerator n g).
Hypothesis I_iterator :
  ∀ q n x, I q n → I q (set_shrinkIterator n (Some x)).
Hypothesis I_accepted :
  ∀ q n g, I q n → I q (set_acceptedGenerator n g).
Hypothesis I_proposed :
  ∀ q n x g, I q n →
    I q (set_shrunkGenerator (set_shrinkIterator n (Some x)) (Some g)).
Hypothesis I_exhausted : ∀ q n, I q n → I q (set_shrunkGenerator n None).
Hypothesis I_accept : ∀ q n, I q n → I q (acceptShrink n).

Lemma throughout_new this i :
  throughout I (this ++ [i]) (RoseNode_new (Some this)).
Proof.
  apply throughout_unfold. split; [apply I_new|]. intros j c Hc. done.
Qed.

Variable gen : Generate.
Hypothesis gen_keeps : keeps_throughout I gen.

Lemma run_keeps_throughout this p :
  ∀ n a v n' a',
    run gen this p n a = Done (v, n', a') →
    throughout I this n → throughout I this n'.
Proof.
  induction p as [w|k IH|g k IH]; intros n a v n' a' H Hn; cbn [run] in H.
  - by injection H as <- <- <-.
  - destruct (atom n (randomEngine a)) as [[x n1] re1] eqn:Ha.
    eapply IH; [exact H|].
    unfold atom in Ha. destruct (m_hasAtom n).
    + by injection Ha as <- <- <-.
    + destruct (nextAtom _) as [y re2]. injection Ha as <- <- <-.
      apply (throughout_local I this n); [done| |done].
      apply I_atom. by apply throughout_unfold in Hn as [? _].
  - destruct (pick gen this g n a) as [[[v1 n1] a1]| |] eqn:Hp;
      [|discriminate..].
    apply pick_Done in Hp as (child & child' & Hc & Hg & ->).
    eapply IH; [exact H|].
    apply throughout_unfold in Hn as [H0 Hch].
    assert (∀ j c, picked_children this n (nextChildIndex a) !! j = Some c →
              throughout I (this ++ [j]) c) as Hpc.
    { intros j c [Hj| ->]%picked_children_cases; [by eapply Hch|].
      apply throughout_new. }
    apply throughout_unfold. split; [by apply I_children|].
    intros j c. cbn [m_children set_children].
    destruct (decide (j = nextChildIndex a)) as [->|Hne].
    + rewrite list_lookup_insert_eq by by eapply lookup_lt_Some.
      intros [= <-]. eapply gen_keeps; [exact Hg|]. by apply Hpc.
    + rewrite list_lookup_insert_ne by done. apply Hpc.
Qed.

Lemma regenerate_keeps_throughout T this n a v n' a' :
  regenerate gen T this n a = Done (v, n', a') →
  throughout I this n → throughout I this n'.
Proof.
  intros (g & a1 & _ & _ & H & _)%regenerate_Done.
  by eapply run_keeps_throughout.
Qed.

Lemma propose_keeps_throughout T this n a v n' a' :
  propose gen T this n a = Done (v, n', a') →
  throughout I this n → throughout I this n'.
Proof.
  intros (T' & it & _ & [(_ & _ & w & it' & _ & H)|[_ H]])%propose_Done Hn;
    (eapply regenerate_keeps_throughout; [exact H|]);
    (apply (throughout_local I this n); [done| |done]);
    apply throughout_unfold in Hn as [H0 _]; auto.
Qed.

Lemma generate_body_keeps_throughout : keeps_throughout I (generate_body gen).
Proof.
  intros this G n a v n' a' H Hn.
  apply generate_body_Done in H. cbn zeta in H.
  assert (throughout I this (set_lastGenerator n (Some G))) as Hn0.
  { apply (throughout_local I this n); [done| |done].
    apply throughout_unfold in Hn as [H0 _]. auto. }
  destruct H as [[_ H]|[(_ & _ & value & n1 & a1 & H1 & H)|(_ & _ & H)]].
  - by eapply regenerate_keeps_throughout.
  - pose proof (regenerate_keeps_throughout _ _ _ _ _ _ _ H1 Hn0) as Hn1.
    destruct H as [[_ [= -> -> ->]]|[_ H]]; [done|].
    eapply propose_keeps_throughout; [exact H|].
    pose proof (proj1 (proj1 (throughout_unfold I this n1) Hn1)) as H1'.
    destruct (m_acceptedGenerator _);
      (apply (throughout_local I this n1); [done| |done]); auto.
  - by eapply propose_keeps_throughout.
Qed.

Lemma acceptShrink_keeps_throughout q :
  ∀ this n n',
    update_at acceptShrink q n = Some n' →
    throughout I this n → throughout I this n'.
Proof.
  induction q as [|i q IH]; intros this n n' H Hn; cbn in H.
  - injection H as <-. apply (throughout_local I this n); [done| |].
    + apply I_accept. by apply throughout_unfold in Hn as [? _].
    + apply acceptShrink_effect.
  - destruct (m_children n !! i) as [c|] eqn:Hc; [|discriminate].
    destruct (update_at acceptShrink q c) as [c'|] eqn:Hu; [|discriminate].
    injection H as <-. apply throughout_unfold in Hn as [H0 Hch].
    apply throughout_unfold. split; [by apply I_children|].
    intros j d. cbn [m_children set_children].
    destruct (decide (j = i)) as [->|Hne].
    + rewrite list_lookup_insert_eq by by eapply lookup_lt_Some.
      intros [= <-]. eapply IH; [exact Hu|]. by apply Hch.
    + rewrite list_lookup_insert_ne by done. apply Hch.
Qed.
End Throughout.

Lemma parent_of_child this i : parent_of (this ++ [i]) = Some this.
Proof.
  unfold parent_of. rewrite removelast_last. by destruct this.
Qed.

Lemma generate_keeps_parent_ok depth :
  keeps_throughout parent_ok (generate depth).
Proof.
  induction depth as [|depth IH]; [by intros ? ? ? ? ? ? ? [=]|].
  apply generate_body_keeps_throughout; unfold parent_ok; try done.
  intros this i. cbn. by rewrite parent_of_child.
Qed.

Lemma generate_keeps_proposal_ok depth :
  keeps_throughout proposal_ok (generate depth).
Proof.
  induction depth as [|depth IH]; [by intros ? ? ? ? ? ? ? [=]|].
  apply generate_body_keeps_throughout; unfold proposal_ok; try done.
Qed.

Lemma shrink_keeps_throughout I passes depth G :
  (∀ q n, I q n → I q (acceptShrink n)) →
  (∀ q n ch, I q n → I q (set_children n ch)) →
  keeps_throughout I (generate depth) →
  ∀ n a r n' a',
    shrink passes depth G n a = Done (r, n', a') →
    throughout I [] n → throughout I [] n'.
Proof.
  intros Hacc Hch Hgen n a r n' a' H. unfold shrink in H.
  destruct (shrink_loop passes depth G 0 n a)
    as [[[r1 n1] a1]| |] eqn:Hl; [|discriminate..].
  destruct r1 as [s t]. injection H as _ <- _.
  revert Hl. generalize 0. revert n a.
  induction passes as [|passes IH]; intros n a k H Hn; [discriminate|].
  cbn [shrink_loop] in H.
  destruct (generate depth [] G n (set_shrunkNode a (Some None)))
    as [[[v n2] a2]| |] eqn:Hg; [|discriminate..].
  pose proof (Hgen _ _ _ _ _ _ _ Hg Hn) as Hn2.
  destruct (to_bool v) as [result|]; [|discriminate].
  destruct (shrunkNode a2) as [[q|]|]; [|by injection H as _ _ <- _..].
  destruct result; [by eapply IH|].
  destruct (dangling a2) eqn:Hd; [discriminate|].
  destruct (update_at acceptShrink q n2) as [n3|] eqn:Hu; [|discriminate].
  injection H as _ _ <- _.
  by eapply (acceptShrink_keeps_throughout I Hch Hacc).
Qed.

(** X13.  An invariant of every tree that grows from a new root by calls of
    [generate] and [shrink]: a node holds a shrunk generator only while it
    holds a shrink iterator.  It holds of a new root, and [generate] and
    [shrink] keep it on the whole tree. *)
Theorem proposal_needs_iterator :
  throughout proposal_ok [] (RoseNode_new None) ∧
  (∀ depth this G n a v n' a',
     generate depth this G n a = Done (v, n', a') →
     throughout proposal_ok this n → throughout proposal_ok this n') ∧
  (∀ passes depth G n a r n' a',
     shrink passes depth G n a = Done (r, n', a') →
     throughout proposal_ok [] n → throughout proposal_ok [] n').
Proof.
  split; [|split].
  - intros [|i p] m Hm; cbn in Hm; [|discriminate].
    injection Hm as <-. by intros ?.
  - intros depth this G n a v n' a' H.
    by apply (generate_keeps_proposal_ok depth _ _ _ _ _ _ _ H).
  - intros passes depth G n a r n' a' H.
    eapply shrink_keeps_throughout; [| |apply generate_keeps_proposal_ok|
                                       exact H].
    + intros q m _. unfold proposal_ok.
      destruct (acceptShrink_effect m) as (_ & -> & _). done.
    + done.
Qed.

Lemma proposal_needs_iterator_witness :
  throughout proposal_ok [] (Scenario.s1_accepted 6).
Proof.
  assert (shrink 4 2 Scenario.s1 (RoseNode_new None) Scenario.ambient0
            = Done (true, 4, Scenario.s1_accepted 6, Scenario.ambient0))
    as H by (vm_compute; reflexivity).
  apply (proj2 (proj2 proposal_needs_iterator) _ _ _ _ _ _ _ _ H).
  apply proposal_needs_iterator.
Defined.

(** ** Depth, path and print *)

Lemma RoseNode_children_ind (P : RoseNode → Prop) :
  (∀ n, Forall P (m_children n) → P n) → ∀ n, P n.
Proof.
  intros H. fix IH 1. intros [par ch h x l acc s it]. apply H. cbn.
  revert ch. fix IHch 1. intros [|c ch]; constructor; [apply IH|apply IHch].
Qed.

Lemma depth_level root :
  throughout parent_ok [] root →
  ∀ p n fuel,
    node_at p root = Some n → (length p ≤ fuel)%nat →
    depth fuel root n = Done (length p).
Proof.
  intros Hinv p. induction p as [|i q IH] using rev_ind;
    intros n fuel Hn Hf; pose proof (Hinv _ _ Hn) as Hp;
    unfold parent_ok in Hp; cbn [app] in Hp.
  - cbn in Hp. destruct fuel; cbn; by rewrite Hp.
  - rewrite parent_of_child in Hp. rewrite length_app in Hf |- *.
    cbn [length] in Hf |- *.
    destruct fuel as [|fuel]; [lia|]. cbn [depth]. rewrite Hp.
    rewrite node_at_app in Hn.
    destruct (node_at q root) as [parent|] eqn:Hq; [|done].
    rewrite (IH parent fuel eq_refl) by lia. f_equal. lia.
Qed.

Lemma descriptions_along_snoc q i root n :
  node_at (q ++ [i]) root = Some n →
  descriptions_along (q ++ [i]) root
    = descriptions_along q root ++ [description n].
Proof.
  revert root. induction q as [|j q IH]; intros root Hn; cbn in Hn |- *.
  - destruct (m_children root !! i) as [c|]; [|done].
    by injection Hn as ->.
  - destruct (m_children root !! j) as [c|]; [|done].
    by rewrite (IH c Hn).
Qed.

Lemma path_joined root :
  throughout parent_ok [] root →
  ∀ p n fuel,
    node_at p root = Some n → (length p ≤ fuel)%nat →
    path fuel root n = Done (joined_path (descriptions_along p root)).
Proof.
  intros Hinv p. induction p as [|i q IH] using rev_ind;
    intros n fuel Hn Hf; pose proof (Hinv _ _ Hn) as Hp;
    unfold parent_ok in Hp; cbn [app] in Hp.
  - cbn in Hp, Hn. injection Hn as <-. destruct fuel; cbn; by rewrite Hp.
  - rewrite parent_of_child in Hp. rewrite length_app in Hf.
    cbn [length] in Hf.
    destruct fuel as [|fuel]; [lia|]. cbn [path]. rewrite Hp.
    rewrite (descriptions_along_snoc _ _ _ _ Hn).
    rewrite node_at_app in Hn.
    destruct (node_at q root) as [parent|] eqn:Hq; [|done].
    rewrite (IH parent fuel eq_refl) by lia.
    destruct (descriptions_along q root) as [|d ds] eqn:Hd.
    { by destruct q. }
    cbn [joined_path app]. by rewrite fold_left_app.
Qed.

Lemma height_unfold n :
  height n = fold_right Nat.max 0%nat (map (λ c, S (height c)) (m_children n)).
Proof. by destruct n. Qed.

Lemma node_at_height q :
  ∀ n m, node_at q n = Some m → (length q ≤ height n)%nat.
Proof.
  induction q as [|i q IH]; intros n m H; cbn in H |- *; [lia|].
  destruct (m_children n !! i) as [c|] eqn:Hc; [|done].
  specialize (IH c m H). rewrite height_unfold.
  revert i Hc. induction (m_children n) as [|d l IHl]; intros i Hc; [done|].
  destruct i as [|i]; cbn in Hc |- *.
  - injection Hc as ->. lia.
  - specialize (IHl i Hc). lia.
Qed.

Lemma new_root_parent_ok : throughout parent_ok [] (RoseNode_new None).
Proof.
  intros [|i p] m Hm; cbn in Hm; [|discriminate]. by injection Hm as <-.
Qed.

Lemma pair_tree_parent_ok : throughout parent_ok [] Scenario.pair_tree.
Proof.
  assert (generate 2 [] Scenario.pair (RoseNode_new None) Scenario.ambient0
            = Done (VPair (VInt 8) (VInt 4), Scenario.pair_tree,
                    Scenario.ambient0)) as H by (vm_compute; reflexivity).
  exact (generate_keeps_parent_ok 2 _ _ _ _ _ _ _ H new_root_parent_ok).
Qed.

(** X14.  In a tree whose parent pointers are right, [depth()] of a node is its
    level below the root, and [path()] joins the descriptions of the nodes
    from the root down to it. *)
Theorem depth_and_path root p n fuel :
  throughout parent_ok [] root →
  node_at p root = Some n →
  (length p ≤ fuel)%nat →
  depth fuel root n = Done (length p) ∧
  path fuel root n = Done (joined_path (descriptions_along p root)).
Proof.
  intros Hinv Hn Hf. split; [by apply depth_level|by apply path_joined].
Qed.

Lemma depth_and_path_witness :
  ∃ child,
    node_at [1%nat] Scenario.pair_tree = Some child ∧
    depth 1 Scenario.pair_tree child = Done 1%nat ∧
    path 1 Scenario.pair_tree child = Done "/ Pair / Halving"%string.
Proof.
  destruct (node_at [1%nat] Scenario.pair_tree) as [child|] eqn:Hc;
    [|vm_compute in Hc; discriminate].
  exists child. split; [reflexivity|].
  destruct (depth_and_path Scenario.pair_tree [1%nat] child 1
              pair_tree_parent_ok Hc ltac:(cbn; lia)) as [Hd Hp].
  split; [exact Hd|]. rewrite Hp. vm_compute. reflexivity.
Defined.

Lemma written_map (f : RoseNode → Outcome string) (g : RoseNode → string) l :
  (∀ i c, l !! i = Some c → f c = Done (g c)) →
  written (map f l) = Done (fold_right String.append "" (map g l)).
Proof.
  induction l as [|c l IH]; intros H; cbn; [done|].
  rewrite (H 0%nat c eq_refl), IH; [done|].
  intros i d Hd. by apply (H (S i)).
Qed.

Lemma print_unfold fuel root n :
  print fuel root n =
    match depth fuel root n with
    | Done d =>
        match written (map (print fuel root) (m_children n)) with
        | Done s => Done (indent d +:+ "- " +:+ description n +:+ endl +:+ s)
        | Fault => Fault
        | Diverge => Diverge
        end
    | Fault => Fault
    | Diverge => Diverge
    end.
Proof. by destruct n. Qed.

Lemma render_unfold d n :
  render d n =
    indent d +:+ "- " +:+ description n +:+ endl +:+
    fold_right String.append "" (map (render (S d)) (m_children n)).
Proof. by destruct n. Qed.

(** X15.  In a tree whose parent pointers are right, [print] on a node writes
    the node and then its children in order, one line for each node of the
    subtree: two spaces for each level below the root, a dash and the
    description. *)
Theorem print_renders root fuel :
  throughout parent_ok [] root →
  (height root ≤ fuel)%nat →
  ∀ n p, node_at p root = Some n →
    print fuel root n = Done (render (length p) n).
Proof.
  intros Hinv Hfuel n.
  induction n as [n IH] using RoseNode_children_ind. intros p Hn.
  rewrite print_unfold, render_unfold.
  rewrite (depth_level root Hinv p n fuel Hn)
    by (pose proof (node_at_height _ _ _ Hn); lia).
  rewrite (written_map _ (render (S (length p)))); [done|].
  intros i c Hc.
  assert (node_at (p ++ [i]) root = Some c) as Hpc.
  { rewrite node_at_app, Hn. cbn. by rewrite Hc. }
  rewrite Forall_lookup in IH.
  rewrite (IH i c Hc (p ++ [i]) Hpc), length_app. cbn.
  by rewrite Nat.add_1_r.
Qed.

Lemma print_renders_witness :
  print 1 Scenario.pair_tree Scenario.pair_tree
    = Done (render 0 Scenario.pair_tree).
Proof.
  exact (print_renders Scenario.pair_tree 1 pair_tree_parent_ok
           ltac:(vm_compute; lia) Scenario.pair_tree [] eq_refl).
Defined.

(** What [print] writes for the tree of a pair. *)
Example print_pair :
  render 0 Scenario.pair_tree
    = ("- Pair" +:+ endl +:+ "  - Halving" +:+ endl +:+
       "  - Halving" +:+ endl)%string.
Proof. vm_compute. reflexivity. Qed.

(** ** Examples *)

Lemma stringValue_frame gen this n a s n' a' :
  restores_index gen →
  stringValue gen this n a = Done (s, n', a') →
  same_slots n n' ∧ nextChildIndex a' = nextChildIndex a.
Proof.
  intros Hidx H. unfold stringValue in H.
  destruct (activeGenerator n) as [g|].
  - destruct (run gen this (produce g) n (set_nextChildIndex a 0))
      as [[[v n1] a1]| |] eqn:Hr; [|discriminate..].
    injection H as <- <- <-.
    by apply (run_frame gen Hidx) in Hr as (Hs & _).
  - injection H as <- <- <-. split; [apply same_slots_refl|done].
Qed.

(** The loop of [example()] from the child at [i0] on: the [i]-th string is
    what [stringValue] returns on the [i]-th child, under the implicit
    parameters that the child before left. *)
Lemma example_from_chain gen this children :
  ∀ i0 a values children' a',
    example_from gen this i0 children a = Done (values, children', a') ↔
    ∃ ambients,
      length ambients = S (length children) ∧
      ambients !! 0%nat = Some a ∧
      ambients !! length children = Some a' ∧
      length values = length children ∧
      length children' = length children ∧
      ∀ i c, children !! i = Some c →
        ∃ s c' ai ai',
          values !! i = Some s ∧ children' !! i = Some c' ∧
          ambients !! i = Some ai ∧ ambients !! S i = Some ai' ∧
          stringValue gen (this ++ [(i0 + i)%nat]) c ai = Done (s, c', ai').
Proof.
  induction children as [|c l IH]; intros i0 a values children' a';
    cbn [example_from].
  - split.
    + intros [= <- <- <-]. exists [a]. by repeat split.
    + intros (ambients & Hlen & H0 & Hl & Hv & Hc & _).
      destruct values; [|done]. destruct children'; [|done].
      cbn in Hl. congruence.
  - split.
    + intros H.
      destruct (stringValue gen (this ++ [i0]) c a) as [[[s c'] a1]| |] eqn:Hs;
        [|discriminate..].
      destruct (example_from gen this (S i0) l a1)
        as [[[vs cs] a2]| |] eqn:He; [|discriminate..].
      injection H as <- <- <-.
      apply IH in He as (ambients & Hlen & H0 & Hl & Hv & Hc & Hall).
      exists (a :: ambients). cbn [length]. rewrite Hlen, Hv, Hc.
      do 5 (split; [done|]).
      intros [|i] d Hd; cbn in Hd.
      * injection Hd as <-. exists s, c', a, a1.
        rewrite Nat.add_0_r. by repeat split.
      * destruct (Hall i d Hd) as (s' & d' & ai & ai' & ? & ? & ? & ? & Hsv).
        exists s', d', ai, ai'.
        replace (i0 + S i)%nat with (S i0 + i)%nat by lia.
        by repeat split.
    + intros (ambients & Hlen & H0 & Hl & Hv & Hc & Hall).
      destruct ambients as [|a0 ambients]; [done|].
      cbn in H0. injection H0 as ->.
      destruct values as [|s values]; [done|].
      destruct children' as [|c' children']; [done|].
      destruct (Hall 0%nat c eq_refl)
        as (s0 & c0 & ai & ai' & [= <-] & [= <-] & [= <-] & Ha1 & Hsv).
      rewrite Nat.add_0_r in Hsv. rewrite Hsv.
      assert (example_from gen this (S i0) l ai'
                = Done (values, children', a')) as ->; [|done].
      apply IH. exists ambients. cbn in Hlen, Hl, Hv, Hc, Ha1.
      do 5 (split; [by (done || lia)|]).
      intros i d Hd.
      destruct (Hall (S i) d Hd) as (s' & d' & bi & bi' & ? & ? & ? & ? & Hs').
      exists s', d', bi, bi'.
      replace (S i0 + i)%nat with (i0 + S i)%nat by lia.
      by repeat split.
Qed.

(** X16.  [example()] returns one string for each child of the node, in the
    order of the children: the [i]-th string is what [stringValue] returns
    on the [i]-th child, called after those on the children before it, and
    [example()] returns whenever these calls do.  It neither adds nor
    removes a child and writes no slot and no atom of the node itself; on a
    node without children it returns the empty list and changes nothing. *)
Theorem example_one_per_child gen this n a :
  (∀ values n' a',
     example gen this n a = Done (values, n', a') ↔
     ∃ ambients,
       length ambients = S (length (m_children n)) ∧
       ambients !! 0%nat = Some a ∧
       ambients !! length (m_children n) = Some a' ∧
       length values = length (m_children n) ∧
       length (m_children n') = length (m_children n) ∧
       n' = set_children n (m_children n') ∧
       ∀ i c, m_children n !! i = Some c →
         ∃ s c' ai ai',
           values !! i = Some s ∧ m_children n' !! i = Some c' ∧
           ambients !! i = Some ai ∧ ambients !! S i = Some ai' ∧
           stringValue gen (this ++ [i]) c ai = Done (s, c', ai')) ∧
  (∀ values n' a',
     example gen this n a = Done (values, n', a') →
     same_slots n n' ∧ cached_atom n' = cached_atom n) ∧
  (m_children n = [] → example gen this n a = Done ([], n, a)).
Proof.
  split; [|split].
  - intros values n' a'. unfold example. split.
    + intros H.
      destruct (example_from gen this 0 (m_children n) a)
        as [[[vs cs] a1]| |] eqn:He; [|discriminate..].
      injection H as <- <- <-.
      apply example_from_chain in He
        as (ambients & Hlen & H0 & Hl & Hv & Hc & Hall).
      exists ambients. by do 6 (split; [done|]).
    + intros (ambients & Hlen & H0 & Hl & Hv & Hc & -> & Hall).
      cbn [m_children set_children] in *.
      assert (example_from gen this 0 (m_children n) a
                = Done (values, m_children n', a')) as ->; [|done].
      apply example_from_chain. exists ambients.
      by do 5 (split; [done|]).
  - intros values n' a' H. unfold example in H.
    destruct (example_from gen this 0 (m_children n) a)
      as [[[vs cs] a1]| |]; [|discriminate..].
    injection H as <- <- <-. by repeat split.
  - intros E. unfold example. rewrite E. cbn.
    by rewrite <- E, set_children_id.
Qed.

Lemma example_one_per_child_witness :
  ∃ values n' a',
    example (generate 1) [] Scenario.pair_tree Scenario.ambient0
      = Done (values, n', a') ∧
    length values = 2%nat ∧
    ∃ c s c' ai ai',
      m_children Scenario.pair_tree !! 1%nat = Some c ∧
      values !! 1%nat = Some s ∧
      stringValue (generate 1) [1%nat] c ai = Done (s, c', ai').
Proof.
  destruct (example (generate 1) [] Scenario.pair_tree Scenario.ambient0)
    as [[[values n'] a']| |] eqn:H; [|vm_compute in H; discriminate..].
  exists values, n', a'. split; [reflexivity|].
  destruct (proj1 (proj1 (example_one_per_child (generate 1) []
                            Scenario.pair_tree Scenario.ambient0)
                     values n' a') H)
    as (ambients & _ & _ & _ & Hv & _ & _ & Hall).
  split; [exact Hv|].
  destruct (m_children Scenario.pair_tree !! 1%nat) as [c|] eqn:Hc;
    [|vm_compute in Hc; discriminate].
  destruct (Hall 1%nat c Hc) as (s & c' & ai & ai' & Hs & _ & _ & _ & Hsv).
  exists c, s, c', ai, ai'. split; [reflexivity|]. split; [exact Hs|exact Hsv].
Defined.

Section ExampleValues.
(** [generate] on the grandchildren, and on the children. *)
Variable gen : Generate.
Hypothesis gen_index : restores_index gen.
Hypothesis gen_replays : replays gen.

Lemma run_example this p :
  ∀ n a v n' a',
    run (generate_body gen) this p n a = Done (v, n', a') →
    ∀ a2, shrinking a2 = false →
      let picked :=
        take (nextChildIndex a' - nextChildIndex a)
             (drop (nextChildIndex a) (m_children n')) in
      example_from gen this (nextChildIndex a) picked a2
        = Done (show <$> picked_values (generate_body gen) this p n a,
                picked, a2).
Proof.
  induction p as [w|k IH|g k IH]; intros n a v n' a' H a2 Hq;
    cbn [run picked_values] in *.
  - injection H as <- <- <-. by rewrite Nat.sub_diag.
  - destruct (atom n (randomEngine a)) as [[x n1] re1].
    exact (IH x n1 (set_randomEngine a re1) v n' a' H a2 Hq).
  - destruct (pick (generate_body gen) this g n a)
      as [[[v1 n1] a1]| |] eqn:Hp; [|discriminate..].
    apply pick_Done in Hp as (child & child' & Hc & Hg & ->).
    set (i := nextChildIndex a) in *.
    pose proof (generate_body_index gen _ _ _ _ _ _ _ Hg) as Hi1.
    cbn in Hi1.
    pose proof (run_frame _ (generate_body_index gen) _ _ _ _ _ _ _ H)
      as (_ & _ & Hmono & Hj).
    assert (m_children n' !! i = Some child') as Hi.
    { rewrite Hj by lia. cbn.
      apply list_lookup_insert_eq. by eapply lookup_lt_Some. }
    specialize (IH v1 _ _ _ _ _ H a2 Hq). cbn zeta in IH |- *.
    rewrite Hi1 in IH.
    replace (nextChildIndex a' - i)%nat
      with (S (nextChildIndex a' - S i)) by lia.
    rewrite (drop_S _ _ _ Hi). cbn [take example_from].
    rewrite (stringValue_replays gen gen_index gen_replays _ _ _ _ _ _ _
               Hg a2 Hq).
    by rewrite IH.
Qed.
End ExampleValues.

(** X17.  After a regeneration of a node whose children were all picked by it,
    [example()], outside a shrink pass, returns the renderings of the values
    that the picks returned, in the order of the picks, and changes
    nothing. *)
Theorem example_shows_picked_values depth T this n a v n' a' g :
  regenerate (generate (S depth)) T this n a = Done (v, n', a') →
  activeGenerator n = Some g →
  length (m_children n')
    = length (picked_indices (generate (S depth)) this (produce g) n
                (set_nextChildIndex a 0)) →
  ∀ a2, shrinking a2 = false →
    example (generate depth) this n' a2
      = Done (show <$> picked_values (generate (S depth)) this (produce g) n
                         (set_nextChildIndex a 0),
              n', a2).
Proof.
  intros (g' & a1 & Hg & _ & H & _)%regenerate_Done Hg' Hlen a2 Hq.
  assert (g' = g) as -> by congruence.
  pose proof (run_children _ (generate_index (S depth)) _ _ _ _ _ _ _ H)
    as (_ & _ & Htr); [cbn; lia|].
  rewrite Htr, length_seq in Hlen. cbn in Hlen.
  pose proof (run_example (generate depth) (generate_index depth)
                (generate_replays depth) _ _ _ _ _ _ _ H a2 Hq) as He.
  cbn in He. rewrite Nat.sub_0_r in Hlen, He.
  rewrite <- Hlen, drop_0, firstn_all in He.
  unfold example. change (generate_body (generate depth))
    with (generate (S depth)) in He.
  rewrite He. by rewrite set_children_id.
Qed.

Lemma example_shows_picked_values_witness :
  ∃ v n' a',
    regenerate (generate 1) "pair" [] Scenario.pair_root Scenario.ambient0
      = Done (v, n', a') ∧
    example (generate 0) [] n' Scenario.ambient0
      = Done (["8"; "4"]%string, n', Scenario.ambient0).
Proof.
  destruct (regenerate (generate 1) "pair" [] Scenario.pair_root
              Scenario.ambient0) as [[[v n'] a']| |] eqn:H;
    [|vm_compute in H; discriminate..].
  exists v, n', a'. split; [reflexivity|].
  assert (length (m_children n') = 2%nat) as Hlen
    by (vm_compute in H; by injection H as _ <- _).
  exact (example_shows_picked_values 0 "pair" [] Scenario.pair_root
           Scenario.ambient0 v n' a' Scenario.pair H eq_refl Hlen
           Scenario.ambient0 eq_refl).
Defined.

(** ** The node that proposed *)

Lemma holds_proposal_state m m' :
  shrink_state m' = shrink_state m → holds_proposal m → holds_proposal m'.
Proof.
  unfold shrink_state, holds_proposal. intros [= _ -> ->]. done.
Qed.

Section ProposesHere.
Variable gen : Generate.
Hypothesis gen_index : restores_index gen.
Hypothesis gen_proposes : proposes_within gen.
Hypothesis gen_quiet : keeps_everywhere same_shrink_state true gen.
Hypothesis gen_here : proposes_here gen.

Lemma run_quiet this p n a v n' a' :
  shrinking a = false →
  run gen this p n a = Done (v, n', a') →
  everywhere same_shrink_state n n'.
Proof.
  intros Hq H.
  eapply (run_keeps_everywhere same_shrink_state true);
    [..|exact gen_proposes|exact gen_quiet| |exact H];
    unfold same_shrink_state; try done.
  intros x y z [? ?] [? ?]. split; congruence.
Qed.

Lemma run_proposes_here this p :
  ∀ n a v n' a' q,
    shrunkNode a = Some None →
    run gen this p n a = Done (v, n', a') →
    shrunkNode a' = Some (Some q) →
    ∃ s m, q = this ++ s ∧ node_at s n' = Some m ∧ holds_proposal m.
Proof.
  induction p as [w|k IH|g k IH]; intros n a v n' a' q Hnull H Hq;
    cbn [run] in H.
  - injection H as <- <- <-. congruence.
  - destruct (atom n (randomEngine a)) as [[x n1] re1].
    exact (IH x n1 (set_randomEngine a re1) v n' a' q Hnull H Hq).
  - destruct (pick gen this g n a) as [[[v1 n1] a1]| |] eqn:Hp;
      [|discriminate..].
    apply pick_Done in Hp as (child & child' & Hc & Hg & ->).
    set (i := nextChildIndex a) in *.
    rewrite picked_ambient_null in Hg by (rewrite Hnull; done).
    pose proof (gen_proposes _ _ _ _ _ _ _ Hg) as Hb. cbn in Hb.
    unfold proposal_from in Hb. rewrite Hnull in Hb.
    destruct Hb as [Hb|[s0 Hb]]; [by eapply IH|].
    pose proof (run_proposes gen gen_proposes _ _ _ _ _ _ _ H) as Hb'.
    unfold proposal_below in Hb'. rewrite Hb in Hb'.
    assert (q = (this ++ [i]) ++ s0) as -> by congruence.
    destruct (gen_here (this ++ [i]) g child (set_nextChildIndex a (S i))
                v1 child' a1 _ Hnull Hg Hb)
      as (s & m & Es & Hm & Hh).
    apply app_inv_head in Es as <-.
    assert (shrinking a1 = false) as Hq1
      by (apply shrinking_false; congruence).
    destruct (run_quiet _ _ _ _ _ _ _ Hq1 H (i :: s0) m)
      as (m' & Hm' & _ & Hs).
    { cbn. rewrite list_lookup_insert_eq by by eapply lookup_lt_Some.
      exact Hm. }
    exists (i :: s0), m'. rewrite <- app_assoc.
    split; [done|]. split; [done|]. by eapply holds_proposal_state.
Qed.

Lemma regenerate_proposes_here T this n a v n' a' q :
  shrunkNode a = Some None →
  regenerate gen T this n a = Done (v, n', a') →
  shrunkNode a' = Some (Some q) →
  ∃ s m, q = this ++ s ∧ node_at s n' = Some m ∧ holds_proposal m.
Proof.
  intros Hnull (g & a1 & _ & _ & H & ->)%regenerate_Done Hq.
  exact (run_proposes_here this (produce g) n (set_nextChildIndex a 0)
           v n' a1 q Hnull H Hq).
Qed.

Lemma propose_proposes_here T this n a v n' a' q :
  shrunkNode a = Some None →
  propose gen T this n a = Done (v, n', a') →
  shrunkNode a' = Some (Some q) →
  ∃ s m, q = this ++ s ∧ node_at s n' = Some m ∧ holds_proposal m.
Proof.
  intros Hnull
    (T' & it & _ & [(_ & _ & w & it' & _ & H)|[_ H]])%propose_Done Hq.
  - pose proof (regenerate_proposes gen gen_proposes _ _ _ _ _ _ _ H) as Hb.
    cbn in Hb. rewrite Hb in Hq. injection Hq as <-.
    apply (regenerate_frame gen gen_index) in H as ((_ & _ & _ & Hs & Hi) & _).
    cbn in Hs, Hi.
    exists [], n'. rewrite app_nil_r. repeat split; [eauto|congruence].
  - by eapply regenerate_proposes_here.
Qed.

Lemma generate_body_proposes_here : proposes_here (generate_body gen).
Proof.
  intros this G n a v n' a' q Hnull H Hq.
  apply generate_body_Done in H. cbn zeta in H.
  destruct H as [[Hs _]|[(_ & _ & value & n1 & a1 & H1 & H)|(_ & _ & H)]].
  - apply shrinking_false in Hs. contradiction.
  - destruct H as [[_ [= -> -> ->]]|[Hs H]].
    + by eapply regenerate_proposes_here.
    + apply shrinking_true in Hs. by eapply propose_proposes_here.
  - by eapply propose_proposes_here.
Qed.
End ProposesHere.

Lemma generate_proposes_here depth : proposes_here (generate depth).
Proof.
  induction depth as [|depth IH]; [by intros ? ? ? ? ? ? ? ? ? [=]|].
  apply generate_body_proposes_here;
    auto using generate_index, generate_proposes,
               generate_keeps_shrink_state.
Qed.

Lemma update_at_node f p :
  ∀ n m, node_at p n = Some m →
    ∃ n', update_at f p n = Some n' ∧ node_at p n' = Some (f m).
Proof.
  induction p as [|i p IH]; intros n m Hm; cbn in Hm |- *.
  - injection Hm as <-. eauto.
  - destruct (m_children n !! i) as [c|] eqn:Hc; [|done].
    destruct (IH c m Hm) as (c' & -> & Hc'). eexists. split; [done|].
    cbn. by rewrite list_lookup_insert_eq by by eapply lookup_lt_Some.
Qed.

(** ** What [shrink] returns *)

(** C1, as the code has it.  [shrink(g)] returns exactly the outcomes of
    the search for one immediate shrink: (false, tries) at the first pass in
    which no node proposes, (true, tries) at the first pass whose proposal
    makes [g] return false, that proposal being accepted at the node that
    made it, through a pointer that is still good, and no further pass being
    run; [tries] is the number of passes, at least one.  In plain terms,
    when [shrink] returns: its last pass ran under a null binding; on
    (false, tries) that pass left the binding null and the tree is as the
    pass left it; on (true, tries) the pass made [g] return false, the node
    that [ShrunkNode] points to held the proposal and had not been moved, and
    the tree is as the pass left it but for [acceptShrink] on that node.
    The binding of the caller is back. *)
Theorem shrink_finds_one_immediate_shrink depth G n a success tries n' a' :
  ((∃ passes, shrink passes depth G n a = Done (success, tries, n', a')) ↔
   (∃ a1, shrink_search depth G 0 n a (success, tries, n', a1) ∧
          a' = restore_shrunkNode a1 a ∧ 1 ≤ tries)) ∧
  (∀ passes,
     shrink passes depth G n a = Done (success, tries, n', a') →
     1 ≤ tries ≤ Z.of_nat passes ∧
     shrunkNode a' = shrunkNode a ∧
     ∃ n0 a0 v n1 a1,
       shrunkNode a0 = Some None ∧
       generate depth [] G n0 a0 = Done (v, n1, a1) ∧
       if success
       then to_bool v = Some false ∧
            ∃ p m, shrunkNode a1 = Some (Some p) ∧ dangling a1 = false ∧
                   node_at p n1 = Some m ∧ holds_proposal m ∧
                   update_at acceptShrink p n1 = Some n' ∧
                   node_at p n' = Some (acceptShrink m)
       else shrunkNode a1 = Some None ∧ n' = n1).
Proof.
  unfold shrink. split; [split|].
  - intros [passes H].
    destruct (shrink_loop passes depth G 0 n a)
      as [[[[s t] n1] a1]| |] eqn:Hl; [|discriminate..].
    injection H as -> -> -> <-.
    apply shrink_loop_sound in Hl. exists a1.
    pose proof (shrink_search_tries _ _ _ _ _ _ _ _ _ Hl).
    split; [done|]. split; [done|lia].
  - intros (a1 & H & -> & _).
    apply shrink_loop_complete in H as [passes H].
    exists passes. by rewrite H.
  - intros passes H.
    destruct (shrink_loop passes depth G 0 n a)
      as [[[[s t] n1] a1]| |] eqn:Hl; [|discriminate..].
    injection H as -> -> -> <-.
    pose proof (shrink_loop_tries _ _ _ _ _ _ _ _ _ _ Hl) as Ht.
    split; [lia|]. split; [reflexivity|].
    apply shrink_loop_last_pass in Hl as (n0 & a0 & v & n2 & Ha0 & Hg & Hs).
    exists n0, a0, v, n2, a1. split; [done|]. split; [done|].
    destruct success.
    + destruct Hs as (Hb & p & Hp & Hd & Hu). split; [done|].
      destruct (generate_proposes_here depth _ _ _ _ _ _ _ _ Ha0 Hg Hp)
        as (q & m & Ep & Hm & Hh).
      cbn in Ep. subst q.
      destruct (update_at_node acceptShrink p n2 m Hm) as (n3 & Hu' & Hm').
      assert (n3 = n') as -> by congruence.
      exists p, m. do 4 (split; [done|]). by split.
    + by destruct Hs as [-> ?].
Qed.

Lemma shrink_finds_one_immediate_shrink_witness :
  (∃ a1,
     shrink_search 2 Scenario.s1 0 Scenario.s1_tree Scenario.ambient0
       (true, 4, Scenario.s1_accepted 6, a1) ∧
     Scenario.ambient0 = restore_shrunkNode a1 Scenario.ambient0 ∧
     1 ≤ 4) ∧
  (1 ≤ 4 ≤ Z.of_nat 4 ∧
   shrunkNode Scenario.ambient0 = shrunkNode Scenario.ambient0 ∧
   ∃ n0 a0 v n1 a1,
     shrunkNode a0 = Some None ∧
     generate 2 [] Scenario.s1 n0 a0 = Done (v, n1, a1) ∧
     to_bool v = Some false ∧
     ∃ p m,
       shrunkNode a1 = Some (Some p) ∧ dangling a1 = false ∧
       node_at p n1 = Some m ∧ holds_proposal m ∧
       update_at acceptShrink p n1 = Some (Scenario.s1_accepted 6) ∧
       node_at p (Scenario.s1_accepted 6) = Some (acceptShrink m)).
Proof.
  assert (shrink 4 2 Scenario.s1 Scenario.s1_tree Scenario.ambient0
            = Done (true, 4, Scenario.s1_accepted 6, Scenario.ambient0))
    as H by (vm_compute; reflexivity).
  pose proof (shrink_finds_one_immediate_shrink 2 Scenario.s1
                Scenario.s1_tree Scenario.ambient0 true 4
                (Scenario.s1_accepted 6) Scenario.ambient0) as [Hiff Hlast].
  split.
  - apply (proj1 Hiff). exists 4%nat. exact H.
  - exact (Hlast 4%nat H).
Defined.

(** C1, as stated, fails on S1: [shrink] returns (true, 4) after it has
    accepted one proposal, although a pass on the tree it leaves makes the
    argument's node propose again, and a second call of [shrink] accepts a
    further shrink. *)
Lemma shrink_returns_before_fixpoint :
  shrink 10 2 Scenario.s1 Scenario.s1_tree Scenario.ambient0
    = Done (true, 4, Scenario.s1_accepted 6, Scenario.ambient0) ∧
  (∃ v n' a',
     generate 2 [] Scenario.s1 (Scenario.s1_accepted 6)
         (set_shrunkNode Scenario.ambient0 (Some None))
       = Done (v, n', a') ∧
     shrunkNode a' = Some (Some [0%nat])) ∧
  shrink 10 2 Scenario.s1 (Scenario.s1_accepted 6) Scenario.ambient0
    = Done (true, 1, Scenario.s1_accepted 3, Scenario.ambient0).
Proof.
  split; [vm_compute; reflexivity|]. split; [|vm_compute; reflexivity].
  eexists _, _, _. split; [vm_compute; reflexivity|]. reflexivity.
Qed.

(** Where the pointer does not stay good.  On a root that was never
    generated on, the first pass of [shrink] for a property on two arguments
    appends the node of the second argument after the node of the first has
    proposed: the vector of the root's children grows from one to two, the
    node that proposed is moved, and [shrink], the property returning false,
    calls [acceptShrink] through the pointer to where the node was.  On the
    tree that a first run left, the pass appends nothing and the proposal
    is accepted. *)
Example shrink_follows_dangling_pointer :
  (∃ n1 a1,
     generate 2 [] Scenario.never (RoseNode_new None)
         (set_shrunkNode Scenario.ambient0 (Some None))
       = Done (VBool false, n1, a1) ∧
     length (m_children n1) = 2%nat ∧
     shrunkNode a1 = Some (Some [0%nat]) ∧ dangling a1 = true) ∧
  shrink 10 2 Scenario.never (RoseNode_new None) Scenario.ambient0 = Fault ∧
  (∃ n',
     shrink 10 2 Scenario.never Scenario.never_tree Scenario.ambient0
       = Done (true, 1, n', Scenario.ambient0) ∧
     (m_acceptedGenerator <$> node_at [0%nat] n')
       = Some (Some (Constant "int" (VInt 4)))).
Proof.
  split; [|split].
  - eexists _, _. split; [vm_compute; reflexivity|]. by repeat split.
  - vm_compute. reflexivity.
  - eexists. split; [vm_compute; reflexivity|]. reflexivity.
Qed.

(** Whether the pointer stays good is up to the capacity of the vector.
    Of four arguments 0, 0, 8 and 4 on a root never generated on, the third
    is the first whose node proposes, and the node of the fourth is appended
    after it.  A vector that doubles its capacity has room for four
    elements when it holds three: nothing is moved and [shrink] accepts the
    proposal.  With a vector that is full at every size, the node that
    proposed is moved and [shrink] follows a dangling pointer. *)
Example capacity_decides :
  let g := Scenario.fails_on [Scenario.halving 0; Scenario.halving 0;
                              Scenario.halving 8; Scenario.halving 4] in
  (∃ n',
     shrink 10 2 g (RoseNode_new None) Scenario.ambient0
       = Done (true, 1, n', Scenario.ambient0) ∧
     (m_acceptedGenerator <$> node_at [2%nat] n')
       = Some (Some (Constant "int" (VInt 4)))) ∧
  shrink 10 2 g (RoseNode_new None)
    (mkAmbient 0 None false (λ _, true) Scenario.engine0) = Fault.
Proof.
  intros g. split; [|vm_compute; reflexivity].
  eexists. split; [vm_compute; reflexivity|]. reflexivity.
Qed.

(** ** The node that holds the proposal *)



(** ** When the pointer to the proposing node dangles *)

Lemma nodes_unfold n : nodes n = S (sum_list_with nodes (m_children n)).
Proof. by destruct n. Qed.

Lemma nodes_children n n' :
  m_children n' = m_children n → nodes n' = nodes n.
Proof. intros E. by rewrite !nodes_unfold, E. Qed.

Lemma sum_list_with_insert (f : RoseNode → nat) l :
  ∀ i x y, l !! i = Some x →
    (sum_list_with f (<[i := y]> l) + f x = sum_list_with f l + f y)%nat.
Proof.
  induction l as [|c l IH]; intros [|i] x y H; simpl in H |- *; try done.
  - injection H as ->. lia.
  - specialize (IH i x y H). lia.
Qed.

(** What a pick does to the number of nodes, given what [generate] on the
    child does. *)
Lemma nodes_picked this n i child child' :
  picked_children this n i !! i = Some child →
  (nodes child ≤ nodes child')%nat →
  let n1 := set_children n (<[i := child']> (picked_children this n i)) in
  (nodes n ≤ nodes n1)%nat ∧
  ((nodes child < nodes child')%nat → (nodes n < nodes n1)%nat) ∧
  ((length (m_children n) ≤ i)%nat → (nodes n < nodes n1)%nat).
Proof.
  intros Hc Hle n1. subst n1. rewrite (nodes_unfold (set_children _ _)).
  rewrite (nodes_unfold n). cbn [m_children set_children].
  pose proof (sum_list_with_insert nodes _ _ _ child' Hc) as E.
  unfold picked_children in *.
  destruct (Nat.leb_spec (length (m_children n)) i) as [Hi|Hi].
  - rewrite sum_list_with_app in E. cbn in E.
    pose proof (nodes_unfold child). lia.
  - lia.
Qed.

Lemma push_back_moves_dangling this size a :
  dangling a = true → dangling (push_back_moves this size a) = true.
Proof.
  unfold push_back_moves. intros H. destruct (reallocates a size); [|done].
  destruct (shrunkNode a) as [[q|]|]; [|done..]. by destruct (decide _).
Qed.

Lemma picked_ambient_dangling this n a :
  dangling (picked_ambient this n a) = true →
  dangling a = true ∨ (length (m_children n) ≤ nextChildIndex a)%nat.
Proof.
  unfold picked_ambient.
  destruct (Nat.leb_spec (length (m_children n)) (nextChildIndex a));
    [by right|by left].
Qed.

Section Dangling.
Variable gen : Generate.
Hypothesis gen_dangles : dangles_by_append gen.

Lemma run_dangles_by_append this p :
  ∀ n a v n' a',
    run gen this p n a = Done (v, n', a') →
    (nodes n ≤ nodes n')%nat ∧
    (dangling a' = true → dangling a = true ∨ (nodes n < nodes n')%nat).
Proof.
  induction p as [w|k IH|g k IH]; intros n a v n' a' H; cbn [run] in H.
  - injection H as <- <- <-. split; [lia|by left].
  - destruct (atom n (randomEngine a)) as [[x n1] re1] eqn:Ha.
    apply atom_frame in Ha as (_ & Hch & _).
    apply IH in H. cbn in H. by rewrite (nodes_children _ _ Hch) in H.
  - destruct (pick gen this g n a) as [[[v1 n1] a1]| |] eqn:Hp;
      [|discriminate..].
    apply pick_Done in Hp as (child & child' & Hc & Hg & ->).
    apply gen_dangles in Hg as [Hle Hd]. cbn in Hd.
    destruct (nodes_picked this n _ child child' Hc Hle) as (Hn & Hlt & Happ).
    apply IH in H as [Hle' Hd'].
    split; [lia|]. intros Ha'.
    destruct (Hd' Ha') as [Ha1|?]; [|right; lia].
    destruct (Hd Ha1) as [Hpa|?]; [|right; lia].
    destruct (picked_ambient_dangling _ _ _ Hpa) as [?|?]; [by left|].
    right. lia.
Qed.

Lemma regenerate_dangles_by_append T this n a v n' a' :
  regenerate gen T this n a = Done (v, n', a') →
  (nodes n ≤ nodes n')%nat ∧
  (dangling a' = true → dangling a = true ∨ (nodes n < nodes n')%nat).
Proof.
  intros (g & a1 & _ & _ & H & ->)%regenerate_Done.
  by apply run_dangles_by_append in H.
Qed.

Lemma propose_dangles_by_append T this n a v n' a' :
  propose gen T this n a = Done (v, n', a') →
  (nodes n ≤ nodes n')%nat ∧
  (dangling a' = true → dangling a = true ∨ (nodes n < nodes n')%nat).
Proof.
  intros (T' & it & _ & [(_ & _ & w & it' & _ & H)|[_ H]])%propose_Done;
    apply regenerate_dangles_by_append in H as [Hle Hd];
    rewrite (nodes_children n (set_shrunkGenerator _ _)) in Hle, Hd by done.
  - split; [done|]. intros Ha'. by destruct (Hd Ha') as [?|?]; [|right].
  - done.
Qed.

Lemma generate_body_dangles_by_append : dangles_by_append (generate_body gen).
Proof.
  intros this G n a v n' a' H. apply generate_body_Done in H. cbn zeta in H.
  destruct H as [[_ H]|[(_ & _ & value & n1 & a1 & H1 & H)|(_ & _ & H)]].
  - apply regenerate_dangles_by_append in H.
    by rewrite (nodes_children n (set_lastGenerator _ _)) in H.
  - apply regenerate_dangles_by_append in H1 as [Hle1 Hd1].
    rewrite (nodes_children n (set_lastGenerator _ _)) in Hle1, Hd1 by done.
    destruct H as [[_ [= -> -> ->]]|[_ H]]; [done|].
    apply propose_dangles_by_append in H as [Hle Hd].
    match type of Hle with (nodes ?m ≤ _)%nat =>
      assert (nodes m = nodes n1) as E
        by (apply nodes_children; by destruct (m_acceptedGenerator _))
    end.
    rewrite E in Hle, Hd.
    split; [lia|]. intros Ha'.
    destruct (Hd Ha') as [Ha1|?]; [|right; lia].
    destruct (Hd1 Ha1) as [?|?]; [by left|right; lia].
  - apply propose_dangles_by_append in H.
    by rewrite (nodes_children n (set_lastGenerator _ _)) in H.
Qed.

Hypothesis gen_proposes : proposes_within gen.
Hypothesis gen_keeps : keeps_dangling gen.

Lemma run_keeps_dangling this p :
  ∀ n a v n' a',
    run gen this p n a = Done (v, n', a') →
    shrinking a = false → dangling a = true → dangling a' = true.
Proof.
  induction p as [w|k IH|g k IH]; intros n a v n' a' H Hq Hd; cbn [run] in H.
  - by injection H as <- <- <-.
  - destruct (atom n (randomEngine a)) as [[x n1] re1].
    exact (IH x n1 (set_randomEngine a re1) v n' a' H Hq Hd).
  - destruct (pick gen this g n a) as [[[v1 n1] a1]| |] eqn:Hp;
      [|discriminate..].
    apply pick_Done in Hp as (child & child' & Hc & Hg & ->).
    assert (shrinking (set_nextChildIndex (picked_ambient this n a)
                         (S (nextChildIndex a))) = false) as Hq0.
    { unfold shrinking. cbn. rewrite picked_ambient_shrunkNode. exact Hq. }
    assert (dangling (picked_ambient this n a) = true) as Hd0.
    { unfold picked_ambient. destruct (_ <=? _)%nat; [|done].
      by apply push_back_moves_dangling. }
    eapply IH; [exact H| |by eapply gen_keeps; [exact Hg|..]].
    eapply shrinking_false_stays; [exact Hq0|reflexivity|].
    by eapply gen_proposes.
Qed.

Lemma generate_body_keeps_dangling : keeps_dangling (generate_body gen).
Proof.
  intros this G n a v n' a' H Hq Hd. unfold generate_body in H.
  rewrite Hq in H.
  apply regenerate_Done in H as (g & a1 & _ & _ & H & ->).
  by apply run_keeps_dangling in H.
Qed.
End Dangling.

Lemma generate_dangles_by_append depth : dangles_by_append (generate depth).
Proof.
  induction depth as [|depth IH]; [by intros ? ? ? ? ? ? ? [=]|].
  by apply generate_body_dangles_by_append.
Qed.

Lemma generate_keeps_dangling depth : keeps_dangling (generate depth).
Proof.
  induction depth as [|depth IH]; [by intros ? ? ? ? ? ? ? [=]|].
  apply generate_body_keeps_dangling; auto using generate_proposes.
Qed.

(** X18.  A pass of [shrink] that appends no node leaves the pointer to the
    proposing node good: when the tree has as many nodes after the pass as
    before, [ShrunkNode] does not dangle, and if the pass made the generator
    return false, [shrink] accepts the proposal at the node that made it and
    returns success.  So [shrink] is safe on a tree on which a pass
    finds every child it picks. *)
Theorem accept_is_safe_without_append passes depth G n a v n1 a1 p :
  generate depth [] G n (set_shrunkNode a (Some None)) = Done (v, n1, a1) →
  shrunkNode a1 = Some (Some p) →
  nodes n1 = nodes n →
  dangling a1 = false ∧
  (to_bool v = Some false →
   ∃ m n',
     node_at p n1 = Some m ∧ holds_proposal m ∧
     update_at acceptShrink p n1 = Some n' ∧
     node_at p n' = Some (acceptShrink m) ∧
     shrink (S passes) depth G n a
       = Done (true, 1, n', restore_shrunkNode a1 a)).
Proof.
  intros Hg Hp Hn.
  assert (dangling a1 = false) as Hd.
  { destruct (dangling a1) eqn:Hd; [|done].
    destruct (generate_dangles_by_append depth _ _ _ _ _ _ _ Hg) as [_ H].
    destruct (H Hd) as [?|?]; [done|lia]. }
  split; [done|]. intros Hb.
  destruct (generate_proposes_here depth [] G n
              (set_shrunkNode a (Some None)) v n1 a1 p eq_refl Hg Hp)
    as (q & m & Ep & Hm & Hh).
  cbn in Ep. subst q.
  destruct (update_at_node acceptShrink p n1 m Hm) as (n' & Hu & Hm').
  exists m, n'. do 4 (split; [done|]).
  unfold shrink. cbn [shrink_loop]. by rewrite Hg, Hb, Hp, Hd, Hu.
Qed.

Lemma accept_is_safe_without_append_witness :
  ∃ n',
    shrink 1 2 Scenario.never Scenario.never_tree Scenario.ambient0
      = Done (true, 1, n', Scenario.ambient0).
Proof.
  destruct (generate 2 [] Scenario.never Scenario.never_tree
              (set_shrunkNode Scenario.ambient0 (Some None)))
    as [[[v n1] a1]| |] eqn:Hg; [|vm_compute in Hg; discriminate..].
  assert (to_bool v = Some false ∧ shrunkNode a1 = Some (Some [0%nat]) ∧
          nodes n1 = nodes Scenario.never_tree ∧
          restore_shrunkNode a1 Scenario.ambient0 = Scenario.ambient0)
    as (Hb & Hp & Hn & Ha).
  { vm_compute in Hg. injection Hg as <- <- <-. by repeat split. }
  destruct (proj2 (accept_is_safe_without_append 0 2 Scenario.never
                     Scenario.never_tree Scenario.ambient0 v n1 a1
                     [0%nat] Hg Hp Hn) Hb)
    as (m & n' & _ & _ & _ & _ & Hs).
  exists n'. rewrite Hs, Ha. reflexivity.
Defined.


